(** * suno-api: the anti-detection session and transport layer

    A shallow embedding of the fingerprint rotation manager
    (src/lib/fingerprints/index.ts), the retrying HTTP client (class
    HttpClient), the Clerk session service (src/lib/suno/AuthService.ts)
    and the keyed instance cache of the [sunoApi] factory, together with
    the properties the specification states about them.

    Conventions of the embedding.
    - A JavaScript [Map<string, number>] is a [gmap string nat], a
      [Set<string>] a [gset string], a [Record<string, string>] that is
      only read by key a [gmap string string].
    - Counters that start at 0 and are only incremented are [nat]; epoch
      milliseconds and retry bounds are [Z] (integer-valued doubles, exact
      below 2^53).
    - [Date.now()] and [Math.random()] are inputs of the operation that
      reads them.
    - A method that mutates [this] returns the new object next to its
      result; a method that can throw returns an [Outcome].
    - An object is followed through one caller at a time.  The
      interleaving of asynchronous callers is modelled where a property is
      about it: for the instance cache. *)

From stdpp Require Import gmap strings list fin_maps.
From Stdlib Require Import ZArith Lia.

(* stdpp's solvers clear hypotheses by name and warn when one is gone *)
#[local] Set Warnings "-clear-no-such-hyp".

Local Open Scope string_scope.
Local Open Scope nat_scope.
Local Open Scope list_scope.

(** The double quote character, for header values that contain it. *)
Definition dq : string := String (Ascii.ascii_of_nat 34) EmptyString.

(** ** Errors and outcomes *)

(** A thrown JavaScript value: [new Error(message)], or the [TypeError]
    raised when a property of [undefined] is read. *)
Inductive JsError : Type :=
  | Error (message : string)
  | TypeError (message : string).

#[global] Instance JsError_eq_dec : EqDecision JsError.
Proof. solve_decision. Defined.

(** The result of running a method on an object of type [S]: it returns a
    value, throws, or (for a recursive method run with a recursion budget)
    exhausts the budget.  The object after the call is part of the first
    two: mutations made before a [throw] stay. *)
Inductive Outcome (S A : Type) : Type :=
  | Returned (a : A) (s : S)
  | Threw (e : JsError) (s : S)
  | OutOfFuel.
Arguments Returned {S A} a s.
Arguments Threw {S A} e s.
Arguments OutOfFuel {S A}.

(** ** Fingerprint profiles and their rotation: src/lib/fingerprints/index.ts *)

Module Fingerprints.

Inductive Platform : Type := android | ios | desktop.

#[global] Instance Platform_eq_dec : EqDecision Platform.
Proof. solve_decision. Defined.

Record FingerprintProfile : Type := {
  id : string;
  name : string;
  platform : Platform;
  userAgent : string;
  clientHints : list (string * string);
  ja3Fingerprint : string;
  http2Fingerprint : string;
  sunoHeaders : list (string * string)
}.

#[global] Instance FingerprintProfile_eq_dec : EqDecision FingerprintProfile.
Proof. solve_decision. Defined.

Record ProfileRotationState : Type := {
  currentIndex : nat;
  usageCount : gmap string nat;
  lastRotation : Z;
  blockedProfiles : gset string
}.

Definition PIXEL_8_CHROME_130 : FingerprintProfile := {|
  id := "pixel8-chrome130";
  name := "Google Pixel 8 - Chrome 130";
  platform := android;
  userAgent := "Mozilla/5.0 (Linux; Android 14; Pixel 8 Build/UQ1A.240105.004) AppleWebKit/537.36 (KHTML, like Gecko) Version/4.0 Chrome/130.0.6723.86 Mobile Safari/537.36";
  clientHints := [
    ("sec-ch-ua", (dq +:+ "Chromium" +:+ dq +:+ ";v=" +:+ dq +:+ "130" +:+ dq +:+ ", " +:+ dq +:+ "Android WebView" +:+ dq +:+ ";v=" +:+ dq +:+ "130" +:+ dq +:+ ", " +:+ dq +:+ "Not?A_Brand" +:+ dq +:+ ";v=" +:+ dq +:+ "99" +:+ dq));
    ("sec-ch-ua-mobile", "?1");
    ("sec-ch-ua-platform", (dq +:+ "Android" +:+ dq));
    ("sec-ch-ua-platform-version", (dq +:+ "14.0.0" +:+ dq));
    ("sec-ch-ua-full-version", (dq +:+ "130.0.6723.86" +:+ dq));
    ("sec-ch-ua-full-version-list", (dq +:+ "Chromium" +:+ dq +:+ ";v=" +:+ dq +:+ "130.0.6723.86" +:+ dq +:+ ", " +:+ dq +:+ "Android WebView" +:+ dq +:+ ";v=" +:+ dq +:+ "130.0.6723.86" +:+ dq +:+ ", " +:+ dq +:+ "Not?A_Brand" +:+ dq +:+ ";v=" +:+ dq +:+ "99.0.0.0" +:+ dq));
    ("sec-ch-ua-model", (dq +:+ "Pixel 8" +:+ dq));
    ("sec-ch-ua-arch", (dq +:+ dq));
    ("sec-ch-ua-bitness", (dq +:+ dq))
  ];
  ja3Fingerprint := "771,4865-4866-4867-49195-49199-49196-49200-52393-52392-49171-49172-156-157-47-53,0-23-65281-10-11-35-16-5-13-18-51-45-43-27-17513,29-23-24,0";
  http2Fingerprint := "1:65536;2:0;4:6291456;6:262144|15663105|0|m,a,s,p";
  sunoHeaders := [
    ("x-suno-client", "Android prerelease-4nt180t 1.0.42");
    ("X-Requested-With", "com.suno.android");
    ("Affiliate-Id", "undefined")
  ] |}.

Definition GALAXY_S24_CHROME_130 : FingerprintProfile := {|
  id := "galaxy-s24-chrome130";
  name := "Samsung Galaxy S24 Ultra - Chrome 130";
  platform := android;
  userAgent := "Mozilla/5.0 (Linux; Android 14; SM-S928B Build/UP1A.231005.007) AppleWebKit/537.36 (KHTML, like Gecko) Chrome/130.0.6723.86 Mobile Safari/537.36";
  clientHints := [
    ("sec-ch-ua", (dq +:+ "Chromium" +:+ dq +:+ ";v=" +:+ dq +:+ "130" +:+ dq +:+ ", " +:+ dq +:+ "Google Chrome" +:+ dq +:+ ";v=" +:+ dq +:+ "130" +:+ dq +:+ ", " +:+ dq +:+ "Not?A_Brand" +:+ dq +:+ ";v=" +:+ dq +:+ "99" +:+ dq));
    ("sec-ch-ua-mobile", "?1");
    ("sec-ch-ua-platform", (dq +:+ "Android" +:+ dq));
    ("sec-ch-ua-platform-version", (dq +:+ "14.0.0" +:+ dq));
    ("sec-ch-ua-full-version", (dq +:+ "130.0.6723.86" +:+ dq));
    ("sec-ch-ua-full-version-list", (dq +:+ "Chromium" +:+ dq +:+ ";v=" +:+ dq +:+ "130.0.6723.86" +:+ dq +:+ ", " +:+ dq +:+ "Google Chrome" +:+ dq +:+ ";v=" +:+ dq +:+ "130.0.6723.86" +:+ dq +:+ ", " +:+ dq +:+ "Not?A_Brand" +:+ dq +:+ ";v=" +:+ dq +:+ "99.0.0.0" +:+ dq));
    ("sec-ch-ua-model", (dq +:+ "SM-S928B" +:+ dq));
    ("sec-ch-ua-arch", (dq +:+ dq));
    ("sec-ch-ua-bitness", (dq +:+ dq))
  ];
  ja3Fingerprint := "771,4865-4866-4867-49195-49199-49196-49200-52393-52392-49171-49172-156-157-47-53,0-23-65281-10-11-35-16-5-13-18-51-45-43-27-17513,29-23-24,0";
  http2Fingerprint := "1:65536;2:0;4:6291456;6:262144|15663105|0|m,a,s,p";
  sunoHeaders := [
    ("x-suno-client", "Android prerelease-4nt180t 1.0.42");
    ("X-Requested-With", "com.suno.android");
    ("Affiliate-Id", "undefined")
  ] |}.

Definition ONEPLUS_12_CHROME_130 : FingerprintProfile := {|
  id := "oneplus12-chrome130";
  name := "OnePlus 12 - Chrome 130";
  platform := android;
  userAgent := "Mozilla/5.0 (Linux; Android 14; CPH2573 Build/UKQ1.230924.001) AppleWebKit/537.36 (KHTML, like Gecko) Chrome/130.0.6723.86 Mobile Safari/537.36";
  clientHints := [
    ("sec-ch-ua", (dq +:+ "Chromium" +:+ dq +:+ ";v=" +:+ dq +:+ "130" +:+ dq +:+ ", " +:+ dq +:+ "Google Chrome" +:+ dq +:+ ";v=" +:+ dq +:+ "130" +:+ dq +:+ ", " +:+ dq +:+ "Not?A_Brand" +:+ dq +:+ ";v=" +:+ dq +:+ "99" +:+ dq));
    ("sec-ch-ua-mobile", "?1");
    ("sec-ch-ua-platform", (dq +:+ "Android" +:+ dq));
    ("sec-ch-ua-platform-version", (dq +:+ "14.0.0" +:+ dq));
    ("sec-ch-ua-full-version", (dq +:+ "130.0.6723.86" +:+ dq));
    ("sec-ch-ua-full-version-list", (dq +:+ "Chromium" +:+ dq +:+ ";v=" +:+ dq +:+ "130.0.6723.86" +:+ dq +:+ ", " +:+ dq +:+ "Google Chrome" +:+ dq +:+ ";v=" +:+ dq +:+ "130.0.6723.86" +:+ dq +:+ ", " +:+ dq +:+ "Not?A_Brand" +:+ dq +:+ ";v=" +:+ dq +:+ "99.0.0.0" +:+ dq));
    ("sec-ch-ua-model", (dq +:+ "CPH2573" +:+ dq));
    ("sec-ch-ua-arch", (dq +:+ dq));
    ("sec-ch-ua-bitness", (dq +:+ dq))
  ];
  ja3Fingerprint := "771,4865-4866-4867-49195-49199-49196-49200-52393-52392-49171-49172-156-157-47-53,0-23-65281-10-11-35-16-5-13-18-51-45-43-27-17513,29-23-24,0";
  http2Fingerprint := "1:65536;2:0;4:6291456;6:262144|15663105|0|m,a,s,p";
  sunoHeaders := [
    ("x-suno-client", "Android prerelease-4nt180t 1.0.42");
    ("X-Requested-With", "com.suno.android");
    ("Affiliate-Id", "undefined")
  ] |}.

Definition XIAOMI_14_CHROME_130 : FingerprintProfile := {|
  id := "xiaomi14-chrome130";
  name := "Xiaomi 14 Pro - Chrome 130";
  platform := android;
  userAgent := "Mozilla/5.0 (Linux; Android 14; 23116PN5BC Build/UKQ1.231003.002) AppleWebKit/537.36 (KHTML, like Gecko) Chrome/130.0.6723.86 Mobile Safari/537.36";
  clientHints := [
    ("sec-ch-ua", (dq +:+ "Chromium" +:+ dq +:+ ";v=" +:+ dq +:+ "130" +:+ dq +:+ ", " +:+ dq +:+ "Google Chrome" +:+ dq +:+ ";v=" +:+ dq +:+ "130" +:+ dq +:+ ", " +:+ dq +:+ "Not?A_Brand" +:+ dq +:+ ";v=" +:+ dq +:+ "99" +:+ dq));
    ("sec-ch-ua-mobile", "?1");
    ("sec-ch-ua-platform", (dq +:+ "Android" +:+ dq));
    ("sec-ch-ua-platform-version", (dq +:+ "14.0.0" +:+ dq));
    ("sec-ch-ua-full-version", (dq +:+ "130.0.6723.86" +:+ dq));
    ("sec-ch-ua-full-version-list", (dq +:+ "Chromium" +:+ dq +:+ ";v=" +:+ dq +:+ "130.0.6723.86" +:+ dq +:+ ", " +:+ dq +:+ "Google Chrome" +:+ dq +:+ ";v=" +:+ dq +:+ "130.0.6723.86" +:+ dq +:+ ", " +:+ dq +:+ "Not?A_Brand" +:+ dq +:+ ";v=" +:+ dq +:+ "99.0.0.0" +:+ dq));
    ("sec-ch-ua-model", (dq +:+ "23116PN5BC" +:+ dq));
    ("sec-ch-ua-arch", (dq +:+ dq));
    ("sec-ch-ua-bitness", (dq +:+ dq))
  ];
  ja3Fingerprint := "771,4865-4866-4867-49195-49199-49196-49200-52393-52392-49171-49172-156-157-47-53,0-23-65281-10-11-35-16-5-13-18-51-45-43-27-17513,29-23-24,0";
  http2Fingerprint := "1:65536;2:0;4:6291456;6:262144|15663105|0|m,a,s,p";
  sunoHeaders := [
    ("x-suno-client", "Android prerelease-4nt180t 1.0.42");
    ("X-Requested-With", "com.suno.android");
    ("Affiliate-Id", "undefined")
  ] |}.

Definition IPHONE_15_SAFARI_17 : FingerprintProfile := {|
  id := "iphone15-safari17";
  name := "iPhone 15 Pro - Safari 17";
  platform := ios;
  userAgent := "Mozilla/5.0 (iPhone; CPU iPhone OS 17_2 like Mac OS X) AppleWebKit/605.1.15 (KHTML, like Gecko) Version/17.2 Mobile/15E148 Safari/604.1";
  clientHints := [
    ("sec-ch-ua", (dq +:+ "Not A(Brand" +:+ dq +:+ ";v=" +:+ dq +:+ "99" +:+ dq +:+ ", " +:+ dq +:+ "Safari" +:+ dq +:+ ";v=" +:+ dq +:+ "17" +:+ dq));
    ("sec-ch-ua-mobile", "?1");
    ("sec-ch-ua-platform", (dq +:+ "iOS" +:+ dq));
    ("sec-ch-ua-platform-version", (dq +:+ "17.2.0" +:+ dq));
    ("sec-ch-ua-full-version", (dq +:+ "17.2" +:+ dq));
    ("sec-ch-ua-model", (dq +:+ "iPhone15,3" +:+ dq));
    ("sec-ch-ua-arch", (dq +:+ dq));
    ("sec-ch-ua-bitness", (dq +:+ dq))
  ];
  ja3Fingerprint := "771,4865-4866-4867-49196-49195-52393-49200-49199-52392-49162-49161-49172-49171-157-156-53-47-49160-49170-10,65281-0-23-13-5-18-16-11-51-45-43-10-21,29-23-24-25,0";
  http2Fingerprint := "1:65536;3:100;4:2097152|10420225|0|m,s,a,p";
  sunoHeaders := [
    ("x-suno-client", "iOS 1.0.42");
    ("X-Requested-With", "com.suno.ios");
    ("Affiliate-Id", "undefined")
  ] |}.

Definition IPHONE_14_SAFARI_17 : FingerprintProfile := {|
  id := "iphone14-safari17";
  name := "iPhone 14 Pro Max - Safari 17";
  platform := ios;
  userAgent := "Mozilla/5.0 (iPhone; CPU iPhone OS 17_1_2 like Mac OS X) AppleWebKit/605.1.15 (KHTML, like Gecko) Version/17.1.2 Mobile/15E148 Safari/604.1";
  clientHints := [
    ("sec-ch-ua", (dq +:+ "Not A(Brand" +:+ dq +:+ ";v=" +:+ dq +:+ "99" +:+ dq +:+ ", " +:+ dq +:+ "Safari" +:+ dq +:+ ";v=" +:+ dq +:+ "17" +:+ dq));
    ("sec-ch-ua-mobile", "?1");
    ("sec-ch-ua-platform", (dq +:+ "iOS" +:+ dq));
    ("sec-ch-ua-platform-version", (dq +:+ "17.1.2" +:+ dq));
    ("sec-ch-ua-full-version", (dq +:+ "17.1.2" +:+ dq));
    ("sec-ch-ua-model", (dq +:+ "iPhone14,8" +:+ dq));
    ("sec-ch-ua-arch", (dq +:+ dq));
    ("sec-ch-ua-bitness", (dq +:+ dq))
  ];
  ja3Fingerprint := "771,4865-4866-4867-49196-49195-52393-49200-49199-52392-49162-49161-49172-49171-157-156-53-47-49160-49170-10,65281-0-23-13-5-18-16-11-51-45-43-10-21,29-23-24-25,0";
  http2Fingerprint := "1:65536;3:100;4:2097152|10420225|0|m,s,a,p";
  sunoHeaders := [
    ("x-suno-client", "iOS 1.0.42");
    ("X-Requested-With", "com.suno.ios");
    ("Affiliate-Id", "undefined")
  ] |}.

(** All available fingerprint profiles. *)
Definition FINGERPRINT_PROFILES : list FingerprintProfile := [
  PIXEL_8_CHROME_130;
  GALAXY_S24_CHROME_130;
  ONEPLUS_12_CHROME_130;
  XIAOMI_14_CHROME_130;
  IPHONE_15_SAFARI_17;
  IPHONE_14_SAFARI_17
].

(** Default profile (Pixel 8 Chrome 130). *)
Definition DEFAULT_PROFILE : FingerprintProfile := PIXEL_8_CHROME_130.

Inductive RotationStrategy : Type :=
  | round_robin
  | random
  | least_used
  | platform_sticky.

#[global] Instance RotationStrategy_eq_dec : EqDecision RotationStrategy.
Proof. solve_decision. Defined.

Record FingerprintManager : Type := {
  profiles : list FingerprintProfile;
  state : ProfileRotationState;
  strategy : RotationStrategy;
  preferredPlatform : option Platform
}.

(** Field updates of [this.state]. *)
Definition set_state (st : ProfileRotationState) (m : FingerprintManager)
  : FingerprintManager :=
  {| profiles := profiles m; state := st; strategy := strategy m;
     preferredPlatform := preferredPlatform m |}.

Definition set_currentIndex (i : nat) (st : ProfileRotationState)
  : ProfileRotationState :=
  {| currentIndex := i; usageCount := usageCount st;
     lastRotation := lastRotation st; blockedProfiles := blockedProfiles st |}.

Definition set_usageCount (u : gmap string nat) (st : ProfileRotationState)
  : ProfileRotationState :=
  {| currentIndex := currentIndex st; usageCount := u;
     lastRotation := lastRotation st; blockedProfiles := blockedProfiles st |}.

Definition set_lastRotation (t : Z) (st : ProfileRotationState)
  : ProfileRotationState :=
  {| currentIndex := currentIndex st; usageCount := usageCount st;
     lastRotation := t; blockedProfiles := blockedProfiles st |}.

Definition set_blockedProfiles (b : gset string) (st : ProfileRotationState)
  : ProfileRotationState :=
  {| currentIndex := currentIndex st; usageCount := usageCount st;
     lastRotation := lastRotation st; blockedProfiles := b |}.

(** [new FingerprintManager(options)]: every option may be absent; the
    usage counts are initialised to 0 for each profile of the catalog. *)
Definition new_FingerprintManager
    (opt_strategy : option RotationStrategy)
    (opt_preferredPlatform : option Platform)
    (customProfiles : option (list FingerprintProfile))
    (now : Z) : FingerprintManager :=
  let ps := default FINGERPRINT_PROFILES customProfiles in
  {| profiles := ps;
     state := {| currentIndex := 0;
                 usageCount := foldl (fun u p => <[id p := 0]> u) ∅ ps;
                 lastRotation := now;
                 blockedProfiles := ∅ |};
     strategy := default round_robin opt_strategy;
     preferredPlatform := opt_preferredPlatform |}.

(** [getAvailableProfiles]: the catalog without the blocked profiles,
    narrowed to the preferred platform when that leaves a candidate. *)
Definition getAvailableProfiles (m : FingerprintManager)
  : list FingerprintProfile :=
  let available :=
    filter (fun p => id p ∉ blockedProfiles (state m)) (profiles m) in
  match preferredPlatform m with
  | Some pp =>
      let platformFiltered := filter (fun p => platform p = pp) available in
      if decide (0 < length platformFiltered) then platformFiltered
      else available
  | None => available
  end.

(** [this.state.usageCount.get(id) ?? 0]. *)
Definition usageOf (m : FingerprintManager) (p : FingerprintProfile) : nat :=
  default 0 (usageCount (state m) !! id p).

(** [getCurrentProfile]: [None] stands for the [undefined] an array read
    out of range would give. *)
Definition getCurrentProfile (m : FingerprintManager)
  : option FingerprintProfile * FingerprintManager :=
  let availableProfiles := getAvailableProfiles m in
  if decide (length availableProfiles = 0) then
    (Some DEFAULT_PROFILE, set_state (set_blockedProfiles ∅ (state m)) m)
  else
    let index := currentIndex (state m) `mod` length availableProfiles in
    (availableProfiles !! index, m).

(** The loop of [getLeastUsedProfile], with [minUsage = Infinity] as
    [None]. *)
Definition leastUsedStep (m : FingerprintManager)
    (acc : option nat * option FingerprintProfile) (p : FingerprintProfile)
  : option nat * option FingerprintProfile :=
  let usage := usageOf m p in
  match acc.1 with
  | None => (Some usage, Some p)
  | Some minUsage =>
      if decide (usage < minUsage) then (Some usage, Some p) else acc
  end.

Definition getLeastUsedProfile (m : FingerprintManager)
    (ps : list FingerprintProfile) : option FingerprintProfile :=
  (foldl (leastUsedStep m) (None, ps !! 0) ps).2.

Definition incrementIndex (m : FingerprintManager) : FingerprintManager :=
  set_state (set_currentIndex (S (currentIndex (state m))) (state m)) m.

Definition getPlatformStickyProfile (m : FingerprintManager)
    (ps : list FingerprintProfile)
  : option FingerprintProfile * FingerprintManager :=
  let currentProfile := ps !! (currentIndex (state m) `mod` length ps) in
  let currentPlatform := default android (platform <$> currentProfile) in
  let samePlatform := filter (fun p => platform p = currentPlatform) ps in
  if decide (0 < length samePlatform) then
    let m' := incrementIndex m in
    (samePlatform !! (currentIndex (state m') `mod` length samePlatform), m')
  else
    let m' := incrementIndex m in
    (ps !! (currentIndex (state m') `mod` length ps), m').

(** [getNextProfile].  The method calls itself after clearing the blocked
    set, so it is run with a recursion budget [fuel].  [now] is what
    [Date.now()] returns and [rnd] the random draw: the index picked by
    [Math.floor(Math.random() * n)] is [rnd mod n], any index below [n]. *)
Fixpoint getNextProfile (fuel : nat) (now : Z) (rnd : nat)
    (m : FingerprintManager)
  : Outcome FingerprintManager FingerprintProfile :=
  match fuel with
  | 0 => OutOfFuel
  | S fuel' =>
      let availableProfiles := getAvailableProfiles m in
      if decide (length availableProfiles = 0) then
        getNextProfile fuel' now rnd
          (set_state (set_blockedProfiles ∅ (state m)) m)
      else
        let '(profile, m1) :=
          match strategy m with
          | random =>
              (availableProfiles !! (rnd `mod` length availableProfiles), m)
          | least_used => (getLeastUsedProfile m availableProfiles, m)
          | platform_sticky => getPlatformStickyProfile m availableProfiles
          | round_robin =>
              let m' := incrementIndex m in
              (availableProfiles !!
                 (currentIndex (state m') `mod` length availableProfiles), m')
          end in
        match profile with
        | None => Threw (TypeError "Cannot read properties of undefined") m1
        | Some p =>
            let currentCount := usageOf m1 p in
            let st1 :=
              set_usageCount (<[id p := currentCount + 1]> (usageCount (state m1)))
                (state m1) in
            Returned p (set_state (set_lastRotation now st1) m1)
        end
  end.

Definition blockProfile (profileId : string) (m : FingerprintManager)
  : FingerprintManager :=
  set_state
    (set_blockedProfiles ({[profileId]} ∪ blockedProfiles (state m)) (state m)) m.

Definition unblockProfile (profileId : string) (m : FingerprintManager)
  : FingerprintManager :=
  set_state
    (set_blockedProfiles (blockedProfiles (state m) ∖ {[profileId]}) (state m)) m.

Definition resetBlockedProfiles (m : FingerprintManager) : FingerprintManager :=
  set_state (set_blockedProfiles ∅ (state m)) m.

Definition getProfileById (i : string) (m : FingerprintManager)
  : option FingerprintProfile :=
  list_find (fun p => id p = i) (profiles m) ≫= fun r => Some r.2.

Definition setStrategy (s : RotationStrategy) (m : FingerprintManager)
  : FingerprintManager :=
  {| profiles := profiles m; state := state m; strategy := s;
     preferredPlatform := preferredPlatform m |}.

(** The ids of the catalog. *)
Definition catalogIds (m : FingerprintManager) : gset string :=
  list_to_set (id <$> profiles m).

(** *** Sequences of calls on one manager *)

(** Consecutive [getNextProfile()] calls, one per element of [inputs] (the
    clock value and the random draw of that call), with the list of the
    profiles they returned. *)
Fixpoint getNextProfiles (fuel : nat) (inputs : list (Z * nat))
    (m : FingerprintManager)
  : Outcome FingerprintManager (list FingerprintProfile) :=
  match inputs with
  | [] => Returned [] m
  | (now, rnd) :: rest =>
      match getNextProfile fuel now rnd m with
      | Returned p m' =>
          match getNextProfiles fuel rest m' with
          | Returned ps m'' => Returned (p :: ps) m''
          | Threw e m'' => Threw e m''
          | OutOfFuel => OutOfFuel
          end
      | Threw e m' => Threw e m'
      | OutOfFuel => OutOfFuel
      end
  end.

(** The public methods that touch the rotation state, as data. *)
Inductive PoolCall : Type :=
  | CallCurrent
  | CallNext (now : Z) (rnd : nat)
  | CallBlock (profileId : string)
  | CallUnblock (profileId : string)
  | CallResetBlocked
  | CallSetStrategy (s : RotationStrategy).

(** The manager after one call; [None] when the call does not return. *)
Definition afterCall (fuel : nat) (call : PoolCall) (m : FingerprintManager)
  : option FingerprintManager :=
  match call with
  | CallCurrent => Some (getCurrentProfile m).2
  | CallNext now rnd =>
      match getNextProfile fuel now rnd m with
      | Returned _ m' => Some m'
      | Threw _ m' => Some m'
      | OutOfFuel => None
      end
  | CallBlock i => Some (blockProfile i m)
  | CallUnblock i => Some (unblockProfile i m)
  | CallResetBlocked => Some (resetBlockedProfiles m)
  | CallSetStrategy s => Some (setStrategy s m)
  end.

Fixpoint afterCalls (fuel : nat) (calls : list PoolCall)
    (m : FingerprintManager) : option FingerprintManager :=
  match calls with
  | [] => Some m
  | call :: rest =>
      match afterCall fuel call m with
      | Some m' => afterCalls fuel rest m'
      | None => None
      end
  end.


(** *** Predicates of the properties *)

(** What a call of [getNextProfile] that finds a profile available leaves
    untouched. *)
Definition samePool (m m' : FingerprintManager) : Prop :=
  profiles m' = profiles m ∧
  blockedProfiles (state m') = blockedProfiles (state m) ∧
  preferredPlatform m' = preferredPlatform m ∧
  strategy m' = strategy m.

(** The accumulator of the least-used scan after a non-empty prefix [l]:
    it holds the first profile of minimal usage in [l]. *)
Definition scanned (m : FingerprintManager) (l : list FingerprintProfile)
    (acc : option nat * option FingerprintProfile) : Prop :=
  ∃ i p, acc = (Some (usageOf m p), Some p) ∧ l !! i = Some p ∧
    (∀ q, q ∈ l → usageOf m p ≤ usageOf m q) ∧
    (∀ j q, j < i → l !! j = Some q → usageOf m p < usageOf m q).

(** *** Statistics *)

(** The value of [getStats()]. *)
Record Stats : Type := {
  totalProfiles : nat;
  stats_blockedProfiles : nat;
  usageStats : gmap string nat;
  stats_lastRotation : Z
}.

(** The loop of [getStats] fills a plain object, [usageStats[id] = count]
    for each entry of the usage map.  On a plain object the assignment to
    the key [__proto__] stores nothing when the value is a number, so that
    key is never among the own keys of [usageStats]; every other key is
    stored. *)
Definition plainObjectOfCounts (counts : gmap string nat) : gmap string nat :=
  delete "__proto__" counts.

Definition getStats (m : FingerprintManager) : Stats :=
  {| totalProfiles := length (profiles m);
     stats_blockedProfiles := size (blockedProfiles (state m));
     usageStats := plainObjectOfCounts (usageCount (state m));
     stats_lastRotation := lastRotation (state m) |}.

(** The sum of the usage counts. *)
Definition totalUsage (u : gmap string nat) : nat :=
  map_fold (fun _ count total => count + total) 0 u.

(** The [getNextProfile] calls of a sequence of calls. *)
Definition isNext (call : PoolCall) : bool :=
  match call with CallNext _ _ => true | _ => false end.

End Fingerprints.

(** ** JavaScript string operations used by the client *)

Module JsString.

(** [c.toLowerCase()] on one character of a header value: the letters
    A-Z are mapped to a-z, every other character is kept.  (No character
    outside A-Z lower-cases to a letter of the word looked for below.) *)
Definition lowerAscii (c : Ascii.ascii) : Ascii.ascii :=
  let n := Ascii.nat_of_ascii c in
  if decide (65 ≤ n ∧ n ≤ 90)%nat then Ascii.ascii_of_nat (n + 32) else c.

Fixpoint toLowerCase (s : string) : string :=
  match s with
  | EmptyString => EmptyString
  | String c s' => String (lowerAscii c) (toLowerCase s')
  end.

(** [s.startsWith(p)]. *)
Fixpoint startsWith (p s : string) : bool :=
  match p, s with
  | EmptyString, _ => true
  | String _ _, EmptyString => false
  | String a p', String b s' => bool_decide (a = b) && startsWith p' s'
  end.

(** [s.includes(sub)]: [sub] occurs at some position of [s]. *)
Fixpoint includes (s sub : string) : bool :=
  startsWith sub s ||
  match s with
  | EmptyString => false
  | String _ s' => includes s' sub
  end.


(** Truthiness of a string value: only the empty string is falsy. *)
Definition truthy (s : string) : bool :=
  match s with EmptyString => false | String _ _ => true end.

(** *** Splitting and joining *)

(** The line feed character. *)
Definition nl : Ascii.ascii := Ascii.ascii_of_nat 10.

(** [s.split(sep)] for a separator of one character.  The result is never
    empty: a string without the separator is its own single piece. *)
Fixpoint split (sep : Ascii.ascii) (s : string) : list string :=
  match s with
  | EmptyString => [EmptyString]
  | String c s' =>
      if decide (c = sep) then EmptyString :: split sep s'
      else
        match split sep s' with
        | piece :: rest => String c piece :: rest
        | [] => [String c EmptyString]
        end
  end.

(** [pieces.join(sep)]. *)
Fixpoint join (sep : string) (pieces : list string) : string :=
  match pieces with
  | [] => EmptyString
  | [piece] => piece
  | piece :: rest => piece +:+ sep +:+ join sep rest
  end.

(** [s.split(sep)] for a separator of any positive length: the separator
    is looked for from the left, and a match consumes its characters.
    [skip] counts the characters of a matched separator still to drop. *)
Fixpoint splitFrom (sep : string) (skip : nat) (s : string) : list string :=
  match s with
  | EmptyString => [EmptyString]
  | String c s' =>
      match skip with
      | S skip' => splitFrom sep skip' s'
      | 0 =>
          if startsWith sep s
          then EmptyString :: splitFrom sep (String.length sep - 1) s'
          else
            match splitFrom sep 0 s' with
            | piece :: rest => String c piece :: rest
            | [] => [String c EmptyString]
            end
      end
  end.

Definition splitOn (sep : string) (s : string) : list string :=
  splitFrom sep 0 s.

(** The character [c] occurs in [s]. *)
Fixpoint hasChar (c : Ascii.ascii) (s : string) : bool :=
  match s with
  | EmptyString => false
  | String a s' => bool_decide (a = c) || hasChar c s'
  end.

End JsString.

(** ** The HTTP client: class HttpClient *)

Module Http.
Import Fingerprints.

(** What [JSON.parse] and [JSON.stringify] do is not part of the
    repository: they are taken as an interface.  [Json] is the type of the
    parsed values that are not strings (objects, arrays, numbers, booleans,
    null). *)
Inductive Body (Json : Type) : Type :=
  | BodyString (s : string)
  | BodyJson (j : Json).
Arguments BodyString {Json} s.
Arguments BodyJson {Json} j.

Class JsonRuntime : Type := {
  Json : Type;
  (** [JSON.parse(s)], [None] when it throws a SyntaxError *)
  JSON_parse : string → option (Body Json);
  (** [JSON.stringify(j)] *)
  JSON_stringify : Json → string
}.

Section WithJson.
Context `{JR : JsonRuntime}.

(** [HttpResponse] of src/lib/suno/types.ts (the [cookies] field, a
    function of the headers alone, is left out). *)
Record HttpResponse : Type := {
  status : Z;
  body : Body Json;
  headers : gmap string string
}.

(** What the TLS engine ([this.client(url, options, method)]) does with
    one call: it resolves with a raw response or rejects. *)
Inductive EngineResult : Type :=
  | EngineReplied (raw : HttpResponse)
  | EngineThrew (e : JsError).

(** The world outside the client: the reply of the engine to its n-th
    call (which may depend on the profile the request was sent with), and
    the values [Date.now()] and [Math.random()] give at the n-th call of
    the pool's [getNextProfile]. *)
Record Env : Type := {
  engine : nat → FingerprintProfile → EngineResult;
  dateNow : nat → Z;
  mathRandom : nat → nat
}.

(** The effects of the client that are visible outside it: the lines it
    logs and the delays it sleeps. *)
Inductive Event : Type :=
  | LogRequest (profileId : string)             (* logger.debug in request *)
  | LogRequestFailed (e : JsError)              (* logger.error in request *)
  | LogRotated (profileName : string)           (* logger.info in rotateFingerprint *)
  | LogChallenge (attempt retries : Z)          (* logger.warn in requestWithRetry *)
  | LogAttemptFailed (attempt retries : Z) (e : JsError) (* logger.error *)
  | Slept (ms : Z).                             (* this.sleep(ms) *)

#[global] Instance Event_eq_dec : EqDecision Event.
Proof. solve_decision. Defined.

Record HttpClientConfig : Type := {
  rotateFingerprints : bool;
  defaultTimeout : Z;
  maxRetries : Z
}.

(** The client object, with the part of the world it has consumed:
    [engineCalls] and [poolCalls] count the calls made to the engine and to
    [getNextProfile], [trace] lists the effects so far, oldest first. *)
Record HttpClient : Type := {
  client : bool;   (* this.client is not null *)
  fingerprintManager : FingerprintManager;
  currentProfile : FingerprintProfile;
  config : HttpClientConfig;
  engineCalls : nat;
  poolCalls : nat;
  trace : list Event
}.

Definition set_manager (m : FingerprintManager) (c : HttpClient) : HttpClient :=
  {| client := client c; fingerprintManager := m;
     currentProfile := currentProfile c; config := config c;
     engineCalls := engineCalls c; poolCalls := poolCalls c;
     trace := trace c |}.

Definition set_currentProfile (p : FingerprintProfile) (c : HttpClient)
  : HttpClient :=
  {| client := client c; fingerprintManager := fingerprintManager c;
     currentProfile := p; config := config c;
     engineCalls := engineCalls c; poolCalls := poolCalls c;
     trace := trace c |}.

Definition tick_engine (c : HttpClient) : HttpClient :=
  {| client := client c; fingerprintManager := fingerprintManager c;
     currentProfile := currentProfile c; config := config c;
     engineCalls := S (engineCalls c); poolCalls := poolCalls c;
     trace := trace c |}.

Definition tick_pool (c : HttpClient) : HttpClient :=
  {| client := client c; fingerprintManager := fingerprintManager c;
     currentProfile := currentProfile c; config := config c;
     engineCalls := engineCalls c; poolCalls := S (poolCalls c);
     trace := trace c |}.

Definition emit (e : Event) (c : HttpClient) : HttpClient :=
  {| client := client c; fingerprintManager := fingerprintManager c;
     currentProfile := currentProfile c; config := config c;
     engineCalls := engineCalls c; poolCalls := poolCalls c;
     trace := trace c ++ [e] |}.

(** *** A state and exception monad for the methods of the client *)

Definition M (A : Type) : Type := HttpClient → Outcome HttpClient A.

Definition ret {A} (a : A) : M A := fun c => Returned a c.

Definition throw {A} (e : JsError) : M A := fun c => Threw e c.

Definition bind {A B} (m : M A) (k : A → M B) : M B :=
  fun c =>
    match m c with
    | Returned a c' => k a c'
    | Threw e c' => Threw e c'
    | OutOfFuel => OutOfFuel
    end.

(** [try { m } catch (error) { h error }] *)
Definition try_catch {A} (m : M A) (h : JsError → M A) : M A :=
  fun c =>
    match m c with
    | Returned a c' => Returned a c'
    | Threw e c' => h e c'
    | OutOfFuel => OutOfFuel
    end.

Definition modify (f : HttpClient → HttpClient) : M unit :=
  fun c => Returned tt (f c).

Definition gets {A} (f : HttpClient → A) : M A :=
  fun c => Returned (f c) c.

Notation "x <- m ;; k" := (bind m (fun x => k))
  (at level 20, m at level 99, k at level 200, only parsing).
Notation "m ;> k" := (bind m (fun _ => k))
  (at level 100, k at level 200, right associativity, only parsing).

(** The recursion budget given to [getNextProfile]: the method calls
    itself at most once when it returns at all (see
    [PoolProps.getNextProfile_fuel_enough] and
    [PoolProps.getNextProfile_empty_catalog]). *)
Definition poolFuel : nat := 2.

(** [this.fingerprintManager.getNextProfile()], run on the manager of the
    client. *)
Definition pool_getNextProfile (env : Env) : M FingerprintProfile :=
  fun c =>
    match getNextProfile poolFuel (dateNow env (poolCalls c))
            (mathRandom env (poolCalls c)) (fingerprintManager c) with
    | Returned p m' => Returned p (tick_pool (set_manager m' c))
    | Threw e m' => Threw e (tick_pool (set_manager m' c))
    | OutOfFuel => OutOfFuel
    end.

(** [rotateFingerprint]: force rotate to next fingerprint. *)
Definition rotateFingerprint (env : Env) : M FingerprintProfile :=
  p <- pool_getNextProfile env ;;
  modify (set_currentProfile p) ;>
  modify (emit (LogRotated (name p))) ;>
  ret p.

(** [blockCurrentProfile]: mark current profile as blocked. *)
Definition blockCurrentProfile (env : Env) : M unit :=
  modify (fun c =>
    set_manager (blockProfile (id (currentProfile c)) (fingerprintManager c)) c) ;>
  rotateFingerprint env ;>
  ret tt.

(** The body parse of [request]: a string body is replaced by its JSON
    value when it parses, and passed through when it does not. *)
Definition parseBody (b : Body Json) : Body Json :=
  match b with
  | BodyString s => default (BodyString s) (JSON_parse s)
  | BodyJson j => BodyJson j
  end.

(** The response [request] builds from the raw one of the engine. *)
Definition parseResponse (raw : HttpResponse) : HttpResponse :=
  {| status := status raw; body := parseBody (body raw);
     headers := headers raw |}.

(** [request]: one call to the engine with the current profile. *)
Definition request (env : Env) : M HttpResponse :=
  initialised <- gets client ;;
  if negb initialised
  then throw (Error "HTTP Client not initialized. Call getInstance() first.")
  else
    rotate <- gets (fun c => rotateFingerprints (config c)) ;;
    (if rotate
     then p <- pool_getNextProfile env ;; modify (set_currentProfile p)
     else ret tt) ;>
    profile <- gets currentProfile ;;
    modify (emit (LogRequest (id profile))) ;>
    n <- gets engineCalls ;;
    modify tick_engine ;>
    match engine env n profile with
    | EngineReplied raw => ret (parseResponse raw)
    | EngineThrew e =>
        modify (emit (LogRequestFailed e)) ;>
        throw e
    end.

(** [isCloudflareChallenge]. *)
Definition isCloudflareChallenge (response : HttpResponse) : bool :=
  if bool_decide (status response = 403%Z) ||
     bool_decide (status response = 503%Z)
  then
    let cfRay := headers response !! "cf-ray" in
    let server := headers response !! "server" in
    if default false (JsString.truthy <$> cfRay) ||
       default false
         ((fun s => JsString.includes (JsString.toLowerCase s) "cloudflare")
            <$> server)
    then true
    else
      let bodyStr :=
        match body response with
        | BodyString s => s
        | BodyJson j => JSON_stringify j
        end in
      if JsString.includes bodyStr "challenge-platform" ||
         JsString.includes bodyStr "cf-browser-verification" ||
         JsString.includes bodyStr "Just a moment"
      then true
      else false
  else false.







Definition sleep (ms : Z) : M unit := modify (emit (Slept ms)).

Definition challengeError : JsError :=
  Error "Cloudflare challenge - browser fallback required".

(** The [try] block of one iteration of the loop of [requestWithRetry]:
    [Some response] is [return response], [None] is [continue]. *)
Definition attemptBody (env : Env) (attempt retries : Z)
  : M (option HttpResponse) :=
  response <- request env ;;
  if isCloudflareChallenge response then
    modify (emit (LogChallenge attempt retries)) ;>
    blockCurrentProfile env ;>
    if decide (attempt < retries)%Z then
      sleep (2 ^ attempt * 1000)%Z ;>
      ret None
    else throw challengeError
  else ret (Some response).

(** The [catch] block: it returns the new [lastError]. *)
Definition attemptCatch (env : Env) (attempt retries : Z) (error : JsError)
  : M JsError :=
  modify (emit (LogAttemptFailed attempt retries error)) ;>
  (if decide (attempt < retries)%Z then
     rotateFingerprint env ;>
     sleep (2 ^ attempt * 1000)%Z
   else ret tt) ;>
  ret error.

Definition retriesExhausted : JsError :=
  Error "Request failed after max retries".

(** The loop [for (let attempt = 1; attempt <= retries; attempt++)] and the
    [throw] after it.  [n] bounds the number of iterations left; it is
    [retries] at the start, which the loop never exceeds. *)
Fixpoint retryLoop (env : Env) (n : nat) (attempt retries : Z)
    (lastError : option JsError) : M HttpResponse :=
  if decide (attempt ≤ retries)%Z then
    match n with
    | 0 => fun _ => OutOfFuel
    | S n' =>
        fun c =>
          match attemptBody env attempt retries c with
          | Returned (Some response) c' => Returned response c'
          | Returned None c' =>
              retryLoop env n' (attempt + 1)%Z retries lastError c'
          | Threw error c' =>
              (lastError' <- attemptCatch env attempt retries error ;;
               retryLoop env n' (attempt + 1)%Z retries (Some lastError')) c'
          | OutOfFuel => OutOfFuel
          end
    end
  else throw (default retriesExhausted lastError).

(** [requestWithRetry(url, options, maxRetries?)]. *)
Definition requestWithRetry (env : Env) (maxRetries_arg : option Z)
  : M HttpResponse :=
  fun c =>
    let retries := default (maxRetries (config c)) maxRetries_arg in
    retryLoop env (Z.to_nat retries) 1%Z retries None c.

(** [new HttpClient(config)] as far as the profile goes: the manager is
    the process-wide one of [getFingerprintManager] ([defaultManager], made
    on first use from the client's strategy and platform), and the current
    profile is its [getCurrentProfile()].  [None] when that is
    [undefined]. *)
Definition new_HttpClient (cfg : HttpClientConfig)
    (rotationStrategy : option RotationStrategy)
    (preferredPlatform : option Platform)
    (defaultManager : option FingerprintManager) (now : Z)
  : option HttpClient :=
  let manager :=
    default
      (new_FingerprintManager
         (Some (default round_robin rotationStrategy)) preferredPlatform
         None now)
      defaultManager in
  let '(profile, manager') := getCurrentProfile manager in
  match profile with
  | Some p =>
      Some {| client := false; fingerprintManager := manager';
              currentProfile := p; config := cfg;
              engineCalls := 0; poolCalls := 0; trace := [] |}
  | None => None
  end.

(** [getInstance]: the client once [initCycleTLS()] has resolved. *)
Definition initialise (c : HttpClient) : HttpClient :=
  {| client := true; fingerprintManager := fingerprintManager c;
     currentProfile := currentProfile c; config := config c;
     engineCalls := engineCalls c; poolCalls := poolCalls c;
     trace := trace c |}.

(** *** Observations on the trace *)

Definition isRotation (e : Event) : bool :=
  match e with LogRotated _ => true | _ => false end.

(** The number of times [rotateFingerprint] ran, read off the log. *)
Definition rotations (t : list Event) : nat :=
  length (filter (fun e => isRotation e = true) t).

(** The delays slept, read off the trace, oldest first. *)
Definition sleeps (t : list Event) : list Z :=
  omap (fun e => match e with Slept ms => Some ms | _ => None end) t.

(** The delays [Math.pow(2, attempt) * 1000] of [j] consecutive attempts,
    the first of them attempt [a]. *)
Definition backoff (a : Z) (j : nat) : list Z :=
  (fun attempt => (2 ^ attempt * 1000)%Z) <$> seqZ a (Z.of_nat j).

Definition notInitialised : JsError :=
  Error "HTTP Client not initialized. Call getInstance() first.".

(** *** Predicates of the properties *)

(** What the methods of the client never change: whether it is
    initialised, its configuration and the catalog of its manager. *)
Definition stable (c c' : HttpClient) : Prop :=
  client c' = client c ∧ config c' = config c ∧
  profiles (fingerprintManager c') = profiles (fingerprintManager c).

(** An outcome that is a return or a throw, from [c] to a client that is
    stable with respect to it. *)
Definition settled {A} (c : HttpClient) (o : Outcome HttpClient A) : Prop :=
  match o with
  | Returned _ c' => stable c c'
  | Threw _ c' => stable c c'
  | OutOfFuel => False
  end.

(** How far one request advances the pool by itself: once when rotation on
    every request is enabled. *)
Definition perRequest (c : HttpClient) : nat :=
  if rotateFingerprints (config c) then 1 else 0.

End WithJson.

(** The smallest JSON runtime, to run the client on examples: the only
    value that is not a string is [null]. *)
Definition nullJson : JsonRuntime :=
  {| Json := unit;
     JSON_parse := fun s =>
       if decide (s = "null") then Some (BodyJson tt) else None;
     JSON_stringify := fun _ => "null" |}.

(** A client and engines to run examples on: the client of the default
    configuration once initialised, an engine that fails its first [K]
    calls and then answers 200, and an engine that always answers with a
    challenge page. *)
Definition sampleConfig : HttpClientConfig :=
  {| rotateFingerprints := false; defaultTimeout := 30; maxRetries := 3 |}.

Definition sampleClient : HttpClient :=
  {| client := true;
     fingerprintManager :=
       Fingerprints.new_FingerprintManager
         (Some Fingerprints.round_robin) None None 0;
     currentProfile := Fingerprints.DEFAULT_PROFILE;
     config := sampleConfig;
     engineCalls := 0; poolCalls := 0; trace := [] |}.

Definition okResponse : HttpResponse (JR := nullJson) :=
  {| status := 200; body := BodyString "ok"; headers := ∅ |}.

Definition challengeResponse : HttpResponse (JR := nullJson) :=
  {| status := 503; body := BodyString "<title>Just a moment...</title>";
     headers := {[ "cf-ray" := "8f2a1c0d4e5b6a7f-GRU" ]} |}.

Definition socketError (i : nat) : JsError :=
  Error (if decide (i = 0) then "socket hang up" else "ETIMEDOUT").

Definition flakyEngine (K : nat) : Env (JR := nullJson) :=
  {| engine := fun i _ =>
       if decide (i < K) then EngineThrew (socketError i)
       else EngineReplied okResponse;
     dateNow := fun n => Z.of_nat n;
     mathRandom := fun n => n |}.

Definition challengingEngine : Env (JR := nullJson) :=
  {| engine := fun _ _ => EngineReplied challengeResponse;
     dateNow := fun n => Z.of_nat n;
     mathRandom := fun n => n |}.

End Http.

(** ** The session service: src/lib/suno/AuthService.ts *)

Module Auth.

(** [TokenInfo] and [SessionState] of src/lib/suno/types.ts. *)
Record TokenInfo : Type := {
  jwt : string;
  expiresAt : Z
}.

Record SessionState : Type := {
  sid : option string;
  currentToken : option string;
  tokenInfo : option TokenInfo;
  deviceId : string;
  cookies : gmap string string
}.

(** What [jwtDecode(token, { complete: false })] of the jsonwebtoken
    package gives: it throws, returns [null], or returns the payload, whose
    [exp] claim may be missing. *)
Inductive JwtDecoded : Type :=
  | DecodeThrew
  | DecodedNull
  | DecodedPayload (exp : option Z).

Class JwtRuntime : Type := {
  jwtDecode : string → JwtDecoded
}.

(** The reply of the identity provider to the token request sent by
    [this.httpClient.request(url, ...)]: the value of [response.body?.jwt],
    or the error the request rejected with. *)
Inductive ProviderReply : Type :=
  | Replied (jwt_field : option string)
  | RequestFailed (e : JsError).

Definition CLERK_BASE_URL : string := "https://clerk.suno.com".
Definition DEFAULT_CLERK_VERSION : string := "5.15.0".

(** The callback [onTokenRefresh] is code of the caller.  What a call of
    it does to the service is to return or to throw: [None] when it
    returns, [Some e] when it throws [e], given the tokens it was called
    with before and the token it is called with. *)
Definition Callback : Type := list string → string → option JsError.

(** The service object.  [onTokenRefresh] is the callback, [None] when
    none is registered; [notified] lists the tokens it was called with,
    and [requested] the URLs requested from the provider, oldest
    first. *)
Record AuthService : Type := {
  state : SessionState;
  clerkVersion : string;
  onTokenRefresh : option Callback;
  notified : list string;
  requested : list string
}.

Definition set_state (st : SessionState) (a : AuthService) : AuthService :=
  {| state := st; clerkVersion := clerkVersion a;
     onTokenRefresh := onTokenRefresh a; notified := notified a;
     requested := requested a |}.

Definition set_currentToken (t : string) (st : SessionState) : SessionState :=
  {| sid := sid st; currentToken := Some t; tokenInfo := tokenInfo st;
     deviceId := deviceId st; cookies := cookies st |}.

Definition set_tokenInfo (ti : TokenInfo) (st : SessionState) : SessionState :=
  {| sid := sid st; currentToken := currentToken st; tokenInfo := Some ti;
     deviceId := deviceId st; cookies := cookies st |}.

(** [isTokenValid(bufferMs = 60000)], with [now] the value of
    [Date.now()]. *)
Definition isTokenValid (bufferMs : option Z) (now : Z) (a : AuthService)
  : bool :=
  let bufferMs := default 60000%Z bufferMs in
  match tokenInfo (state a) with
  | None => false
  | Some ti => bool_decide (now < expiresAt ti - bufferMs)%Z
  end.

Section WithJwt.
Context `{JW : JwtRuntime}.

(** The [try { jwtDecode ... } catch] block shared by [refreshToken] and
    [setToken]: the expiry is recorded when [decoded?.exp] is truthy, and
    the state is left as it is otherwise. *)
Definition recordExpiry (token : string) (st : SessionState) : SessionState :=
  match jwtDecode token with
  | DecodedPayload (Some exp) =>
      if decide (exp = 0)%Z then st
      else set_tokenInfo {| jwt := token; expiresAt := exp * 1000 |} st
  | DecodedPayload None => st
  | DecodedNull => st
  | DecodeThrew => st
  end.

(** [setToken]: set token directly (e.g., from browser CAPTCHA flow). *)
Definition setToken (token : string) (a : AuthService) : AuthService :=
  set_state (recordExpiry token (set_currentToken token (state a))) a.

Definition tokenUrl (a : AuthService) (sessionId : string) : string :=
  CLERK_BASE_URL +:+ "/v1/client/sessions/" +:+ sessionId +:+
  "/tokens?_is_native=true&_clerk_js_version=" +:+ clerkVersion a.

(** [refreshToken(force = false)].  [provider] is the identity provider
    behind the HTTP client, as a function of the requested URL.  The result
    is the returned token ([None] for [undefined]).  The callback is called
    last, outside the [try] block: when it throws, the call throws with
    the new token already stored. *)
Definition refreshToken (force : bool) (now : Z)
    (provider : string → ProviderReply) (a : AuthService)
  : Outcome AuthService (option string) :=
  if negb force && isTokenValid None now a then
    Returned (currentToken (state a)) a
  else
    match sid (state a) with
    | None => Threw (Error "Session ID is not set. Cannot refresh token.") a
    | Some sessionId =>
        if negb (JsString.truthy sessionId) then
          Threw (Error "Session ID is not set. Cannot refresh token.") a
        else
          let url := tokenUrl a sessionId in
          let a1 :=
            {| state := state a; clerkVersion := clerkVersion a;
               onTokenRefresh := onTokenRefresh a; notified := notified a;
               requested := requested a ++ [url] |} in
          match provider url with
          | RequestFailed e => Threw e a1
          | Replied None => Threw (Error "Failed to refresh token") a1
          | Replied (Some newToken) =>
              if negb (JsString.truthy newToken) then
                Threw (Error "Failed to refresh token") a1
              else
                let a2 :=
                  set_state
                    (recordExpiry newToken
                       (set_currentToken newToken (state a1))) a1 in
                match onTokenRefresh a2 with
                | Some callback =>
                    let a3 :=
                      {| state := state a2; clerkVersion := clerkVersion a2;
                         onTokenRefresh := onTokenRefresh a2;
                         notified := notified a2 ++ [newToken];
                         requested := requested a2 |} in
                    match callback (notified a2) newToken with
                    | Some e => Threw e a3
                    | None => Returned (Some newToken) a3
                    end
                | None => Returned (Some newToken) a2
                end
          end
    end.

(** [keepAlive(force = false)]. *)
Definition keepAlive (force : bool) (now : Z)
    (provider : string → ProviderReply) (a : AuthService)
  : Outcome AuthService unit :=
  match refreshToken force now provider a with
  | Returned _ a' => Returned tt a'
  | Threw e a' => Threw e a'
  | OutOfFuel => OutOfFuel
  end.

(** The reply of the identity provider to the client request of
    [fetchSessionId]: the value of
    [response.body?.response?.last_active_session_id], or the error the
    request rejected with. *)
Inductive ClientReply : Type :=
  | ClientReplied (last_active_session_id : option string)
  | ClientFailed (e : JsError).

Definition clientUrl (a : AuthService) : string :=
  CLERK_BASE_URL +:+ "/v1/client?_is_native=true&_clerk_js_version=" +:+
  clerkVersion a.

Definition set_sid (i : string) (st : SessionState) : SessionState :=
  {| sid := Some i; currentToken := currentToken st;
     tokenInfo := tokenInfo st; deviceId := deviceId st;
     cookies := cookies st |}.

Definition noSessionId : JsError :=
  Error "Failed to get session ID. Please update SUNO_COOKIE".

Definition sessionIdNotSet : JsError :=
  Error "Session ID is not set. Cannot refresh token.".

(** [fetchSessionId]. *)
Definition fetchSessionId (clerk : string → ClientReply) (a : AuthService)
  : Outcome AuthService unit :=
  let url := clientUrl a in
  let a1 :=
    {| state := state a; clerkVersion := clerkVersion a;
       onTokenRefresh := onTokenRefresh a; notified := notified a;
       requested := requested a ++ [url] |} in
  match clerk url with
  | ClientFailed e => Threw e a1
  | ClientReplied None => Threw noSessionId a1
  | ClientReplied (Some i) =>
      if negb (JsString.truthy i) then Threw noSessionId a1
      else Returned tt (set_state (set_sid i (state a1)) a1)
  end.

(** [new AuthService(cookies, options)].  [parsed] is what
    [cookie.parse(cookies)] gives and [uuid] what [randomUUID()] would
    give; [callback] is [options.onTokenRefresh]. *)
Definition new_AuthService (parsed : gmap string string) (uuid : string)
    (callback : option Callback) : AuthService :=
  {| state :=
       {| sid := None; currentToken := None; tokenInfo := None;
          deviceId :=
            match parsed !! "ajs_anonymous_id" with
            | Some d => if JsString.truthy d then d else uuid
            | None => uuid
            end;
          cookies := parsed |};
     clerkVersion := DEFAULT_CLERK_VERSION;
     onTokenRefresh := callback; notified := []; requested := [] |}.

(** [init].  [httpClient] is the outcome of [await getHttpClient()]:
    [Some e] when it rejects. *)
Definition init (httpClient : option JsError) (clerk : string → ClientReply)
    (now : Z) (provider : string → ProviderReply) (a : AuthService)
  : Outcome AuthService unit :=
  match httpClient with
  | Some e => Threw e a
  | None =>
      match fetchSessionId clerk a with
      | Returned _ a1 =>
          match refreshToken false now provider a1 with
          | Returned _ a2 => Returned tt a2
          | Threw e a2 => Threw e a2
          | OutOfFuel => OutOfFuel
          end
      | Threw e a1 => Threw e a1
      | OutOfFuel => OutOfFuel
      end
  end.

(** The expiry claim of [token] decodes: [decoded?.exp] is truthy. *)
Definition expiryDecodes (token : string) : bool :=
  match jwtDecode token with
  | DecodedPayload (Some exp) => negb (bool_decide (exp = 0)%Z)
  | _ => false
  end.

End WithJwt.

(** A decoder to run the service on examples: it knows one well-formed
    token, whose payload is [{ exp: 2000 }], and gives [null] for every
    other string, as [jwtDecode] does for a string that is not a JWT. *)
Definition sampleToken : string := "eyJhbGciOiJub25lIn0.eyJleHAiOjIwMDB9.".

Definition sampleJwt : JwtRuntime :=
  {| jwtDecode := fun t =>
       if decide (t = sampleToken) then DecodedPayload (Some 2000%Z)
       else DecodedNull |}.

(** A service in the state [new AuthService(cookies)] leaves it, with the
    session id [fetchSessionId] stored, and a provider that issues the
    sample token. *)
Definition sampleService : AuthService :=
  {| state := {| sid := Some "sess_2a"; currentToken := None;
                 tokenInfo := None; deviceId := "device-1";
                 cookies := {[ "__client" := "c0" ]} |};
     clerkVersion := DEFAULT_CLERK_VERSION;
     onTokenRefresh := None; notified := []; requested := [] |}.

Definition sampleProvider (url : string) : ProviderReply :=
  Replied (Some sampleToken).

End Auth.

(** ** The instance cache of the [sunoApi] factory *)

Module Cache.

(** The part of [SunoApiConfig] the factory reads. *)
Record SunoApiConfig : Type := {
  cookie : option string;
  proxy_url : option string   (* config.proxy?.url *)
}.

(** The argument [cookieOrConfig?: string | SunoApiConfig]. *)
Inductive FactoryArg : Type :=
  | ArgNone
  | ArgCookie (c : string)
  | ArgConfig (cfg : SunoApiConfig).

(** The state of a promise returned by [new SunoApi(config).init()]. *)
Inductive PromiseState : Type :=
  | Pending
  | Fulfilled
  | Rejected (e : JsError).

#[global] Instance PromiseState_eq_dec : EqDecision PromiseState.
Proof. solve_decision. Defined.

(** The event loop around the factory.  An init promise is named by its
    index in [promises]; [cache] is the global [sunoApiCache], from cache
    key to init promise; [awaiting] lists the calls suspended at
    [await initPromise], each with its promise and its cache key. *)
Record Sys : Type := {
  cache : gmap string nat;
  promises : list PromiseState;
  awaiting : list (nat * string)
}.

Definition initial : Sys :=
  {| cache := ∅; promises := []; awaiting := [] |}.

(** Normalisation of the argument and resolution of the cookie;
    [env_cookie] is [process.env.SUNO_COOKIE]. *)
Definition normalize (arg : FactoryArg) : SunoApiConfig :=
  match arg with
  | ArgNone => {| cookie := None; proxy_url := None |}
  | ArgCookie c => {| cookie := Some c; proxy_url := None |}
  | ArgConfig cfg => cfg
  end.

Definition resolveCookie (env_cookie : option string) (config : SunoApiConfig)
  : option string :=
  match cookie config with
  | Some c =>
      if JsString.truthy c && JsString.includes c "__client" then Some c
      else env_cookie
  | None => env_cookie
  end.

Definition cacheKeyOf (resolvedCookie : string) (config : SunoApiConfig)
  : string :=
  resolvedCookie +:+ ":" +:+
  match proxy_url config with
  | Some u => if JsString.truthy u then u else "no-proxy"
  | None => "no-proxy"
  end.

(** The cache key of a call, or [None] when the call throws for want of a
    cookie. *)
Definition keyOfCall (env_cookie : option string) (arg : FactoryArg)
  : option string :=
  let config := normalize arg in
  match resolveCookie env_cookie config with
  | Some c => if JsString.truthy c then Some (cacheKeyOf c config) else None
  | None => None
  end.

(** What a call of the factory gives back when it runs up to its first
    suspension: the init promise its result is tied to, either found in the
    cache or just created. *)
Inductive CallResult : Type :=
  | Shared (p : nat)     (* return cachedPromise *)
  | Started (p : nat).   (* initPromise created, cached and awaited *)

Definition noCookieError : JsError :=
  Error "Please provide a cookie either in the .env file or in the Cookie header of your request.".

(** [sunoApi(cookieOrConfig)] from its entry to [await initPromise]. *)
Definition sunoApi (env_cookie : option string) (arg : FactoryArg) (s : Sys)
  : Outcome Sys CallResult :=
  match keyOfCall env_cookie arg with
  | None => Threw noCookieError s
  | Some cacheKey =>
      match cache s !! cacheKey with
      | Some cachedPromise => Returned (Shared cachedPromise) s
      | None =>
          let initPromise := length (promises s) in
          Returned (Started initPromise)
            {| cache := <[cacheKey := initPromise]> (cache s);
               promises := promises s ++ [Pending];
               awaiting := awaiting s ++ [(initPromise, cacheKey)] |}
      end
  end.

(** The init promise [p] settles: [None] when it is fulfilled with the
    instance, [Some e] when it is rejected.  Not enabled unless [p] is
    pending. *)
Definition settle (p : nat) (r : option JsError) (s : Sys) : option Sys :=
  match promises s !! p with
  | Some Pending =>
      Some {| cache := cache s;
              promises :=
                <[p := match r with None => Fulfilled | Some e => Rejected e end]>
                  (promises s);
              awaiting := awaiting s |}
  | _ => None
  end.

(** What the suspended call gives its caller when it resumes. *)
Inductive Resumed : Type :=
  | Instance (p : nat)
  | Propagated (e : JsError).

(** The rest of [sunoApi] after [await initPromise], for the call that
    created [p] under [cacheKey]: it returns the instance, or deletes the
    cache entry and rethrows.  Not enabled unless the call is suspended and
    [p] is settled. *)
Definition resume (p : nat) (cacheKey : string) (s : Sys)
  : option (Resumed * Sys) :=
  if decide ((p, cacheKey) ∈ awaiting s) then
    let rest := filter (fun w => w ≠ (p, cacheKey)) (awaiting s) in
    match promises s !! p with
    | Some Fulfilled =>
        Some (Instance p,
              {| cache := cache s; promises := promises s; awaiting := rest |})
    | Some (Rejected e) =>
        Some (Propagated e,
              {| cache := delete cacheKey (cache s); promises := promises s;
                 awaiting := rest |})
    | _ => None
    end
  else None.

(** The init promise a call is tied to. *)
Definition promiseOf (r : CallResult) : nat :=
  match r with Shared p => p | Started p => p end.

(** [clearSunoApiCache]. *)
Definition clearSunoApiCache (s : Sys) : Sys :=
  {| cache := ∅; promises := promises s; awaiting := awaiting s |}.

(** One turn of the event loop around the factory. *)
Inductive Turn : Type :=
  | TCall (env_cookie : option string) (arg : FactoryArg)
  | TSettle (p : nat) (r : option JsError)
  | TResume (p : nat) (cacheKey : string).

Definition turn (t : Turn) (s : Sys) : option Sys :=
  match t with
  | TCall env_cookie arg =>
      match sunoApi env_cookie arg s with
      | Returned _ s' => Some s'
      | Threw _ s' => Some s'
      | OutOfFuel => None
      end
  | TSettle p r => settle p r s
  | TResume p cacheKey => snd <$> resume p cacheKey s
  end.

Fixpoint turns (ts : list Turn) (s : Sys) : option Sys :=
  match ts with
  | [] => Some s
  | t :: ts' =>
      match turn t s with
      | Some s' => turns ts' s'
      | None => None
      end
  end.

(** *** Predicates of the properties *)

(** The invariant of the event loop: every cached promise is awaited by
    the call that created it or is fulfilled; every suspended call still
    has its promise in the cache under its key; every awaited promise
    exists, and is awaited under one key. *)
Record Inv (s : Sys) : Prop := {
  inv_cached : ∀ k p, cache s !! k = Some p →
    (p, k) ∈ awaiting s ∨ promises s !! p = Some Fulfilled;
  inv_awaiting : ∀ p k, (p, k) ∈ awaiting s → cache s !! k = Some p;
  inv_bound : ∀ p k, (p, k) ∈ awaiting s → p < length (promises s);
  inv_one_key : ∀ p k k',
    (p, k) ∈ awaiting s → (p, k') ∈ awaiting s → k = k'
}.

(** The promise [p] is rejected and the call that created it has
    resumed. *)
Definition propagated (p : nat) (s : Sys) : Prop :=
  (∃ e, promises s !! p = Some (Rejected e)) ∧ ∀ k, (p, k) ∉ awaiting s.

End Cache.

(** ** Response cookies: the helpers of class HttpClient *)

Module Cookies.
Import JsString.

(** The value of a response header as the engine hands it over: one
    string, or an array of strings for a header sent several times. *)
Inductive HeaderValue : Type :=
  | One (s : string)
  | Many (l : list string).

(** Truthiness: an array is truthy, a string unless it is empty. *)
Definition truthyHeader (v : HeaderValue) : bool :=
  match v with One s => truthy s | Many _ => true end.

Definition semicolon : Ascii.ascii := Ascii.ascii_of_nat 59.
Definition equals : Ascii.ascii := Ascii.ascii_of_nat 61.
Definition space : Ascii.ascii := Ascii.ascii_of_nat 32.

Section WithTrim.
(** [String.prototype.trim], which is not part of the repository. *)
Variable trim : string → string.

(** The body of the loop of [parseSetCookieHeader]: the name and the
    value one [Set-Cookie] line gives, [None] when the line is skipped. *)
Definition parseCookie (cookieStr : string) : option (string * string) :=
  let parts :=
    split equals (default EmptyString (head (split semicolon cookieStr))) in
  if decide (2 ≤ length parts) then
    let name := trim (default EmptyString (head parts)) in
    let value := trim (join "=" (drop 1 parts)) in
    Some (name, value)
  else None.

(** [cookies[name] = value] on the plain object [cookies], for a value
    that is a string: the key [__proto__] stores nothing, every other key
    is set. *)
Definition setOwn (name value : string) (cookies : gmap string string)
  : gmap string string :=
  if decide (name = "__proto__") then cookies else <[name := value]> cookies.

(** [parseSetCookieHeader]; the result is the own keys of the object it
    returns. *)
Definition parseSetCookieHeader (headers : gmap string HeaderValue)
  : gmap string string :=
  let setCookie :=
    match headers !! "set-cookie" with
    | Some v => if truthyHeader v then Some v else headers !! "Set-Cookie"
    | None => headers !! "Set-Cookie"
    end in
  match setCookie with
  | None => ∅
  | Some v =>
      if negb (truthyHeader v) then ∅
      else
        let cookieArray := match v with One s => [s] | Many l => l end in
        foldl (fun cookies cookieStr =>
                 match parseCookie cookieStr with
                 | Some (name, value) => setOwn name value cookies
                 | None => cookies
                 end) ∅ cookieArray
  end.

End WithTrim.

(** [serializeCookies]: the entries of the object in their order, a
    value of [undefined] as [None]. *)
Definition serializeCookies (cookies : list (string * option string))
  : string :=
  join "; "
    ((fun kv => kv.1 +:+ "=" +:+ kv.2) <$>
     omap (fun kv => match kv.2 with
                     | Some value => Some (kv.1, value)
                     | None => None
                     end) cookies).

(** A [trim] to run examples with: it drops the spaces at both ends. *)
Fixpoint trimStart (s : string) : string :=
  match s with
  | String c s' => if decide (c = space) then trimStart s' else s
  | EmptyString => EmptyString
  end.

Definition spaceTrim (s : string) : string :=
  String.rev (trimStart (String.rev (trimStart s))).

End Cookies.

(** ** The singleton of class HttpClient: getInstance and close *)

Module Instance.

Section WithConfig.
(** [HttpClientConfig], which [getInstance] only passes on. *)
Context {Config : Type}.

(** One [HttpClient] object, as far as its life cycle goes: whether
    [this.client] is set, [this.isClosing], and the configuration its
    constructor was called with. *)
Record ClientObject : Type := {
  started : bool;
  isClosing : bool;
  given : option Config
}.

(** The promise of the async block of [getInstance], which builds the
    object [obj] and awaits [initCycleTLS()]. *)
Inductive InitState : Type :=
  | InitPending (obj : nat)
  | InitFulfilled (obj : nat)
  | InitRejected (e : JsError).

(** The class and the event loop around it.  An object is named by its
    index in [objects], a promise by its index in [inits]; [instance] and
    [initPromise] are the static fields of the class. *)
Record Sys : Type := {
  objects : list ClientObject;
  instance : option nat;
  initPromise : option nat;
  inits : list InitState
}.

Definition initial : Sys :=
  {| objects := []; instance := None; initPromise := None; inits := [] |}.

(** [obj.client] is set. *)
Definition live (s : Sys) (obj : nat) : bool :=
  default false (started <$> objects s !! obj).

(** What a call of [getInstance] resolves with or follows. *)
Inductive Got : Type :=
  | Ready (obj : nat)      (* return HttpClient.instance *)
  | Shared (p : nat)       (* return HttpClient.initPromise, found set *)
  | Started (p : nat).     (* the promise of a new async block *)

(** [getInstance(config)], up to the [await initCycleTLS()] of the block
    it may start. *)
Definition getInstance (config : option Config) (s : Sys) : Got * Sys :=
  let initialise :=
    match initPromise s with
    | Some p => (Shared p, s)
    | None =>
        let httpClient := length (objects s) in
        let p := length (inits s) in
        (Started p,
         {| objects :=
              objects s ++
              [{| started := false; isClosing := false; given := config |}];
            instance := instance s;
            initPromise := Some p;
            inits := inits s ++ [InitPending httpClient] |})
    end in
  match instance s with
  | Some obj => if live s obj then (Ready obj, s) else initialise
  | None => initialise
  end.

(** [initCycleTLS()] resolves in the block of the promise [p]: the rest of
    the block runs.  Not enabled unless [p] is pending. *)
Definition initResolves (p : nat) (s : Sys) : option Sys :=
  match inits s !! p with
  | Some (InitPending obj) =>
      Some {| objects :=
                alter (fun o => {| started := true; isClosing := isClosing o;
                                   given := given o |}) obj (objects s);
              instance := Some obj;
              initPromise := None;
              inits := <[p := InitFulfilled obj]> (inits s) |}
  | _ => None
  end.

(** [initCycleTLS()] rejects in the block of the promise [p]. *)
Definition initRejects (p : nat) (e : JsError) (s : Sys) : option Sys :=
  match inits s !! p with
  | Some (InitPending _) =>
      Some {| objects := objects s; instance := instance s;
              initPromise := initPromise s;
              inits := <[p := InitRejected e]> (inits s) |}
  | _ => None
  end.

(** [obj.close()], up to [await this.client.exit()]. *)
Definition close (obj : nat) (s : Sys) : option Sys :=
  match objects s !! obj with
  | Some o =>
      if isClosing o || negb (started o) then Some s
      else
        Some {| objects :=
                  <[obj := {| started := started o; isClosing := true;
                              given := given o |}]> (objects s);
                instance := instance s; initPromise := initPromise s;
                inits := inits s |}
  | None => None
  end.

(** [this.client.exit()] resolves in the [close] of [obj]: the rest of the
    [try] block and the [finally] block run.  Not enabled unless [obj] is
    closing. *)
Definition exitResolves (obj : nat) (s : Sys) : option Sys :=
  match objects s !! obj with
  | Some o =>
      if isClosing o then
        Some {| objects :=
                  <[obj := {| started := false; isClosing := false;
                              given := given o |}]> (objects s);
                instance := None; initPromise := initPromise s;
                inits := inits s |}
      else None
  | None => None
  end.

(** [this.client.exit()] rejects: the [catch] and [finally] blocks run. *)
Definition exitRejects (obj : nat) (s : Sys) : option Sys :=
  match objects s !! obj with
  | Some o =>
      if isClosing o then
        Some {| objects :=
                  <[obj := {| started := started o; isClosing := false;
                              given := given o |}]> (objects s);
                instance := instance s; initPromise := initPromise s;
                inits := inits s |}
      else None
  | None => None
  end.

(** One turn of the event loop around the class. *)
Inductive Turn : Type :=
  | TGet (config : option Config)
  | TInitResolves (p : nat)
  | TInitRejects (p : nat) (e : JsError)
  | TClose (obj : nat)
  | TExitResolves (obj : nat)
  | TExitRejects (obj : nat).

Definition turn (t : Turn) (s : Sys) : option Sys :=
  match t with
  | TGet config => Some (getInstance config s).2
  | TInitResolves p => initResolves p s
  | TInitRejects p e => initRejects p e s
  | TClose obj => close obj s
  | TExitResolves obj => exitResolves obj s
  | TExitRejects obj => exitRejects obj s
  end.

Fixpoint turns (ts : list Turn) (s : Sys) : option Sys :=
  match ts with
  | [] => Some s
  | t :: ts' =>
      match turn t s with
      | Some s' => turns ts' s'
      | None => None
      end
  end.

(** The closes that ran to their end in a sequence of turns. *)
Definition isExitResolves (t : Turn) : bool :=
  match t with TExitResolves _ => true | _ => false end.

(** *** Predicates of the properties *)

(** The invariant of the event loop: an object whose engine runs is the
    instance; no engine runs while the init promise is set; a pending or
    rejected init is the init promise; an object that is closing has its
    engine running. *)
Record Inv (s : Sys) : Prop := {
  inv_live : ∀ obj, live s obj = true → instance s = Some obj;
  inv_init : ∀ p obj, initPromise s = Some p → live s obj = false;
  inv_pending : ∀ p obj,
    inits s !! p = Some (InitPending obj) →
    initPromise s = Some p ∧ obj < length (objects s);
  inv_rejected : ∀ p e,
    inits s !! p = Some (InitRejected e) → initPromise s = Some p;
  inv_closing : ∀ obj o,
    objects s !! obj = Some o → isClosing o = true → started o = true
}.

(** Nothing is going on: no engine runs and no init is under way. *)
Definition idle (s : Sys) : bool :=
  bool_decide (initPromise s = None) &&
  match instance s with
  | Some obj => negb (live s obj)
  | None => true
  end.

End WithConfig.

Arguments ClientObject : clear implicits.
Arguments Sys : clear implicits.
Arguments Turn : clear implicits.

End Instance.

(** ** The factory and the facade around the cache *)

Module Facade.
Import Cache.

(** The configuration [{ ...config, cookie: resolvedCookie }] the factory
    builds the instance from. *)
Definition instanceConfig (resolvedCookie : string) (config : SunoApiConfig)
  : SunoApiConfig :=
  {| cookie := Some resolvedCookie; proxy_url := proxy_url config |}.

(** [SunoApi.resolveCookie], the first step of [init]; [None] when it
    throws for want of a cookie. *)
Definition resolveCookie (env_cookie : option string) (config : SunoApiConfig)
  : option string :=
  let cookie :=
    match Cache.cookie config with
    | Some c =>
        if JsString.truthy c && JsString.includes c "__client" then Some c
        else env_cookie
    | None => env_cookie
    end in
  match cookie with
  | Some c => if JsString.truthy c then Some c else None
  | None => None
  end.

(** The runs of the event loop with [clearSunoApiCache] among the
    turns. *)
Inductive Op : Type :=
  | OpTurn (t : Turn)
  | OpClear.

Definition op (o : Op) (s : Sys) : option Sys :=
  match o with
  | OpTurn t => turn t s
  | OpClear => Some (clearSunoApiCache s)
  end.

Fixpoint ops (os : list Op) (s : Sys) : option Sys :=
  match os with
  | [] => Some s
  | o :: os' =>
      match op o s with
      | Some s' => ops os' s'
      | None => None
      end
  end.

(** Every cached promise is still awaited by the call that created it
    under its key, or is fulfilled. *)
Definition served (s : Sys) : Prop :=
  ∀ k p, cache s !! k = Some p →
    (p, k) ∈ awaiting s ∨ promises s !! p = Some Fulfilled.

(** The colon, which separates the cookie from the proxy in a cache
    key. *)
Definition colon : Ascii.ascii := Ascii.ascii_of_nat 58.

(** The proxy part of a cache key. *)
Definition proxyLabel (config : SunoApiConfig) : string :=
  match proxy_url config with
  | Some u => if JsString.truthy u then u else "no-proxy"
  | None => "no-proxy"
  end.

End Facade.

(** ** The generation service: src/lib/suno/GenerationService.ts *)

Module Generation.
Import JsString.

Section WithTrim.
(** [String.prototype.trim], which is not part of the repository. *)
Variable trim : string → string.

(** [parseLyrics]. *)
Definition parseLyrics (prompt : string) : string :=
  let lines :=
    filter (fun line => trim line ≠ EmptyString) (split nl prompt) in
  join (String nl EmptyString) lines.

(** The [lyric] field [mapFeedClipsToAudioInfo] builds from
    [audio.metadata.prompt]. *)
Definition lyricOf (prompt : option string) : string :=
  match prompt with
  | Some p => if truthy p then parseLyrics p else EmptyString
  | None => EmptyString
  end.

End WithTrim.

Section WaitForAudio.
(** [AudioInfo], of which the loop reads the [status] only. *)
Context {AudioInfo : Type} (status : AudioInfo → string).

(** The world around [waitForAudio]: the values [Date.now()] gives, call
    after call; what the polls [this.get(songIds)] resolve with or reject
    with; whether the calls of [keepAlive] reject. *)
Record WaitEnv : Type := {
  dateNow : nat → Z;
  get : nat → JsError + list AudioInfo;
  keepAlive : nat → option JsError
}.

Definition allCompleted (audioResponse : list AudioInfo) : bool :=
  forallb (fun audio => bool_decide (status audio = "streaming") ||
                        bool_decide (status audio = "complete"))
    audioResponse.

Definition allError (audioResponse : list AudioInfo) : bool :=
  forallb (fun audio => bool_decide (status audio = "error")) audioResponse.

(** The [while] loop of [waitForAudio], at its iteration [i]: the test
    reads the clock for the [i + 1]-th time after [startTime].  The calls
    of [sleep] only let time pass, which shows in the values of the
    clock.  [fuel] bounds the iterations. *)
Fixpoint waitLoop (env : WaitEnv) (fuel i : nat) (startTime : Z)
    (lastResponse : list AudioInfo) : Outcome unit (list AudioInfo) :=
  match fuel with
  | 0 => OutOfFuel
  | S fuel' =>
      if decide (dateNow env (S i) - startTime < 100000)%Z then
        match get env i with
        | inl e => Threw e tt
        | inr audioResponse =>
            if allCompleted audioResponse || allError audioResponse
            then Returned audioResponse tt
            else
              match keepAlive env i with
              | Some e => Threw e tt
              | None => waitLoop env fuel' (S i) startTime audioResponse
              end
        end
      else Returned lastResponse tt
  end.

(** [waitForAudio]. *)
Definition waitForAudio (env : WaitEnv) (fuel : nat)
  : Outcome unit (list AudioInfo) :=
  waitLoop env fuel 0 (dateNow env 0) [].

End WaitForAudio.

Section GenerateLyrics.
(** [LyricsResponse], of which the loop reads the [status] only. *)
Context {LyricsResponse : Type} (lyricsStatus : LyricsResponse → string).

(** The [while] loop of [generateLyrics]: [poll i] is what the [i]-th
    request for the lyrics gives, the [body] of the response ([None] for
    [undefined]) or the error it rejects with.  The state is the number of
    requests made.  [fuel] bounds the iterations; the source has no
    bound. *)
Fixpoint lyricsLoop (poll : nat → JsError + option LyricsResponse)
    (fuel i : nat) (body : option LyricsResponse)
  : Outcome nat (option LyricsResponse) :=
  if decide (lyricsStatus <$> body ≠ Some "complete") then
    match fuel with
    | 0 => OutOfFuel
    | S fuel' =>
        match poll i with
        | inl e => Threw e (S i)
        | inr body' => lyricsLoop poll fuel' (S i) body'
        end
    end
  else Returned body i.

(** [generateLyrics], from the first request for the lyrics on:
    [keepAlive] and [generate] tell whether the call of [keepAlive] and
    the request that starts the generation fail. *)
Definition generateLyrics (keepAlive generate : option JsError)
    (poll : nat → JsError + option LyricsResponse) (fuel : nat)
  : Outcome nat (option LyricsResponse) :=
  match keepAlive with
  | Some e => Threw e 0
  | None =>
      match generate with
      | Some e => Threw e 0
      | None =>
          match poll 0 with
          | inl e => Threw e 1
          | inr body => lyricsLoop poll fuel 1 body
          end
      end
  end.

End GenerateLyrics.

End Generation.

(** ** The CAPTCHA service: src/lib/suno/CaptchaService.ts *)

Module Captcha.
Import JsString.

(** [authHeader?.split('Bearer ').pop()] in the route handler of
    [solve]: [None] stands for [undefined]. *)
Definition bearerOf (authHeader : option string) : option string :=
  match authHeader with
  | Some h => last (splitOn "Bearer " h)
  | None => None
  end.

Section WithJwt.
Context `{JW : Auth.JwtRuntime}.

(** What the route handler does to the session service with the
    [authorization] header of the intercepted request. *)
Definition adoptToken (authHeader : option string) (a : Auth.AuthService)
  : Auth.AuthService :=
  match bearerOf authHeader with
  | Some newToken =>
      if truthy newToken then Auth.setToken newToken a else a
  | None => a
  end.

End WithJwt.

Section Drag.
(** The numbers of JavaScript with their addition. *)
Context {Num : Type} (add : Num → Num → Num).

(** A point of the solution, after the conversions [+data.x] and
    [+data.y]. *)
Record Point : Type := { x : Num; y : Num }.

(** What [applyDragSolution] does to the page and to the solver. *)
Inductive Effect : Type :=
  | MouseMove (to : Point) (steps : option nat)
  | MouseDown
  | MouseUp
  | Sleep
  | BadReport (captchaId : string).

Definition offset (challengeBox p : Point) : Point :=
  {| x := add (x challengeBox) (x p); y := add (y challengeBox) (y p) |}.

(** The [for] loop of [applyDragSolution], from index [i]; the state is
    the list of the effects so far. *)
Fixpoint dragLoop (fuel i : nat) (challengeBox : Point) (data : list Point)
    (done : list Effect) : Outcome (list Effect) unit :=
  if decide (i < length data) then
    match fuel with
    | 0 => OutOfFuel
    | S fuel' =>
        match data !! i, data !! (i + 1) with
        | Some data1, Some data2 =>
            dragLoop fuel' (i + 2) challengeBox data
              (done ++ [MouseMove (offset challengeBox data1) None;
                        MouseDown; Sleep;
                        MouseMove (offset challengeBox data2) (Some 30);
                        MouseUp])
        | _, _ =>
            Threw (TypeError "Cannot read properties of undefined") done
        end
    end
  else Returned tt done.

(** [applyDragSolution]: [challengeBox] is what
    [challenge.boundingBox()] resolves with. *)
Definition applyDragSolution (challengeBox : option Point)
    (captchaId : string) (data : list Point)
  : Outcome (list Effect) unit :=
  match challengeBox with
  | None => Threw (Error ".challenge-container boundingBox is null!") []
  | Some box =>
      if decide (length data `mod` 2 ≠ 0) then
        Returned tt [BadReport captchaId]
      else dragLoop (length data) 0 box data []
  end.

(** The drags a list of effects performs: each is a move (in one step)
    to a point, a press, a pause, a move to a second point in a number of
    steps and a release; a drag is read as its two points and that number
    of steps.  [None] when the effects are anything else. *)
Fixpoint dragsOf (effects : list Effect)
  : option (list (Point * Point * nat)) :=
  match effects with
  | [] => Some []
  | MouseMove from None :: MouseDown :: Sleep ::
    MouseMove to (Some steps) :: MouseUp :: rest =>
      (fun drags => (from, to, steps) :: drags) <$> dragsOf rest
  | _ => None
  end.

(** The points of a solution taken two by two. *)
Fixpoint pairsOf (data : list Point) : list (Point * Point) :=
  match data with
  | data1 :: data2 :: rest => (data1, data2) :: pairsOf rest
  | _ => []
  end.

End Drag.

End Captcha.

(** * Properties of the fingerprint rotation manager *)

Module PoolProps.
Import Fingerprints.

Implicit Types (m : FingerprintManager) (p q : FingerprintProfile).

(** *** The available profiles *)

Lemma available_elem m p :
  p ∈ getAvailableProfiles m → p ∈ profiles m ∧ id p ∉ blockedProfiles (state m).
Proof.
  unfold getAvailableProfiles.
  destruct (preferredPlatform m) as [pp|]; [case_decide|];
    rewrite ?list_elem_of_filter; tauto.
Qed.

(** The available profiles are the catalog filtered by one predicate, so
    they come in catalog order. *)
Lemma available_as_filter m :
  ∃ (P : FingerprintProfile → Prop) (D : ∀ x, Decision (P x)),
    getAvailableProfiles m = filter P (profiles m).
Proof.
  unfold getAvailableProfiles.
  destruct (preferredPlatform m) as [pp|]; [case_decide|].
  - eexists _, _. apply list_filter_filter.
  - by eexists _, _.
  - by eexists _, _.
Qed.

Lemma filter_not_blocked m :
  blockedProfiles (state m) = ∅ →
  filter (fun p => id p ∉ blockedProfiles (state m)) (profiles m) = profiles m.
Proof.
  intros ->. induction (profiles m) as [|x l IH]; [done|].
  rewrite filter_cons_True by set_solver. by rewrite IH.
Qed.

Lemma available_unblocked_nonempty m :
  blockedProfiles (state m) = ∅ → profiles m ≠ [] →
  getAvailableProfiles m ≠ [].
Proof.
  intros Hb Hne. unfold getAvailableProfiles.
  rewrite (filter_not_blocked m Hb).
  destruct (preferredPlatform m) as [pp|]; [|done].
  case_decide as Hlen; [|done].
  intros Heq. rewrite Heq in Hlen. simpl in Hlen. lia.
Qed.

Lemma available_cleared_nonempty m :
  profiles m ≠ [] → getAvailableProfiles (resetBlockedProfiles m) ≠ [].
Proof. intros Hne. by apply available_unblocked_nonempty. Qed.

Lemma available_empty_catalog m :
  profiles m = [] → getAvailableProfiles m = [].
Proof.
  intros Hnil. destruct (available_as_filter m) as (P & D & ->).
  by rewrite Hnil.
Qed.

Lemma lookup_mod_is_Some {A} (l : list A) (n : nat) :
  l ≠ [] → ∃ x, l !! (n `mod` length l) = Some x ∧ x ∈ l.
Proof.
  intros Hne.
  assert (n `mod` length l < length l) as Hlt.
  { apply Nat.mod_upper_bound. destruct l; simpl; [done|lia]. }
  destruct (lookup_lt_is_Some_2 l _ Hlt) as [x Hx].
  exists x. split; [done|]. by eapply list_elem_of_lookup_2.
Qed.

(** *** The least-used scan *)

Lemma leastUsed_scan m (l : list FingerprintProfile) o :
  l ≠ [] → scanned m l (foldl (leastUsedStep m) (None, o) l).
Proof.
  induction l as [|x l IH] using rev_ind; [done|]. intros _.
  rewrite foldl_snoc.
  destruct l as [|y l'] eqn:Hl.
  { simpl. exists 0, x. split_and!; [done|done| |intros; lia].
    intros q Hq. apply list_elem_of_singleton in Hq. by subst. }
  rewrite <-Hl in *. assert (l ≠ []) as Hne by (by subst).
  destruct (IH Hne) as (i & p & -> & Hi & Hmin & Hfirst).
  unfold leastUsedStep at 1. simpl.
  case_decide as Hlt.
  - exists (length l), x. split_and!; [done| | |].
    + by rewrite lookup_app_r, Nat.sub_diag by lia.
    + intros q Hq. apply elem_of_app in Hq as [Hq|Hq].
      * specialize (Hmin q Hq). lia.
      * apply list_elem_of_singleton in Hq. by subst.
    + intros j q Hj Hq. rewrite lookup_app_l in Hq by done.
      apply list_elem_of_lookup_2 in Hq. specialize (Hmin q Hq). lia.
  - exists i, p. split_and!; [done| | |].
    + rewrite lookup_app_l; [done|]. by eapply lookup_lt_Some.
    + intros q Hq. apply elem_of_app in Hq as [Hq|Hq]; [by apply Hmin|].
      apply list_elem_of_singleton in Hq. subst. lia.
    + intros j q Hj Hq. apply (Hfirst j q Hj).
      rewrite lookup_app_l in Hq; [done|].
      apply lookup_lt_Some in Hi. lia.
Qed.

Lemma getLeastUsedProfile_spec m (l : list FingerprintProfile) :
  l ≠ [] →
  ∃ i p, getLeastUsedProfile m l = Some p ∧ l !! i = Some p ∧
    (∀ q, q ∈ l → usageOf m p ≤ usageOf m q) ∧
    (∀ j q, j < i → l !! j = Some q → usageOf m p < usageOf m q).
Proof.
  intros Hne. unfold getLeastUsedProfile.
  destruct (leastUsed_scan m l (l !! 0) Hne) as (i & p & Hacc & H).
  exists i, p. by rewrite Hacc.
Qed.

(** A position in a filtered list comes from a position of the list, and
    the kept elements before it are the earlier elements of the filtered
    list. *)
Lemma filter_lookup_origin {A} (P : A → Prop) `{!∀ x, Decision (P x)}
    (L : list A) i x :
  filter P L !! i = Some x →
  ∃ I, L !! I = Some x ∧
    ∀ J y, J < I → L !! J = Some y → P y → ∃ j, j < i ∧ filter P L !! j = Some y.
Proof.
  revert i. induction L as [|a L IH]; intros i Hi; [done|].
  destruct (decide (P a)) as [Ha|Ha].
  - rewrite filter_cons_True in Hi |- * by done.
    destruct i as [|i]; simpl in Hi.
    + exists 0. split; [done|]. intros; lia.
    + destruct (IH i Hi) as (I & HI & Hbefore).
      exists (S I). split; [done|].
      intros [|J] y HJ Hy HP; simpl in Hy.
      * exists 0. split; [lia|]. simpl. congruence.
      * destruct (Hbefore J y) as (j & Hj & Hjy); [lia|done|done|].
        exists (S j). split; [lia|done].
  - rewrite filter_cons_False in Hi |- * by done.
    destruct (IH i Hi) as (I & HI & Hbefore).
    exists (S I). split; [done|].
    intros [|J] y HJ Hy HP; simpl in Hy.
    + congruence.
    + apply (Hbefore J y); [lia|done|done].
Qed.

(** *** One call of [getNextProfile] *)

Lemma samePool_available m m' :
  samePool m m' → getAvailableProfiles m' = getAvailableProfiles m.
Proof.
  intros (Hp & Hb & Hpp & _). unfold getAvailableProfiles.
  by rewrite Hp, Hb, Hpp.
Qed.

Lemma platformSticky_Some m (l : list FingerprintProfile) :
  l ≠ [] →
  ∃ p, getPlatformStickyProfile m l = (Some p, incrementIndex m) ∧ p ∈ l.
Proof.
  intros Hne. unfold getPlatformStickyProfile.
  destruct (lookup_mod_is_Some l (currentIndex (state m)) Hne) as (c & -> & Hc).
  simpl.
  set (same := filter (fun p => platform p = platform c) l).
  assert (c ∈ same) as Hsame by (by apply list_elem_of_filter).
  assert (same ≠ []) as Hsne by (intros E; rewrite E in Hsame; by inversion Hsame).
  case_decide as Hlen.
  - destruct (lookup_mod_is_Some same (S (currentIndex (state m))) Hsne)
      as (p & Hp & Hin).
    exists p. split; [by rewrite Hp|].
    by apply list_elem_of_filter in Hin as [_ ?].
  - destruct same; [done|simpl in Hlen; lia].
Qed.

Lemma getNextProfile_available fuel now rnd m :
  getAvailableProfiles m ≠ [] →
  ∃ p m', getNextProfile (S fuel) now rnd m = Returned p m' ∧
    p ∈ getAvailableProfiles m ∧ samePool m m'.
Proof.
  intros Hne. simpl.
  case_decide as Hlen.
  { destruct (getAvailableProfiles m); [done|simpl in Hlen; lia]. }
  destruct (strategy m) eqn:Hs.
  - destruct (lookup_mod_is_Some (getAvailableProfiles m)
                (S (currentIndex (state m))) Hne) as (p & Hp & Hin).
    simpl. rewrite Hp. eexists _, _. split; [done|].
    split; [done|]. by unfold samePool.
  - destruct (lookup_mod_is_Some (getAvailableProfiles m) rnd Hne)
      as (p & Hp & Hin).
    rewrite Hp. eexists _, _. split; [done|].
    split; [done|]. by unfold samePool.
  - destruct (getLeastUsedProfile_spec m _ Hne) as (i & p & Hp & Hi & _).
    rewrite Hp. eexists _, _. split; [done|].
    split; [by eapply list_elem_of_lookup_2|]. by unfold samePool.
  - destruct (platformSticky_Some m _ Hne) as (p & Hp & Hin).
    rewrite Hp. eexists _, _. split; [done|].
    split; [done|]. by unfold samePool.
Qed.

(** With an empty catalog [getNextProfile] calls itself for ever: no
    recursion budget is enough. *)
Lemma getNextProfile_empty_catalog fuel now rnd m :
  profiles m = [] → getNextProfile fuel now rnd m = OutOfFuel.
Proof.
  revert m. induction fuel as [|fuel IH]; intros m Hnil; [done|].
  simpl. rewrite (available_empty_catalog m Hnil). simpl. by apply IH.
Qed.

Lemma getNextProfile_unfold_available fuel fuel' now rnd m :
  getAvailableProfiles m ≠ [] →
  getNextProfile (S fuel) now rnd m = getNextProfile (S fuel') now rnd m.
Proof.
  intros Hne. simpl. case_decide as Hlen; [|done].
  destruct (getAvailableProfiles m); [done|simpl in Hlen; lia].
Qed.

Lemma getNextProfile_unfold_blocked fuel now rnd m :
  getAvailableProfiles m = [] →
  getNextProfile (S fuel) now rnd m = getNextProfile fuel now rnd (resetBlockedProfiles m).
Proof. intros He. simpl. by rewrite He. Qed.

(** With a catalog that is not empty it calls itself at most once: a
    budget of 2 is as good as any larger one. *)
Lemma getNextProfile_fuel_enough fuel now rnd m :
  profiles m ≠ [] →
  getNextProfile (2 + fuel) now rnd m = getNextProfile 2 now rnd m.
Proof.
  intros Hne.
  destruct (decide (getAvailableProfiles m = [])) as [He|Hav].
  - change (2 + fuel) with (S (S fuel)).
    rewrite (getNextProfile_unfold_blocked (S fuel) now rnd m He).
    rewrite (getNextProfile_unfold_blocked 1 now rnd m He).
    apply getNextProfile_unfold_available.
    by apply available_cleared_nonempty.
  - by apply getNextProfile_unfold_available.
Qed.

Lemma getCurrentProfile_returns m :
  profiles m ≠ [] →
  ∃ p m', getCurrentProfile m = (Some p, m') ∧
    getAvailableProfiles m' ≠ [] ∧
    (getAvailableProfiles m = [] → blockedProfiles (state m') = ∅).
Proof.
  intros Hne. unfold getCurrentProfile. case_decide as Hlen.
  - exists DEFAULT_PROFILE, (resetBlockedProfiles m). split; [done|].
    split; [by apply available_cleared_nonempty|done].
  - assert (getAvailableProfiles m ≠ []) as Hav
      by (intros E; by rewrite E in Hlen).
    destruct (lookup_mod_is_Some _ (currentIndex (state m)) Hav)
      as (p & Hp & _).
    exists p, m. by rewrite Hp.
Qed.

Lemma getNextProfile_returns m now rnd fuel :
  profiles m ≠ [] →
  ∃ p m', getNextProfile (2 + fuel) now rnd m = Returned p m' ∧
    getAvailableProfiles m' ≠ [] ∧
    (getAvailableProfiles m = [] → blockedProfiles (state m') = ∅).
Proof.
  intros Hne.
  destruct (decide (getAvailableProfiles m = [])) as [He|Hav].
  - change (2 + fuel) with (S (S fuel)).
    rewrite getNextProfile_unfold_blocked by done.
    pose proof (available_cleared_nonempty m Hne) as Hc.
    destruct (getNextProfile_available fuel now rnd _ Hc)
      as (p & m' & E & _ & Hsame).
    exists p, m'. split; [done|]. split.
    + by rewrite (samePool_available _ _ Hsame).
    + intros _. by destruct Hsame as (_ & -> & _).
  - destruct (getNextProfile_available (S fuel) now rnd _ Hav)
      as (p & m' & E & _ & Hsame).
    exists p, m'. split; [done|]. split; [|done].
    by rewrite (samePool_available _ _ Hsame).
Qed.

(** C4.  For a catalog that is not empty, [getCurrentProfile] and
    [getNextProfile] both return a profile, whatever the rotation state,
    the strategy and the platform filter, also when every profile is
    blocked: when nothing is available the blocked set is cleared before
    the profile is returned, and the manager is left with a non-empty
    available set. *)
Theorem pool_always_yields_profile m now rnd fuel :
  profiles m ≠ [] →
  (∃ p m', getCurrentProfile m = (Some p, m') ∧
     getAvailableProfiles m' ≠ [] ∧
     (getAvailableProfiles m = [] → blockedProfiles (state m') = ∅)) ∧
  (∃ p m', getNextProfile (2 + fuel) now rnd m = Returned p m' ∧
     getAvailableProfiles m' ≠ [] ∧
     (getAvailableProfiles m = [] → blockedProfiles (state m') = ∅)).
Proof.
  intros Hne. split.
  - by apply getCurrentProfile_returns.
  - by apply getNextProfile_returns.
Qed.

(** A catalog with one profile, blocked: the state in which nothing is
    available. *)
Lemma pool_always_yields_profile_witness :
  [IPHONE_15_SAFARI_17] ≠ [] ∧
  let m := blockProfile "iphone15-safari17"
             (new_FingerprintManager (Some least_used) (Some android)
                (Some [IPHONE_15_SAFARI_17]) 0) in
  getAvailableProfiles m = [] ∧
  getCurrentProfile m = (Some DEFAULT_PROFILE, resetBlockedProfiles m) ∧
  ∃ m', getNextProfile 2 7 3 m = Returned IPHONE_15_SAFARI_17 m' ∧
        blockedProfiles (state m') = ∅.
Proof.
  split; [done|]. intros m.
  destruct (pool_always_yields_profile m 7 3 0 ltac:(done))
    as [(p & m1 & E1 & _ & Hc1) (p2 & m2 & E2 & _ & Hc2)].
  assert (getAvailableProfiles m = []) as He by (by vm_compute).
  split; [done|]. split; [by vm_compute|].
  assert (∃ m', getNextProfile 2 7 3 m = Returned IPHONE_15_SAFARI_17 m')
    as [m' E] by (vm_compute; eauto).
  exists m'. split; [done|].
  change (2 + 0) with 2 in E2. rewrite E in E2.
  injection E2 as _ <-. by apply Hc2.
Defined.

(** C9.  Under the least-used strategy, when some profile is available,
    [getNextProfile] returns an available profile whose usage count (before
    the call counts it) is the minimum over the available profiles, and
    among the available profiles of that minimal count it is the one that
    comes first in the catalog. *)
Theorem least_used_picks_first_minimum m now rnd fuel :
  strategy m = least_used →
  getAvailableProfiles m ≠ [] →
  ∃ p m', getNextProfile (S fuel) now rnd m = Returned p m' ∧
    p ∈ getAvailableProfiles m ∧
    (∀ q, q ∈ getAvailableProfiles m → usageOf m p ≤ usageOf m q) ∧
    ∃ i, profiles m !! i = Some p ∧
      ∀ j q, j < i → profiles m !! j = Some q →
             q ∈ getAvailableProfiles m → usageOf m p < usageOf m q.
Proof.
  intros Hs Hne.
  destruct (getLeastUsedProfile_spec m _ Hne) as (i & p & Hp & Hi & Hmin & Hfirst).
  exists p. simpl. case_decide as Hlen.
  { destruct (getAvailableProfiles m); [done|simpl in Hlen; lia]. }
  rewrite Hs, Hp. eexists. split; [done|].
  split; [by eapply list_elem_of_lookup_2|]. split; [done|].
  destruct (available_as_filter m) as (P & D & Hav).
  rewrite Hav in Hi, Hfirst |- *.
  destruct (filter_lookup_origin P (profiles m) i p Hi) as (I & HI & Hbefore).
  exists I. split; [done|].
  intros J q HJ Hq Hin. apply list_elem_of_filter in Hin as [HP _].
  destruct (Hbefore J q HJ Hq HP) as (j & Hj & Hjq).
  by apply (Hfirst j q).
Qed.

(** Two available profiles tie at the minimum: the earlier one in the
    catalog is returned. *)
Lemma least_used_picks_first_minimum_witness :
  let m0 := new_FingerprintManager (Some least_used) None None 0 in
  let m := blockProfile "pixel8-chrome130" m0 in
  strategy m = least_used ∧ getAvailableProfiles m ≠ [] ∧
  ∃ m', getNextProfile 1 5 0 m = Returned GALAXY_S24_CHROME_130 m' ∧
        usageOf m' GALAXY_S24_CHROME_130 = 1.
Proof.
  intros m0 m.
  assert (strategy m = least_used) as Hs by done.
  assert (getAvailableProfiles m ≠ []) as Hne by (by vm_compute).
  split; [done|]. split; [done|].
  destruct (least_used_picks_first_minimum m 5 0 0 Hs Hne)
    as (p & m' & E & _).
  assert (∃ m1, getNextProfile 1 5 0 m = Returned GALAXY_S24_CHROME_130 m1 ∧
                usageOf m1 GALAXY_S24_CHROME_130 = 1)
    as (m1 & E1 & Hu) by (vm_compute; eauto).
  exists m1. by split.
Defined.

(** *** Round-robin *)

Lemma rotate_nat_add_mod (n i len : nat) :
  rotate_nat_add n i len = (n + i) `mod` len.
Proof.
  unfold rotate_nat_add.
  rewrite <-Nat2Z.inj_add, <-Nat2Z.inj_mod. apply Nat2Z.id.
Qed.

Lemma available_all m :
  blockedProfiles (state m) = ∅ → preferredPlatform m = None →
  getAvailableProfiles m = profiles m.
Proof.
  intros Hb Hpp. unfold getAvailableProfiles. rewrite Hpp.
  by apply filter_not_blocked.
Qed.

(** [k] consecutive calls from cursor [c] return the profiles at the
    positions [c+1], ..., [c+k], modulo the size of the catalog. *)
Lemma round_robin_calls fuel (inputs : list (Z * nat)) m :
  strategy m = round_robin →
  blockedProfiles (state m) = ∅ →
  preferredPlatform m = None →
  profiles m ≠ [] →
  ∃ ps m', getNextProfiles (S fuel) inputs m = Returned ps m' ∧
    length ps = length inputs ∧
    ∀ j, j < length inputs →
      ps !! j = profiles m !! ((S (currentIndex (state m)) + j) `mod` length (profiles m)).
Proof.
  revert m. induction inputs as [|[now rnd] inputs IH]; intros m Hs Hb Hpp Hne.
  { exists [], m. split; [done|]. split; [done|]. simpl. intros; lia. }
  cbn [getNextProfiles].
  assert (getAvailableProfiles m ≠ []) as Hav by (by rewrite available_all).
  assert (getNextProfile (S fuel) now rnd m =
          match profiles m !! (S (currentIndex (state m)) `mod` length (profiles m)) with
          | Some p =>
              Returned p
                (set_state
                   (set_lastRotation now
                      (set_usageCount
                         (<[id p := usageOf (incrementIndex m) p + 1]>
                            (usageCount (state (incrementIndex m))))
                         (state (incrementIndex m))))
                   (incrementIndex m))
          | None =>
              Threw (TypeError "Cannot read properties of undefined")
                (incrementIndex m)
          end) as Hstep.
  { simpl. case_decide as Hlen.
    { destruct (getAvailableProfiles m); [done|simpl in Hlen; lia]. }
    rewrite Hs. by rewrite available_all. }
  rewrite Hstep.
  destruct (lookup_mod_is_Some (profiles m) (S (currentIndex (state m))) Hne)
    as (p & Hp & _).
  rewrite Hp.
  match goal with |- context [getNextProfiles _ _ ?m1] => set (m1' := m1) end.
  destruct (IH m1') as (ps & m' & E & Hlen & Hps); [done..|].
  rewrite E. exists (p :: ps), m'. split; [done|].
  split; [simpl; by rewrite Hlen|].
  intros [|j] Hj.
  - simpl. by rewrite Nat.add_0_r.
  - simpl in Hj |- *. rewrite Hps by lia. simpl.
    f_equal. f_equal. lia.
Qed.

(** C8.  Round-robin, nothing blocked, no platform filter, a catalog of
    N >= 1 profiles: N consecutive [getNextProfile] calls, from any cursor,
    return the catalog rotated by the cursor, so every profile of the
    catalog exactly once; with unique ids no id comes twice. *)
Theorem round_robin_visits_each_once fuel (inputs : list (Z * nat)) m :
  strategy m = round_robin →
  blockedProfiles (state m) = ∅ →
  preferredPlatform m = None →
  profiles m ≠ [] →
  length inputs = length (profiles m) →
  ∃ ps m', getNextProfiles (S fuel) inputs m = Returned ps m' ∧
    ps = rotate (S (currentIndex (state m))) (profiles m) ∧
    ps ≡ₚ profiles m ∧
    (NoDup (id <$> profiles m) → NoDup (id <$> ps)).
Proof.
  intros Hs Hb Hpp Hne HN.
  destruct (round_robin_calls fuel inputs m Hs Hb Hpp Hne)
    as (ps & m' & E & Hlen & Hps).
  exists ps, m'. split; [done|].
  assert (ps = rotate (S (currentIndex (state m))) (profiles m)) as Hrot.
  { apply list_eq. intros j.
    destruct (decide (j < length inputs)) as [Hj|Hj].
    - rewrite Hps by done. rewrite lookup_rotate_r by lia.
      by rewrite rotate_nat_add_mod.
    - rewrite !lookup_ge_None_2; [done| |lia].
      rewrite length_rotate. lia. }
  split; [done|].
  assert (ps ≡ₚ profiles m) as Hperm.
  { rewrite Hrot. unfold rotate.
    rewrite Permutation_app_comm. by rewrite take_drop. }
  split; [done|].
  intros Hnd. by rewrite Hperm.
Qed.

Lemma round_robin_visits_each_once_witness :
  let m := new_FingerprintManager None None None 0 in
  let inputs : list (Z * nat) :=
    [(1%Z, 0); (2%Z, 0); (3%Z, 0); (4%Z, 0); (5%Z, 0); (6%Z, 0)] in
  ∃ m', getNextProfiles 1 inputs m =
          Returned [GALAXY_S24_CHROME_130; ONEPLUS_12_CHROME_130;
                    XIAOMI_14_CHROME_130; IPHONE_15_SAFARI_17;
                    IPHONE_14_SAFARI_17; PIXEL_8_CHROME_130] m'.
Proof.
  intros m inputs.
  destruct (round_robin_visits_each_once 0 inputs m) as (ps & m' & E & -> & _);
    [done..|].
  exists m'. exact E.
Defined.

(** *** The blocked set *)

(** Closes a goal saying that a manager built by field updates has the
    catalog it started with and no more blocked ids. *)
Ltac pool_frame := simpl; split; [reflexivity|set_solver].

Lemma platformSticky_manager m (l : list FingerprintProfile) :
  (getPlatformStickyProfile m l).2 = incrementIndex m.
Proof. unfold getPlatformStickyProfile. by case_decide. Qed.

Lemma getNextProfile_blocked fuel now rnd m :
  match getNextProfile fuel now rnd m with
  | Returned _ m' | Threw _ m' =>
      profiles m' = profiles m ∧
      blockedProfiles (state m') ⊆ blockedProfiles (state m)
  | OutOfFuel => True
  end.
Proof.
  revert m. induction fuel as [|fuel IH]; intros m; [done|].
  simpl. case_decide as Hlen.
  { specialize (IH (resetBlockedProfiles m)).
    unfold resetBlockedProfiles in IH.
    destruct (getNextProfile fuel now rnd _); [..|done];
      simpl in IH; (split; [tauto|set_solver]). }
  destruct (strategy m).
  - simpl. destruct (_ !! _); pool_frame.
  - destruct (_ !! _); pool_frame.
  - destruct (getLeastUsedProfile _ _); pool_frame.
  - pose proof (platformSticky_manager m (getAvailableProfiles m)) as Hm.
    destruct (getPlatformStickyProfile m _) as [[p|] m1];
      simpl in Hm; subst m1; pool_frame.
Qed.






(** *** A scenario of the specification *)

(** Pool {A, B}, round-robin, A blocked: five consecutive calls all return
    B. *)
Example blocked_profile_is_skipped :
  let m := blockProfile "pixel8-chrome130"
             (new_FingerprintManager None None
                (Some [PIXEL_8_CHROME_130; GALAXY_S24_CHROME_130]) 0) in
  let inputs : list (Z * nat) :=
    [(1%Z, 0); (2%Z, 0); (3%Z, 0); (4%Z, 0); (5%Z, 0)] in
  ∃ m', getNextProfiles 2 inputs m =
          Returned (replicate 5 GALAXY_S24_CHROME_130) m' ∧
        usageOf m' GALAXY_S24_CHROME_130 = 5 ∧
        usageOf m' PIXEL_8_CHROME_130 = 0.
Proof. intros m inputs. eexists. split_and!; by vm_compute. Qed.

End PoolProps.

(** * Properties of the HTTP client *)

Module StringProps.
Import JsString.




End StringProps.

Module HttpProps.
Import Fingerprints Http.

Section WithJson.
Context `{JR : JsonRuntime}.

Implicit Types (c : HttpClient) (r : HttpResponse) (env : Env).

(** *** The challenge classifier *)








(** *** Rotation and one request *)

Lemma stable_refl c : stable c c.
Proof. done. Qed.

Lemma stable_trans c1 c2 c3 : stable c1 c2 → stable c2 c3 → stable c1 c3.
Proof. unfold stable. intros (?&?&?) (?&?&?). split_and!; congruence. Qed.

Lemma perRequest_stable c c' : stable c c' → perRequest c' = perRequest c.
Proof. intros (_ & Hcfg & _). unfold perRequest. by rewrite Hcfg. Qed.

Lemma rotations_snoc t e :
  rotations (t ++ [e]) = rotations t + (if isRotation e then 1 else 0).
Proof.
  unfold rotations. rewrite filter_app, length_app. f_equal.
  destruct e; simpl; done.
Qed.

Lemma pool_getNextProfile_returns env c :
  profiles (fingerprintManager c) ≠ [] →
  ∃ p m',
    getNextProfile poolFuel (dateNow env (poolCalls c))
      (mathRandom env (poolCalls c)) (fingerprintManager c) = Returned p m' ∧
    profiles m' = profiles (fingerprintManager c) ∧
    pool_getNextProfile env c = Returned p (tick_pool (set_manager m' c)).
Proof.
  intros Hne.
  destruct (PoolProps.getNextProfile_returns (fingerprintManager c)
              (dateNow env (poolCalls c)) (mathRandom env (poolCalls c)) 0 Hne)
    as (p & m' & E & _).
  change (2 + 0) with poolFuel in E.
  pose proof (PoolProps.getNextProfile_blocked poolFuel
                (dateNow env (poolCalls c)) (mathRandom env (poolCalls c))
                (fingerprintManager c)) as Hb.
  rewrite E in Hb. destruct Hb as [Hp _].
  exists p, m'. split; [done|]. split; [done|].
  unfold pool_getNextProfile. by rewrite E.
Qed.

Lemma rotateFingerprint_returns env c :
  profiles (fingerprintManager c) ≠ [] →
  ∃ p c',
    rotateFingerprint env c = Returned p c' ∧
    getNextProfile poolFuel (dateNow env (poolCalls c))
      (mathRandom env (poolCalls c)) (fingerprintManager c)
      = Returned p (fingerprintManager c') ∧
    currentProfile c' = p ∧
    trace c' = trace c ++ [LogRotated (name p)] ∧
    engineCalls c' = engineCalls c ∧
    poolCalls c' = S (poolCalls c) ∧
    stable c c'.
Proof.
  intros Hne.
  destruct (pool_getNextProfile_returns env c Hne) as (p & m' & E & Hp & Hpool).
  eexists p, _. unfold rotateFingerprint, bind. rewrite Hpool. simpl.
  split; [done|]. by split_and!.
Qed.

Lemma blockCurrentProfile_returns env c :
  profiles (fingerprintManager c) ≠ [] →
  ∃ p c',
    blockCurrentProfile env c = Returned tt c' ∧
    getNextProfile poolFuel (dateNow env (poolCalls c))
      (mathRandom env (poolCalls c))
      (blockProfile (id (currentProfile c)) (fingerprintManager c))
      = Returned p (fingerprintManager c') ∧
    currentProfile c' = p ∧
    trace c' = trace c ++ [LogRotated (name p)] ∧
    engineCalls c' = engineCalls c ∧
    poolCalls c' = S (poolCalls c) ∧
    stable c c'.
Proof.
  intros Hne.
  set (c1 := set_manager
               (blockProfile (id (currentProfile c)) (fingerprintManager c)) c).
  destruct (rotateFingerprint_returns env c1 Hne)
    as (p & c' & E & Hnext & Hcur & Htr & Hcalls & Hpool & Hst).
  exists p, c'. unfold blockCurrentProfile, bind, modify. fold c1.
  rewrite E. by split_and!.
Qed.

(** The client as [request] leaves it when the engine is called: the
    profile may have been rotated by the pool ([rotateFingerprints]), the
    request is logged and the call counted. *)
Lemma request_calls_engine env c :
  client c = true →
  profiles (fingerprintManager c) ≠ [] →
  ∃ c1,
    stable c c1 ∧ engineCalls c1 = S (engineCalls c) ∧
    rotations (trace c1) = rotations (trace c) ∧
    poolCalls c1 = poolCalls c + perRequest c ∧
    request env c =
      match engine env (engineCalls c) (currentProfile c1) with
      | EngineReplied raw => Returned (parseResponse raw) c1
      | EngineThrew e => Threw e (emit (LogRequestFailed e) c1)
      end.
Proof.
  intros Hini Hne. unfold request, bind, gets, perRequest. rewrite Hini. simpl.
  destruct (rotateFingerprints (config c)) eqn:Hrot.
  - destruct (pool_getNextProfile_returns env c Hne) as (p & m' & E & Hp & ->).
    simpl.
    exists (tick_engine
              (emit (LogRequest (id p))
                 (set_currentProfile p (tick_pool (set_manager m' c))))).
    split_and!; simpl.
    + by split_and!.
    + done.
    + by rewrite rotations_snoc, Nat.add_0_r.
    + lia.
    + by destruct (engine env (engineCalls c) p).
  - simpl.
    exists (tick_engine (emit (LogRequest (id (currentProfile c))) c)).
    split_and!; simpl.
    + by split_and!.
    + done.
    + by rewrite rotations_snoc, Nat.add_0_r.
    + lia.
    + by destruct (engine env (engineCalls c) (currentProfile c)).
Qed.

(** *** One attempt of [requestWithRetry] *)

Lemma attemptBody_fails env a R c e :
  client c = true →
  profiles (fingerprintManager c) ≠ [] →
  (∀ p, engine env (engineCalls c) p = EngineThrew e) →
  ∃ c1, attemptBody env a R c = Threw e c1 ∧ stable c c1 ∧
    engineCalls c1 = S (engineCalls c) ∧
    poolCalls c1 = poolCalls c + perRequest c ∧
    rotations (trace c1) = rotations (trace c).
Proof.
  intros Hini Hne Heng.
  destruct (request_calls_engine env c Hini Hne)
    as (c1 & Hst & Hcalls & Hrot & Hpool & E).
  rewrite Heng in E.
  exists (emit (LogRequestFailed e) c1).
  unfold attemptBody, bind. rewrite E. split_and!; [done|done|done|done|].
  simpl. by rewrite rotations_snoc, Nat.add_0_r.
Qed.

Lemma attemptBody_succeeds env a R c raw :
  client c = true →
  profiles (fingerprintManager c) ≠ [] →
  (∀ p, engine env (engineCalls c) p = EngineReplied raw) →
  isCloudflareChallenge (parseResponse raw) = false →
  ∃ c1, attemptBody env a R c = Returned (Some (parseResponse raw)) c1 ∧
    stable c c1 ∧ engineCalls c1 = S (engineCalls c) ∧
    poolCalls c1 = poolCalls c + perRequest c ∧
    rotations (trace c1) = rotations (trace c).
Proof.
  intros Hini Hne Heng Hok.
  destruct (request_calls_engine env c Hini Hne)
    as (c1 & Hst & Hcalls & Hrot & Hpool & E).
  rewrite Heng in E.
  exists c1. unfold attemptBody, bind. rewrite E, Hok. by split_and!.
Qed.


Lemma attemptCatch_returns env a R e c :
  profiles (fingerprintManager c) ≠ [] →
  ∃ c2, attemptCatch env a R e c = Returned e c2 ∧ stable c c2 ∧
    engineCalls c2 = engineCalls c ∧
    poolCalls c2 = poolCalls c + (if decide (a < R)%Z then 1 else 0) ∧
    rotations (trace c2) =
      rotations (trace c) + (if decide (a < R)%Z then 1 else 0).
Proof.
  intros Hne. unfold attemptCatch, bind. unfold modify at 1.
  case_decide.
  - assert (profiles (fingerprintManager
                        (emit (LogAttemptFailed a R e) c)) ≠ []) as Hne1 by done.
    destruct (rotateFingerprint_returns env _ Hne1)
      as (p & c' & E & _ & _ & Htr & Hcalls & Hpool & Hst).
    simpl in Htr, Hcalls, Hpool.
    rewrite E. eexists. split; [reflexivity|]. split_and!; [done|done| |].
    + simpl. lia.
    + simpl. rewrite rotations_snoc, Htr, !rotations_snoc. simpl. lia.
  - eexists. split; [reflexivity|]. split_and!; [done|done| |].
    + simpl. lia.
    + simpl. rewrite rotations_snoc. simpl. lia.
Qed.

(** *** The loop *)

Lemma retryLoop_exit env n a R lastError c :
  (R < a)%Z →
  retryLoop env n a R lastError c =
  Threw (default retriesExhausted lastError) c.
Proof. intros Hlt. destruct n; simpl; by case_decide; [lia|]. Qed.

Lemma retryLoop_step env n a R lastError c :
  (a ≤ R)%Z →
  retryLoop env (S n) a R lastError c =
  match attemptBody env a R c with
  | Returned (Some response) c' => Returned response c'
  | Returned None c' => retryLoop env n (a + 1)%Z R lastError c'
  | Threw error c' =>
      bind (attemptCatch env a R error)
        (fun lastError' => retryLoop env n (a + 1)%Z R (Some lastError')) c'
  | OutOfFuel => OutOfFuel
  end.
Proof. intros Hle. simpl. by case_decide. Qed.

(** *** The call always comes back *)



Lemma rotateFingerprint_settled env c :
  profiles (fingerprintManager c) ≠ [] → settled c (rotateFingerprint env c).
Proof.
  intros Hne.
  by destruct (rotateFingerprint_returns env c Hne)
    as (p & c' & -> & _ & _ & _ & _ & _ & Hst).
Qed.







(** [K] failed attempts, all before the last one: each is followed by one
    rotation, and the loop goes on at attempt [a + K]. *)
Lemma retryLoop_failures env R K :
  ∀ n a lastError c (err : nat → JsError),
    client c = true →
    profiles (fingerprintManager c) ≠ [] →
    (∀ i p, i < K → engine env (engineCalls c + i) p = EngineThrew (err i)) →
    (a + Z.of_nat K ≤ R)%Z →
    K ≤ n →
    ∃ c', stable c c' ∧ engineCalls c' = engineCalls c + K ∧
      poolCalls c' = poolCalls c + K + K * perRequest c ∧
      rotations (trace c') = rotations (trace c) + K ∧
      retryLoop env n a R lastError c =
      retryLoop env (n - K) (a + Z.of_nat K)%Z R
        (match K with 0 => lastError | S k => Some (err k) end) c'.
Proof.
  induction K as [|K IH]; intros n a lastError c err Hini Hne Heng Ha Hn.
  { exists c. rewrite Nat.sub_0_r, !Nat.add_0_r, Z.add_0_r. by split_and!. }
  destruct n as [|n]; [lia|].
  rewrite retryLoop_step by lia.
  assert (∀ p, engine env (engineCalls c) p = EngineThrew (err 0)) as H0.
  { intros p. specialize (Heng 0 p). rewrite Nat.add_0_r in Heng.
    apply Heng. lia. }
  destruct (attemptBody_fails env a R c (err 0) Hini Hne H0)
    as (c1 & -> & Hst1 & Hcalls1 & Hpool1 & Hrot1).
  assert (profiles (fingerprintManager c1) ≠ []) as Hne1
    by (destruct Hst1 as (_ & _ & ->); done).
  destruct (attemptCatch_returns env a R (err 0) c1 Hne1)
    as (c2 & Ec & Hst2 & Hcalls2 & Hpool2 & Hrot2).
  unfold bind. rewrite Ec.
  rewrite decide_True in Hrot2, Hpool2 by lia.
  assert (stable c c2) as Hst by (by eapply stable_trans).
  destruct (IH n (a + 1)%Z (Some (err 0)) c2 (fun i => err (S i)))
    as (c' & Hst' & Hcalls' & Hpool' & Hrot' & E).
  - destruct Hst as (-> & _). done.
  - destruct Hst as (_ & _ & ->). done.
  - intros i p Hi. rewrite Hcalls2, Hcalls1.
    replace (S (engineCalls c) + i) with (engineCalls c + S i) by lia.
    apply Heng. lia.
  - lia.
  - lia.
  - rewrite (perRequest_stable _ _ Hst) in Hpool'.
    exists c'. split_and!.
    + by eapply stable_trans.
    + lia.
    + lia.
    + lia.
    + rewrite E. simpl.
      replace (a + 1 + Z.of_nat K)%Z with (a + Z.pos (Pos.of_succ_nat K))%Z
        by lia.
      by destruct K.
Qed.

(** C1, as the code has it.  The bound R counts attempts.  For R >= 1 and
    an engine that throws on its first K calls and replies with a response
    that is not a challenge on call K+1: if K < R the response is returned
    after exactly K rotations by [rotateFingerprint]; if K >= R the error
    of the R-th call is raised after exactly R-1 rotations, none after the
    last attempt.  The pool is advanced once per rotation, and once more
    per request sent when rotation on every request is enabled.  For
    R <= 0 no request is made and nothing is rotated: the call raises its
    own "Request failed after max retries" error. *)
Theorem retry_rotates_once_per_failed_attempt
    env c (R : Z) (K : nat) (err : nat → JsError) raw :
  client c = true →
  profiles (fingerprintManager c) ≠ [] →
  (∀ i p, i < K → engine env (engineCalls c + i) p = EngineThrew (err i)) →
  (∀ p, engine env (engineCalls c + K) p = EngineReplied raw) →
  isCloudflareChallenge (parseResponse raw) = false →
  ((1 ≤ R)%Z → (Z.of_nat K < R)%Z →
     ∃ c', requestWithRetry env (Some R) c = Returned (parseResponse raw) c' ∧
       rotations (trace c') = rotations (trace c) + K ∧
       poolCalls c' = poolCalls c + K + (K + 1) * perRequest c) ∧
  ((1 ≤ R)%Z → (R ≤ Z.of_nat K)%Z →
     ∃ c', requestWithRetry env (Some R) c = Threw (err (Z.to_nat R - 1)) c' ∧
       rotations (trace c') = rotations (trace c) + (Z.to_nat R - 1) ∧
       poolCalls c' =
         poolCalls c + (Z.to_nat R - 1) + Z.to_nat R * perRequest c) ∧
  ((R ≤ 0)%Z → requestWithRetry env (Some R) c = Threw retriesExhausted c).
Proof.
  intros Hini Hne Hfail Hok Hclean. unfold requestWithRetry. simpl.
  split_and!.
  - intros HR HK.
    destruct (retryLoop_failures env R K (Z.to_nat R) 1 None c err)
      as (c1 & Hst & Hcalls & Hpool & Hrot & ->); [done|done|done|lia|lia|].
    destruct (Z.to_nat R - K) as [|n] eqn:Hn; [lia|].
    rewrite retryLoop_step by lia.
    destruct (attemptBody_succeeds env (1 + Z.of_nat K) R c1 raw)
      as (c2 & -> & _ & _ & Hpool2 & Hrot2).
    + by destruct Hst as (-> & _).
    + by destruct Hst as (_ & _ & ->).
    + intros p. rewrite Hcalls. apply Hok.
    + done.
    + rewrite (perRequest_stable _ _ Hst) in Hpool2.
      exists c2. split; [done|]. split; lia.
  - intros HR HK.
    set (k := Z.to_nat R - 1).
    destruct (retryLoop_failures env R k (Z.to_nat R) 1 None c err)
      as (c1 & Hst & Hcalls & Hpool & Hrot & ->); [done|done| |lia|lia|].
    { intros i p Hi. apply Hfail. lia. }
    replace (Z.to_nat R - k) with 1 by lia.
    rewrite retryLoop_step by lia.
    assert (client c1 = true) as Hini1 by (by destruct Hst as (-> & _)).
    assert (profiles (fingerprintManager c1) ≠ []) as Hne1
      by (by destruct Hst as (_ & _ & ->)).
    destruct (attemptBody_fails env (1 + Z.of_nat k) R c1 (err k) Hini1 Hne1)
      as (c2 & -> & Hst2 & _ & Hpool2 & Hrot2).
    { intros p. rewrite Hcalls. apply Hfail. lia. }
    assert (profiles (fingerprintManager c2) ≠ []) as Hne2
      by (by destruct Hst2 as (_ & _ & ->)).
    destruct (attemptCatch_returns env (1 + Z.of_nat k) R (err k) c2 Hne2)
      as (c3 & Ec & _ & _ & Hpool3 & Hrot3).
    unfold bind. rewrite Ec.
    rewrite decide_False in Hrot3, Hpool3 by lia.
    rewrite retryLoop_exit by lia.
    rewrite (perRequest_stable _ _ Hst) in Hpool2.
    exists c3. split; [done|]. split; [lia|].
    replace (Z.to_nat R) with (S k) by lia. lia.
  - intros HR. by rewrite retryLoop_exit by lia.
Qed.

(** *** Challenges *)







End WithJson.

(** *** The theorems on examples *)

Lemma sampleClient_constructed :
  initialise <$> new_HttpClient sampleConfig None None None 0
  = Some sampleClient.
Proof. by vm_compute. Qed.



(** The value of the server header is matched in any letter case; a
    [cf-ray] header without a value is not counted; a JSON body is searched in its
    serialised form. *)
Example server_header_any_case :
  isCloudflareChallenge (JR := nullJson)
    {| status := 403; body := BodyString "Forbidden";
       headers := {[ "server" := "CloudFlare" ]} |} = true.
Proof. by vm_compute. Qed.

Example empty_ray_is_no_marker :
  isCloudflareChallenge (JR := nullJson)
    {| status := 403; body := BodyString "Forbidden";
       headers := {[ "cf-ray" := EmptyString ]} |} = false.
Proof. by vm_compute. Qed.

Example json_body_is_serialised :
  isCloudflareChallenge (JR := nullJson)
    {| status := 503; body := BodyJson (tt : @Json nullJson);
       headers := ∅ |} = false.
Proof. by vm_compute. Qed.

(** Two failures, then a 200, with a bound of three attempts. *)
Lemma retry_rotates_once_per_failed_attempt_witness :
  ∃ c', requestWithRetry (flakyEngine 2) (Some 3%Z) sampleClient
          = Returned okResponse c' ∧
        rotations (trace c') = 2.
Proof.
  destruct (retry_rotates_once_per_failed_attempt
              (flakyEngine 2) sampleClient 3 2 socketError okResponse)
    as (Hok & _ & _).
  - done.
  - done.
  - intros i p Hi. simpl. by rewrite decide_True by (simpl; lia).
  - intros p. done.
  - by vm_compute.
  - destruct Hok as (c' & E & Hrot & _); [lia|lia|].
    exists c'. split; [exact E|exact Hrot].
Defined.

(** C1 as stated fails at the bound 0.  With an engine that would answer
    200 at once (K = 0, so K >= R): no request is made, the error raised
    is the call's own and not one the engine threw, and the number of
    rotations is 0, not R - 1. *)
Lemma retry_bound_zero_counterexample :
  let env := flakyEngine 0 in
  let R := 0%Z in
  let K := 0 in
  (R ≤ Z.of_nat K)%Z ∧
  requestWithRetry env (Some R) sampleClient
    = Threw retriesExhausted sampleClient ∧
  ¬ (∃ e c',
       requestWithRetry env (Some R) sampleClient = Threw e c' ∧
       (∃ i p, engine env i p = EngineThrew e) ∧
       Z.of_nat (rotations (trace c')) =
         (Z.of_nat (rotations (trace sampleClient)) + (R - 1))%Z).
Proof.
  intros env R K. split; [done|]. split; [done|].
  intros (e & c' & E & _ & Hrot).
  injection E as <- <-. vm_compute in Hrot. discriminate Hrot.
Qed.



End HttpProps.

(** * Properties of the session service *)

Module AuthProps.
Import Auth.

(** C7.  [isTokenValid(buffer)] with a token record present is true
    exactly when now < expiresAt - buffer: false at the boundary, true
    below it.  It is false without a token record, and the default buffer
    is 60000 ms. *)
Theorem isTokenValid_strict_boundary (buffer now : Z) (a : AuthService) :
  (∀ ti, tokenInfo (state a) = Some ti →
     (isTokenValid (Some buffer) now a = true ↔
        (now < expiresAt ti - buffer)%Z) ∧
     (now = (expiresAt ti - buffer)%Z →
        isTokenValid (Some buffer) now a = false)) ∧
  (tokenInfo (state a) = None → isTokenValid (Some buffer) now a = false) ∧
  isTokenValid None now a = isTokenValid (Some 60000%Z) now a.
Proof.
  unfold isTokenValid. simpl. split_and!; [|by intros ->|done].
  intros ti ->. split.
  - apply bool_decide_eq_true.
  - intros ->. apply bool_decide_eq_false. lia.
Qed.

Section WithJwt.
Context `{JW : JwtRuntime}.

(** *** Installing a token whose expiry does not decode *)

Lemma recordExpiry_undecodable token st :
  expiryDecodes token = false → recordExpiry token st = st.
Proof.
  unfold expiryDecodes, recordExpiry.
  destruct (jwtDecode token) as [| |[exp|]]; try done.
  case_decide; [done|]. by rewrite bool_decide_eq_false_2.
Qed.

(** The token record of the earlier token is kept. *)
Lemma setToken_undecodable token a :
  expiryDecodes token = false →
  currentToken (state (setToken token a)) = Some token ∧
  tokenInfo (state (setToken token a)) = tokenInfo (state a).
Proof.
  intros Hun. unfold setToken. simpl.
  by rewrite (recordExpiry_undecodable _ _ Hun).
Qed.

(** So the validity check goes on answering for the earlier token, and a
    refresh that is not forced hands out the new token without asking the
    provider. *)
Lemma stale_expiry_after_setToken token a now provider :
  expiryDecodes token = false →
  isTokenValid None now a = true →
  isTokenValid None now (setToken token a) = true ∧
  refreshToken false now provider (setToken token a)
    = Returned (Some token) (setToken token a).
Proof.
  intros Hun Hvalid.
  destruct (setToken_undecodable token a Hun) as [Hcur Hinfo].
  assert (isTokenValid None now (setToken token a) = true) as Hv.
  { unfold isTokenValid in *. by rewrite Hinfo. }
  split; [done|]. unfold refreshToken. rewrite Hv. cbn [negb andb].
  by rewrite Hcur.
Qed.

(** When no token record was there, the installed token is treated as
    invalid. *)
Lemma no_expiry_after_first_undecodable token a now buffer :
  expiryDecodes token = false →
  tokenInfo (state a) = None →
  isTokenValid buffer now (setToken token a) = false.
Proof.
  intros Hun Hnone.
  destruct (setToken_undecodable token a Hun) as [_ Hinfo].
  unfold isTokenValid. by rewrite Hinfo, Hnone.
Qed.

End WithJwt.

(** *** The theorems on examples *)

(** Token record with expiry at 100000 ms, buffer 60000 ms: valid before
    the 40-second mark, invalid from it on. *)
Lemma isTokenValid_strict_boundary_witness :
  let a := {| state := {| sid := None; currentToken := Some "t";
                          tokenInfo := Some {| jwt := "t"; expiresAt := 100000 |};
                          deviceId := "d"; cookies := ∅ |};
              clerkVersion := DEFAULT_CLERK_VERSION; onTokenRefresh := None;
              notified := []; requested := [] |} in
  isTokenValid None 39999 a = true ∧ isTokenValid None 40000 a = false.
Proof.
  intros a.
  destruct (isTokenValid_strict_boundary 60000 40000 a) as (Hti & _ & _).
  destruct (Hti {| jwt := "t"; expiresAt := 100000 |} eq_refl) as [_ Hb].
  split; [by vm_compute|]. by apply Hb.
Defined.

(** C5 fails on the code.  The service refreshes and gets the sample
    token, which expires at 2000000 ms.  At 1000000 ms a token whose expiry
    does not decode is installed by [setToken], or issued to a forced
    refresh: the token record of the sample token stays, the validity check
    answers true, and the next refresh that is not forced returns the new
    token without a request to the provider. *)
Theorem undecodable_token_inherits_old_expiry :
  let JW := sampleJwt in
  ∃ a1,
    refreshToken false 0 sampleProvider sampleService
      = Returned (Some sampleToken) a1 ∧
    tokenInfo (state a1) = Some {| jwt := sampleToken; expiresAt := 2000000 |} ∧
    (let a2 := setToken "not-a-jwt" a1 in
     expiryDecodes "not-a-jwt" = false ∧
     currentToken (state a2) = Some "not-a-jwt" ∧
     tokenInfo (state a2) = Some {| jwt := sampleToken; expiresAt := 2000000 |} ∧
     isTokenValid None 1000000 a2 = true ∧
     ∀ provider, refreshToken false 1000000 provider a2
                   = Returned (Some "not-a-jwt") a2) ∧
    (∃ a3,
       refreshToken true 1000000 (fun _ => Replied (Some "opaque")) a1
         = Returned (Some "opaque") a3 ∧
       expiryDecodes "opaque" = false ∧
       isTokenValid None 1000000 a3 = true ∧
       requested a3 = requested a1 ++ [tokenUrl a1 "sess_2a"] ∧
       ∀ provider, refreshToken false 1000000 provider a3
                     = Returned (Some "opaque") a3).
Proof.
  intros JW. eexists. split; [by vm_compute|]. split; [by vm_compute|].
  split.
  - split; [by vm_compute|]. split; [by vm_compute|].
    split; [by vm_compute|]. split; [by vm_compute|].
    intros provider. by vm_compute.
  - eexists. split; [by vm_compute|]. split; [by vm_compute|].
    split; [by vm_compute|]. split; [by vm_compute|].
    intros provider. by vm_compute.
Qed.

End AuthProps.

(** * Properties of the instance cache *)

Module CacheProps.
Import Cache.

Implicit Types (s : Sys) (p : nat) (k : string).

(** *** What one turn does *)

Lemma sunoApi_cached env_cookie arg k s p :
  keyOfCall env_cookie arg = Some k →
  cache s !! k = Some p →
  sunoApi env_cookie arg s = Returned (Shared p) s.
Proof. intros Hk Hc. unfold sunoApi. by rewrite Hk, Hc. Qed.

Lemma sunoApi_fresh env_cookie arg k s :
  keyOfCall env_cookie arg = Some k →
  cache s !! k = None →
  sunoApi env_cookie arg s =
  Returned (Started (length (promises s)))
    {| cache := <[k := length (promises s)]> (cache s);
       promises := promises s ++ [Pending];
       awaiting := awaiting s ++ [(length (promises s), k)] |}.
Proof. intros Hk Hc. unfold sunoApi. by rewrite Hk, Hc. Qed.

(** After a call, the cache holds the promise the call is tied to. *)
Lemma sunoApi_caches env_cookie arg k s r s' :
  keyOfCall env_cookie arg = Some k →
  sunoApi env_cookie arg s = Returned r s' →
  cache s' !! k = Some (promiseOf r).
Proof.
  intros Hk. unfold sunoApi. rewrite Hk.
  destruct (cache s !! k) as [p|] eqn:Hc; intros [= <- <-]; simpl.
  - done.
  - apply lookup_insert_eq.
Qed.

(** *** The invariant of the event loop *)

Lemma Inv_initial : Inv initial.
Proof.
  split; simpl.
  - intros k p H. by rewrite lookup_empty in H.
  - intros p k H. by apply not_elem_of_nil in H.
  - intros p k H. by apply not_elem_of_nil in H.
  - intros p k k' H. by apply not_elem_of_nil in H.
Qed.

Lemma Inv_sunoApi env_cookie arg s r s' :
  Inv s → sunoApi env_cookie arg s = Returned r s' → Inv s'.
Proof.
  intros [Hc Ha Hb Hu]. unfold sunoApi.
  destruct (keyOfCall env_cookie arg) as [k|]; [|done].
  destruct (cache s !! k) as [p|] eqn:Hk; intros [= <- <-]; [done|].
  split; simpl.
  - intros k' p'. rewrite lookup_insert. case_decide as Hkk.
    + intros [= <-]. left. subst. apply elem_of_app. right.
      by apply list_elem_of_singleton.
    + intros Hc'. destruct (Hc _ _ Hc') as [Hw|Hf].
      * left. apply elem_of_app. by left.
      * right. rewrite lookup_app_l; [done|]. by eapply lookup_lt_Some.
  - intros p' k' Hin. apply elem_of_app in Hin as [Hin|Hin].
    + rewrite lookup_insert_ne; [by apply Ha|].
      intros <-. apply Ha in Hin. congruence.
    + apply list_elem_of_singleton in Hin as [= -> ->].
      apply lookup_insert_eq.
  - intros p' k' Hin. rewrite length_app. simpl.
    apply elem_of_app in Hin as [Hin|Hin].
    + apply Hb in Hin. lia.
    + apply list_elem_of_singleton in Hin as [= -> ->]. lia.
  - intros p' k1 k2 H1 H2.
    apply elem_of_app in H1 as [H1|H1]; apply elem_of_app in H2 as [H2|H2].
    + by eapply Hu.
    + apply list_elem_of_singleton in H2 as [= -> ->]. apply Hb in H1. lia.
    + apply list_elem_of_singleton in H1 as [= -> ->]. apply Hb in H2. lia.
    + apply list_elem_of_singleton in H1 as [= -> ->].
      by apply list_elem_of_singleton in H2 as [= ->].
Qed.

Lemma Inv_settle p r s s' : Inv s → settle p r s = Some s' → Inv s'.
Proof.
  intros [Hc Ha Hb Hu]. unfold settle.
  destruct (promises s !! p) as [[| |]|] eqn:Hp; try done.
  intros [= <-]. split; simpl.
  - intros k p' Hc'. destruct (Hc _ _ Hc') as [Hw|Hf]; [by left|].
    right. rewrite list_lookup_insert_ne; [done|]. congruence.
  - done.
  - intros p' k Hin. rewrite length_insert. by eapply Hb.
  - done.
Qed.

Lemma Inv_resume p k s res s' :
  Inv s → resume p k s = Some (res, s') → Inv s'.
Proof.
  intros [Hc Ha Hb Hu]. unfold resume.
  case_decide as Hin; [|done].
  assert (∀ p' k1 k2,
            (p', k1) ∈ filter (fun w => w ≠ (p, k)) (awaiting s) →
            (p', k2) ∈ filter (fun w => w ≠ (p, k)) (awaiting s) →
            k1 = k2) as Hu'.
  { intros p' k1 k2 H1 H2.
    apply list_elem_of_filter in H1 as [_ H1].
    apply list_elem_of_filter in H2 as [_ H2]. by eapply Hu. }
  destruct (promises s !! p) as [[| |e]|] eqn:Hp; try done;
    intros [= <- <-]; split; simpl; try exact Hu'.
  - intros k' p' Hc'. destruct (Hc _ _ Hc') as [Hw|Hf]; [|by right].
    destruct (decide ((p', k') = (p, k))) as [[= -> ->]|Hne]; [by right|].
    left. by apply list_elem_of_filter.
  - intros p' k' Hin'. apply list_elem_of_filter in Hin' as [_ Hin'].
    by apply Ha.
  - intros p' k' Hin'. apply list_elem_of_filter in Hin' as [_ Hin'].
    by eapply Hb.
  - intros k' p'. rewrite lookup_delete. case_decide as Hkk; [done|].
    intros Hc'. destruct (Hc _ _ Hc') as [Hw|Hf]; [|by right].
    left. apply list_elem_of_filter. split; [congruence|done].
  - intros p' k' Hin'. apply list_elem_of_filter in Hin' as [Hne Hin'].
    rewrite lookup_delete_ne; [by apply Ha|].
    intros <-. apply Hne. f_equal.
    apply Ha in Hin, Hin'. congruence.
  - intros p' k' Hin'. apply list_elem_of_filter in Hin' as [_ Hin'].
    by eapply Hb.
Qed.

Lemma Inv_turn t s s' : Inv s → turn t s = Some s' → Inv s'.
Proof.
  intros HI. destruct t as [env_cookie arg|p r|p k]; simpl.
  - destruct (sunoApi env_cookie arg s) as [r s1|e s1|] eqn:E; [| |done].
    + intros [= <-]. by eapply Inv_sunoApi.
    + intros [= <-]. unfold sunoApi in E.
      destruct (keyOfCall env_cookie arg); [by destruct (cache s !! _)|].
      by injection E as _ <-.
  - by apply Inv_settle.
  - destruct (resume p k s) as [[res s1]|] eqn:E; [|done].
    intros [= <-]. by eapply Inv_resume.
Qed.

Lemma Inv_turns ts s s' : Inv s → turns ts s = Some s' → Inv s'.
Proof.
  revert s. induction ts as [|t ts IH]; intros s HI; simpl.
  - by intros [= <-].
  - destruct (turn t s) as [s1|] eqn:E; [|done].
    intros Hts. eapply IH; [|done]. by eapply Inv_turn.
Qed.

(** *** Promises settle once *)

Lemma turn_length t s s' :
  turn t s = Some s' → length (promises s) ≤ length (promises s').
Proof.
  destruct t as [env_cookie arg|p r|p k]; simpl.
  - unfold sunoApi. destruct (keyOfCall env_cookie arg) as [k|].
    + destruct (cache s !! k); intros [= <-]; simpl; [done|].
      rewrite length_app. simpl. lia.
    + by intros [= <-].
  - unfold settle. destruct (promises s !! p) as [[| |]|]; try done.
    intros [= <-]. simpl. by rewrite length_insert.
  - unfold resume. case_decide; [|done].
    destruct (promises s !! p) as [[| |]|]; try done; by intros [= <-].
Qed.

Lemma turn_pending_before t s s' p :
  turn t s = Some s' → p < length (promises s) →
  promises s' !! p = Some Pending → promises s !! p = Some Pending.
Proof.
  destruct t as [env_cookie arg|q r|q k]; simpl.
  - unfold sunoApi. destruct (keyOfCall env_cookie arg) as [k|].
    + destruct (cache s !! k); intros [= <-]; simpl; [done|].
      intros Hlt. by rewrite lookup_app_l.
    + by intros [= <-].
  - unfold settle. destruct (promises s !! q) as [[| |]|] eqn:Hq; try done.
    intros [= <-] Hlt. simpl.
    destruct (decide (q = p)) as [->|Hne].
    + rewrite list_lookup_insert_eq by done. by destruct r.
    + by rewrite list_lookup_insert_ne.
  - unfold resume. case_decide; [|done].
    destruct (promises s !! q) as [[| |]|]; try done; by intros [= <-].
Qed.

(** While a cached promise is pending its cache entry stays. *)
Lemma turn_keeps_pending_entry t s s' k p :
  Inv s → cache s !! k = Some p → turn t s = Some s' →
  promises s' !! p = Some Pending → cache s' !! k = Some p.
Proof.
  intros HI Hc. destruct t as [env_cookie arg|q r|q k']; simpl.
  - unfold sunoApi. destruct (keyOfCall env_cookie arg) as [k'|].
    + destruct (cache s !! k') eqn:Hk'; intros [= <-]; simpl; [done|].
      intros _. rewrite lookup_insert_ne; [done|]. congruence.
    + by intros [= <-].
  - unfold settle. destruct (promises s !! q) as [[| |]|]; try done.
    by intros [= <-].
  - unfold resume. case_decide as Hin; [|done].
    destruct (promises s !! q) as [[| |e]|] eqn:Hq; try done;
      intros [= <-]; simpl; [done|].
    intros Hp. rewrite lookup_delete_ne; [done|].
    intros ->. apply (inv_awaiting s HI) in Hin. congruence.
Qed.

Lemma Inv_cached_bound s k p :
  Inv s → cache s !! k = Some p → p < length (promises s).
Proof.
  intros HI Hc. destruct (inv_cached s HI _ _ Hc) as [Hw|Hf].
  - by eapply inv_bound.
  - by eapply lookup_lt_Some.
Qed.

Lemma turns_pending_before ts s s' p :
  turns ts s = Some s' → p < length (promises s) →
  promises s' !! p = Some Pending → promises s !! p = Some Pending.
Proof.
  revert s. induction ts as [|t ts IH]; intros s; simpl.
  { by intros [= <-]. }
  destruct (turn t s) as [s1|] eqn:E; [|done].
  intros Hts Hlt Hp.
  eapply turn_pending_before; [exact E|done|].
  eapply IH; [done| |done]. apply turn_length in E. lia.
Qed.

Lemma turns_keep_pending_entry ts s s' k p :
  Inv s → cache s !! k = Some p → turns ts s = Some s' →
  promises s' !! p = Some Pending → cache s' !! k = Some p.
Proof.
  revert s. induction ts as [|t ts IH]; intros s HI Hc; simpl.
  { by intros [= <-]. }
  destruct (turn t s) as [s1|] eqn:E; [|done].
  intros Hts Hp.
  assert (p < length (promises s1)) as Hlt.
  { pose proof (Inv_cached_bound s k p HI Hc). apply turn_length in E. lia. }
  eapply IH; [by eapply Inv_turn| |done|done].
  eapply turn_keeps_pending_entry; [done..|].
  by eapply turns_pending_before.
Qed.

(** *** A rejection that has propagated *)

Lemma propagated_turn t s s' p :
  propagated p s → turn t s = Some s' → propagated p s'.
Proof.
  intros Hpr. pose proof Hpr as [[e He] Hw].
  assert (p < length (promises s)) as Hlt by (by eapply lookup_lt_Some).
  destruct t as [env_cookie arg|q r|q k']; simpl.
  - unfold sunoApi. destruct (keyOfCall env_cookie arg) as [k'|].
    + destruct (cache s !! k'); intros [= <-]; [done|].
      split; simpl.
      * exists e. by rewrite lookup_app_l.
      * intros k Hin. apply elem_of_app in Hin as [Hin|Hin]; [by eapply Hw|].
        apply list_elem_of_singleton in Hin as [= -> ->]. lia.
    + by intros [= <-].
  - unfold settle. destruct (promises s !! q) as [[| |]|] eqn:Hq; try done.
    intros [= <-]. split; simpl; [|done].
    exists e. rewrite list_lookup_insert_ne; [done|]. congruence.
  - unfold resume. case_decide; [|done].
    destruct (promises s !! q) as [[| |]|]; try done;
      intros [= <-]; (split; simpl; [by exists e|]);
      intros k Hin; apply list_elem_of_filter in Hin as [_ Hin];
      by eapply Hw.
Qed.

Lemma propagated_turns ts s s' p :
  propagated p s → turns ts s = Some s' → propagated p s'.
Proof.
  revert s. induction ts as [|t ts IH]; intros s Hp; simpl.
  { by intros [= <-]. }
  destruct (turn t s) as [s1|] eqn:E; [|done].
  apply IH. by eapply propagated_turn.
Qed.

(** No call is tied to a rejection that has propagated. *)
Lemma propagated_not_received env_cookie arg s r s' p :
  Inv s → propagated p s →
  sunoApi env_cookie arg s = Returned r s' → promiseOf r ≠ p.
Proof.
  intros HI [[e He] Hw]. unfold sunoApi.
  destruct (keyOfCall env_cookie arg) as [k|]; [|done].
  destruct (cache s !! k) as [q|] eqn:Hc; intros [= <- <-]; simpl.
  - intros ->. destruct (inv_cached s HI _ _ Hc) as [Hin|Hf].
    + by eapply Hw.
    + congruence.
  - apply lookup_lt_Some in He. lia.
Qed.

(** C10.  In every state the event loop reaches by calls of the factory,
    settlements of init promises and resumptions of suspended calls:
    a call is tied to one init promise, and while that promise is pending
    every call with the same key is handed that same promise, no new init
    being started; when the init promise of a suspended call is rejected,
    the call on resuming deletes the cache entry of its key and rethrows
    the error, the next call with that key starts a new init, and no later
    call is ever tied to the rejected promise. *)
Theorem cache_shares_in_flight_and_forgets_failures ts s :
  turns ts initial = Some s →
  (∀ env1 arg1 env2 arg2 k r1 s1 ts2 s2,
     keyOfCall env1 arg1 = Some k →
     keyOfCall env2 arg2 = Some k →
     sunoApi env1 arg1 s = Returned r1 s1 →
     turns ts2 s1 = Some s2 →
     promises s2 !! promiseOf r1 = Some Pending →
     sunoApi env2 arg2 s2 = Returned (Shared (promiseOf r1)) s2) ∧
  (∀ p k e,
     (p, k) ∈ awaiting s →
     promises s !! p = Some (Rejected e) →
     ∃ s',
       resume p k s = Some (Propagated e, s') ∧
       cache s' !! k = None ∧
       (∀ env arg, keyOfCall env arg = Some k →
          ∃ s'', sunoApi env arg s' =
                   Returned (Started (length (promises s'))) s'' ∧
                 promises s'' !! length (promises s') = Some Pending) ∧
       (∀ ts2 s2 env arg r s3,
          turns ts2 s' = Some s2 →
          sunoApi env arg s2 = Returned r s3 →
          promiseOf r ≠ p)).
Proof.
  intros Hreach.
  assert (Inv s) as HI by (eapply Inv_turns; [apply Inv_initial|done]).
  split.
  - intros env1 arg1 env2 arg2 k r1 s1 ts2 s2 Hk1 Hk2 E1 Hts Hp.
    apply (sunoApi_cached _ _ k); [done|].
    eapply (turns_keep_pending_entry ts2 s1 s2 k); [|  |done|done].
    + by eapply Inv_sunoApi.
    + by eapply (sunoApi_caches env1 arg1 k s).
  - intros p k e Hin Hp.
    destruct (resume p k s) as [[res s']|] eqn:E.
    2: { unfold resume in E. rewrite decide_True, Hp in E by done. done. }
    assert (Inv s') as HI' by (by eapply Inv_resume).
    unfold resume in E. rewrite decide_True, Hp in E by done.
    injection E as <- <-.
    eexists. split; [done|]. split; [by apply lookup_delete_eq|].
    assert (propagated p
              {| cache := delete k (cache s); promises := promises s;
                 awaiting := filter (fun w => w ≠ (p, k)) (awaiting s) |})
      as Hprop.
    { split; simpl; [by exists e|].
      intros k' Hin'. apply list_elem_of_filter in Hin' as [Hne Hin'].
      apply Hne. f_equal.
      by eapply (inv_one_key s HI). }
    split.
    + intros env arg Hk. eexists. split.
      * apply (sunoApi_fresh _ _ k); [done|]. by apply lookup_delete_eq.
      * simpl. by rewrite lookup_app_r, Nat.sub_diag by lia.
    + intros ts2 s2 env arg r s3 Hts Hcall.
      eapply propagated_not_received; [| |done].
      * by eapply Inv_turns.
      * by eapply propagated_turns.
Qed.

(** *** The theorem on an example *)

(** Two calls with one cookie while the init is pending share it; the
    init fails; the suspended call resumes, and the next call starts
    afresh. *)
Lemma cache_shares_in_flight_and_forgets_failures_witness :
  let arg := ArgCookie "__client=abc; __session=xyz" in
  let k := "__client=abc; __session=xyz:no-proxy" in
  let boom := Error "Failed to get session ID. Please update SUNO_COOKIE" in
  ∃ s1 s2 s3,
    sunoApi None arg initial = Returned (Started 0) s1 ∧
    sunoApi None arg s1 = Returned (Shared 0) s1 ∧
    turns [TCall None arg; TSettle 0 (Some boom)] initial = Some s2 ∧
    resume 0 k s2 = Some (Propagated boom, s3) ∧
    cache s3 !! k = None ∧
    ∃ s4, sunoApi None arg s3 = Returned (Started 1) s4.
Proof.
  intros arg k boom.
  assert (keyOfCall None arg = Some k) as Hk by (by vm_compute).
  destruct (sunoApi None arg initial) as [r1 s1|e s1|] eqn:E1;
    [|by vm_compute in E1..].
  assert (r1 = Started 0) as -> by (vm_compute in E1; congruence).
  destruct (turns [TCall None arg; TSettle 0 (Some boom)] initial)
    as [s2|] eqn:E2; [|by vm_compute in E2].
  destruct (cache_shares_in_flight_and_forgets_failures [] initial eq_refl)
    as [Hshare _].
  destruct (cache_shares_in_flight_and_forgets_failures _ s2 E2)
    as [_ Hfail].
  destruct (Hfail 0 k boom) as (s3 & Hres & Hgone & Hnext & _).
  { vm_compute in E2. injection E2 as <-. simpl.
    apply list_elem_of_singleton. done. }
  { vm_compute in E2. by injection E2 as <-. }
  destruct (Hnext None arg Hk) as (s4 & E4 & _).
  assert (length (promises s3) = 1) as Hlen.
  { vm_compute in E2. injection E2 as <-.
    unfold resume in Hres. rewrite decide_True in Hres
      by (simpl; by apply list_elem_of_singleton).
    simpl in Hres. by injection Hres as <-. }
  rewrite Hlen in E4.
  exists s1, s2, s3. split; [done|]. split.
  - apply (Hshare None arg None arg k (Started 0) s1 [] s1 Hk Hk E1 eq_refl).
    vm_compute in E1. by injection E1 as <-.
  - split; [done|]. split; [done|]. split; [done|]. by exists s4.
Defined.

(** [clearSunoApiCache] is not a turn of the loop above: it is an
    eviction, after which a call with the key of a pending init starts a
    second one. *)
Remark clear_evicts_pending_init :
  let arg := ArgCookie "__client=abc" in
  ∃ s1 s2,
    sunoApi None arg initial = Returned (Started 0) s1 ∧
    sunoApi None arg (clearSunoApiCache s1) = Returned (Started 1) s2 ∧
    promises s2 !! 0 = Some Pending.
Proof. intros arg. eexists _, _. split_and!; by vm_compute. Qed.

End CacheProps.

(** * More on the string operations *)

Module StringMore.
Import JsString.

Lemma split_nonempty sep s : split sep s ≠ [].
Proof.
  destruct s as [|c s]; simpl; [done|].
  case_decide; [done|]. by destruct (split sep s).
Qed.

(** Joining the pieces with the separator gives the string back. *)
Lemma join_split sep s :
  join (String sep EmptyString) (split sep s) = s.
Proof.
  induction s as [|c s IH]; simpl; [done|].
  pose proof (split_nonempty sep s) as Hne.
  case_decide as Hc.
  - subst c. destruct (split sep s) as [|p r] eqn:E; [done|].
    cbn [join]. cbn [join] in IH. by rewrite IH.
  - destruct (split sep s) as [|p r] eqn:E; [done|].
    destruct r as [|q r]; simpl in *; by rewrite <-IH.
Qed.

(** No piece contains the separator. *)
Lemma split_pieces_clean sep s :
  Forall (fun piece => hasChar sep piece = false) (split sep s).
Proof.
  induction s as [|c s IH]; simpl.
  { by constructor. }
  case_decide as Hc.
  - by constructor.
  - destruct (split sep s) as [|p r]; [by repeat constructor; simpl;
      rewrite bool_decide_eq_false_2|].
    inversion IH as [|? ? Hp Hr]; subst. constructor; [|done].
    simpl. by rewrite bool_decide_eq_false_2.
Qed.

Lemma split_clean sep s : hasChar sep s = false → split sep s = [s].
Proof.
  induction s as [|c s IH]; simpl; [done|].
  intros H. apply orb_false_iff in H as [Hc Hs].
  apply bool_decide_eq_false in Hc.
  rewrite decide_False by done. by rewrite IH.
Qed.

Lemma split_app_sep sep a b :
  hasChar sep a = false →
  split sep (a +:+ String sep b) = a :: split sep b.
Proof.
  induction a as [|c a IH]; simpl.
  { intros _. by rewrite decide_True. }
  intros H. apply orb_false_iff in H as [Hc Ha].
  apply bool_decide_eq_false in Hc.
  rewrite decide_False by done. by rewrite IH.
Qed.

(** Splitting a join of clean pieces gives the pieces back. *)
Lemma split_join sep pieces :
  pieces ≠ [] →
  Forall (fun piece => hasChar sep piece = false) pieces →
  split sep (join (String sep EmptyString) pieces) = pieces.
Proof.
  induction pieces as [|p r IH]; [done|]. intros _ Hall.
  inversion Hall as [|? ? Hp Hr]; subst.
  destruct r as [|q r].
  - simpl. by apply split_clean.
  - cbn [join]. change (String sep EmptyString +:+ ?x) with (String sep x).
    rewrite split_app_sep by done. f_equal. by apply IH.
Qed.

End StringMore.

(** * More on the fingerprint rotation manager *)

Module PoolMore.
Import Fingerprints.

Implicit Types (m : FingerprintManager) (p q : FingerprintProfile).

(** *** What a call of [getNextProfile] gives and records *)

(** The step that picks the profile, when something is available. *)
Lemma getNextProfile_picks fuel now rnd m p m' :
  getAvailableProfiles m ≠ [] →
  getNextProfile (S fuel) now rnd m = Returned p m' →
  ∃ m1,
    p ∈ getAvailableProfiles m ∧
    usageCount (state m1) = usageCount (state m) ∧
    blockedProfiles (state m1) = blockedProfiles (state m) ∧
    profiles m1 = profiles m ∧
    preferredPlatform m1 = preferredPlatform m ∧
    m' = set_state
           (set_lastRotation now
              (set_usageCount
                 (<[id p := usageOf m p + 1]> (usageCount (state m)))
                 (state m1))) m1.
Proof.
  intros Hne. simpl. case_decide as Hlen.
  { destruct (getAvailableProfiles m); [done|simpl in Hlen; lia]. }
  destruct (strategy m).
  - simpl. destruct (_ !! _) as [x|] eqn:Hx; [|done].
    intros [= <- <-]. exists (incrementIndex m).
    split; [by eapply list_elem_of_lookup_2|done].
  - destruct (_ !! _) as [x|] eqn:Hx; [|done].
    intros [= <- <-]. exists m.
    split; [by eapply list_elem_of_lookup_2|done].
  - destruct (PoolProps.getLeastUsedProfile_spec m _ Hne)
      as (i & x & Hx & Hi & _).
    rewrite Hx. intros [= <- <-]. exists m.
    split; [by eapply list_elem_of_lookup_2|done].
  - destruct (PoolProps.platformSticky_Some m _ Hne) as (x & Hx & Hin).
    rewrite Hx. intros [= <- <-]. by exists (incrementIndex m).
Qed.

Lemma available_prefers m pp p q :
  preferredPlatform m = Some pp →
  q ∈ profiles m → id q ∉ blockedProfiles (state m) → platform q = pp →
  p ∈ getAvailableProfiles m → platform p = pp.
Proof.
  intros Hpp Hq Hnb Hplat. unfold getAvailableProfiles. rewrite Hpp.
  case_decide as Hlen.
  - intros Hp. by apply list_elem_of_filter in Hp as [? _].
  - exfalso. apply Hlen.
    assert (q ∈ filter (fun p => platform p = pp)
                  (filter (fun p => id p ∉ blockedProfiles (state m))
                     (profiles m))) as Hin
      by (by rewrite !list_elem_of_filter).
    destruct (filter _ _); [by apply not_elem_of_nil in Hin|simpl; lia].
Qed.

(** Everything a returning call fixes about the profile and the state. *)
Lemma getNextProfile_records fuel now rnd m p m' :
  getNextProfile fuel now rnd m = Returned p m' →
  p ∈ profiles m ∧
  (id p ∉ blockedProfiles (state m')) ∧
  (usageCount (state m') =
     <[id p := usageOf m p + 1]> (usageCount (state m))) ∧
  lastRotation (state m') = now ∧
  (∀ pp q, preferredPlatform m = Some pp →
     q ∈ profiles m → id q ∉ blockedProfiles (state m') → platform q = pp →
     platform p = pp).
Proof.
  revert m. induction fuel as [|fuel IH]; intros m; [done|].
  destruct (decide (getAvailableProfiles m = [])) as [He|Hne].
  - rewrite PoolProps.getNextProfile_unfold_blocked by done.
    intros E. apply IH in E as (Hin & Hnb & Hu & Ht & Hpp). by split_and!.
  - intros E.
    destruct (getNextProfile_picks fuel now rnd m p m' Hne E)
      as (m1 & Hin & Hu1 & Hb1 & Hp1 & Hpp1 & ->).
    apply PoolProps.available_elem in Hin as Hin'. destruct Hin' as [Hcat Hnb].
    simpl. rewrite Hb1. split_and!; [done..|].
    intros pp q Hpp Hq Hqnb Hplat. by eapply available_prefers.
Qed.

(** X1.  A call of [getNextProfile] that returns counts one more use for
    the id of the returned profile, leaves the count of every other id as
    it was, and stamps the rotation with the clock. *)
Theorem next_counts_the_returned_profile fuel now rnd m p m' :
  getNextProfile fuel now rnd m = Returned p m' →
  usageOf m' p = usageOf m p + 1 ∧
  (∀ q, id q ≠ id p → usageOf m' q = usageOf m q) ∧
  lastRotation (state m') = now.
Proof.
  intros E. apply getNextProfile_records in E as (_ & _ & Hu & Ht & _).
  unfold usageOf. rewrite Hu. split_and!; [|..|done].
  - by rewrite lookup_insert_eq.
  - intros q Hq. by rewrite lookup_insert_ne.
Qed.

Lemma next_counts_the_returned_profile_witness :
  let m := new_FingerprintManager None None None 0 in
  ∃ m', getNextProfile 1 42 0 m = Returned GALAXY_S24_CHROME_130 m' ∧
        usageOf m' GALAXY_S24_CHROME_130 = 1 ∧
        usageOf m' PIXEL_8_CHROME_130 = 0 ∧
        lastRotation (state m') = 42%Z.
Proof.
  intros m.
  assert (∃ m', getNextProfile 1 42 0 m = Returned GALAXY_S24_CHROME_130 m')
    as [m' E] by (vm_compute; eauto).
  destruct (next_counts_the_returned_profile 1 42 0 m _ m' E)
    as (Hp & Hq & Ht).
  exists m'. split_and!; [done| | |done].
  - by rewrite Hp.
  - by rewrite (Hq PIXEL_8_CHROME_130).
Defined.

(** X2.  The profile [getNextProfile] returns is a profile of the catalog
    whose id is not blocked when the call returns; and when a platform is
    preferred and some catalog profile of that platform is not blocked,
    the returned profile is of that platform. *)
Theorem next_is_unblocked_and_preferred fuel now rnd m p m' :
  getNextProfile fuel now rnd m = Returned p m' →
  p ∈ profiles m ∧
  (id p ∉ blockedProfiles (state m')) ∧
  (∀ pp q, preferredPlatform m = Some pp →
     q ∈ profiles m → id q ∉ blockedProfiles (state m') → platform q = pp →
     platform p = pp).
Proof.
  intros E. apply getNextProfile_records in E as (? & ? & _ & _ & ?). done.
Qed.

Lemma next_is_unblocked_and_preferred_witness :
  let m := blockProfile "iphone15-safari17"
             (new_FingerprintManager (Some random) (Some ios) None 0) in
  ∃ m', getNextProfile 1 7 5 m = Returned IPHONE_14_SAFARI_17 m'.
Proof.
  intros m.
  assert (∃ p m', getNextProfile 1 7 5 m = Returned p m')
    as (p & m' & E) by (vm_compute; eauto).
  destruct (next_is_unblocked_and_preferred 1 7 5 m p m' E)
    as (Hin & Hnb & Hpref).
  assert (platform p = ios) as Hios.
  { apply (Hpref ios IPHONE_14_SAFARI_17); [done| |  |done].
    - change (IPHONE_14_SAFARI_17 ∈ FINGERPRINT_PROFILES).
      unfold FINGERPRINT_PROFILES. do 5 apply list_elem_of_further.
      apply list_elem_of_here.
    - vm_compute in E. injection E as _ <-. vm_compute. set_solver. }
  exists m'. rewrite E. f_equal.
  vm_compute in E. by injection E as <- _.
Defined.

(** X3.  Under the platform-sticky strategy the returned profile has the
    platform of the available profile the cursor points at, and is itself
    available: the rotation stays on one platform (the round-robin
    fallback of the source is never reached). *)
Theorem sticky_stays_on_platform fuel now rnd m p m' :
  strategy m = platform_sticky →
  getAvailableProfiles m ≠ [] →
  getNextProfile (S fuel) now rnd m = Returned p m' →
  ∃ cur,
    getAvailableProfiles m !!
      (currentIndex (state m) `mod` length (getAvailableProfiles m)) = Some cur ∧
    platform p = platform cur ∧
    p ∈ getAvailableProfiles m ∧
    currentIndex (state m') = S (currentIndex (state m)).
Proof.
  intros Hs Hne. simpl. case_decide as Hlen.
  { destruct (getAvailableProfiles m); [done|simpl in Hlen; lia]. }
  rewrite Hs. unfold getPlatformStickyProfile.
  destruct (PoolProps.lookup_mod_is_Some (getAvailableProfiles m)
              (currentIndex (state m)) Hne) as (cur & Hcur & Hin).
  rewrite Hcur. simpl.
  set (same := filter (fun q => platform q = platform cur)
                 (getAvailableProfiles m)).
  assert (cur ∈ same) as Hsame by (by apply list_elem_of_filter).
  case_decide as Hl.
  - destruct (same !! _) as [x|] eqn:Hx; [|done].
    intros [= <- <-]. exists cur.
    apply list_elem_of_lookup_2 in Hx.
    apply list_elem_of_filter in Hx as [Hplat Hxin]. by split_and!.
  - exfalso. destruct same; [by apply not_elem_of_nil in Hsame|].
    simpl in Hl. lia.
Qed.

Lemma sticky_stays_on_platform_witness :
  let m := setStrategy platform_sticky
             (new_FingerprintManager None None None 0) in
  ∃ m', getNextProfile 1 3 0 m = Returned GALAXY_S24_CHROME_130 m' ∧
        platform GALAXY_S24_CHROME_130 = platform PIXEL_8_CHROME_130.
Proof.
  intros m.
  assert (∃ m', getNextProfile 1 3 0 m = Returned GALAXY_S24_CHROME_130 m')
    as [m' E] by (vm_compute; eauto).
  destruct (sticky_stays_on_platform 0 3 0 m GALAXY_S24_CHROME_130 m' eq_refl) as (cur & Hcur & Hp & _).
  - by vm_compute.
  - exact E.
  - exists m'. split; [done|].
    vm_compute in Hcur. injection Hcur as <-. exact Hp.
Defined.

(** *** Looking a profile up *)

(** X4.  [getProfileById] gives the first profile of the catalog with the
    id, and nothing exactly when no profile of the catalog has the id; in
    a catalog of unique ids it gives back every profile from its id. *)
Theorem getProfileById_finds_first m :
  (∀ i p, getProfileById i m = Some p →
     id p = i ∧
     ∃ k, profiles m !! k = Some p ∧
          ∀ j q, j < k → profiles m !! j = Some q → id q ≠ i) ∧
  (∀ i, getProfileById i m = None ↔ i ∉ catalogIds m) ∧
  (NoDup (id <$> profiles m) →
   ∀ p, p ∈ profiles m → getProfileById (id p) m = Some p).
Proof.
  unfold getProfileById, catalogIds. split_and!.
  - intros i p.
    destruct (list_find _ _) as [[k x]|] eqn:E; [|done].
    simpl. intros [= <-].
    apply list_find_Some in E as (Hk & Hid & Hfirst).
    split; [done|]. exists k. split; [done|].
    intros j q Hj Hq. by eapply Hfirst.
  - intros i. destruct (list_find _ _) as [[k x]|] eqn:E; simpl.
    + apply list_find_Some in E as (Hk & Hid & _).
      split; [done|]. intros Hnot. exfalso. apply Hnot.
      apply elem_of_list_to_set, list_elem_of_fmap.
      exists x. split; [done|]. by eapply list_elem_of_lookup_2.
    + split; [|done]. intros _.
      apply list_find_None in E.
      rewrite elem_of_list_to_set, list_elem_of_fmap.
      intros (x & -> & Hx).
      by eapply (proj1 (Forall_forall _ _) E x Hx).
  - intros Hnd p Hp.
    destruct (list_find _ _) as [[k x]|] eqn:E; simpl.
    + apply list_find_Some in E as (Hk & Hid & _).
      apply list_elem_of_lookup_1 in Hp as [j Hj].
      f_equal.
      assert (k = j) as ->; [|congruence].
      eapply (NoDup_lookup _ _ _ _ Hnd).
      * by rewrite list_lookup_fmap, Hk.
      * by rewrite list_lookup_fmap, Hj, Hid.
    + apply list_find_None in E. exfalso.
      by eapply (proj1 (Forall_forall _ _) E p Hp).
Qed.

Lemma getProfileById_finds_first_witness :
  getProfileById (id IPHONE_14_SAFARI_17)
    (new_FingerprintManager None None None 0) = Some IPHONE_14_SAFARI_17.
Proof.
  apply (proj2 (proj2 (getProfileById_finds_first
                         (new_FingerprintManager None None None 0)))).
  - apply (bool_decide_unpack _). by vm_compute.
  - apply (bool_decide_unpack _). by vm_compute.
Defined.

(** *** Blocking and unblocking *)

(** X5.  A blocked id makes every profile with that id unavailable;
    unblocking it undoes the block: on a manager in which the id was not
    blocked, block followed by unblock gives the manager back. *)
Theorem unblock_undoes_block m i :
  (∀ p, id p = i → p ∉ getAvailableProfiles (blockProfile i m)) ∧
  (∀ p, p ∈ profiles m → id p = i → preferredPlatform m = None →
        p ∈ getAvailableProfiles (unblockProfile i m)) ∧
  (i ∉ blockedProfiles (state m) → unblockProfile i (blockProfile i m) = m).
Proof.
  split_and!.
  - intros p Hid Hin. apply PoolProps.available_elem in Hin as [_ Hnb].
    apply Hnb. simpl. set_solver.
  - intros p Hin Hid Hpp. unfold getAvailableProfiles.
    rewrite (eq_refl : preferredPlatform (unblockProfile i m)
                       = preferredPlatform m), Hpp.
    apply list_elem_of_filter. split; [|done]. simpl. set_solver.
  - intros Hnb. unfold unblockProfile, blockProfile, set_state. simpl.
    destruct m as [ps [ci uc lr bp] st pp]. simpl in *.
    unfold set_blockedProfiles. simpl. do 2 f_equal. set_solver.
Qed.

Lemma unblock_undoes_block_witness :
  unblockProfile "pixel8-chrome130"
    (blockProfile "pixel8-chrome130" (new_FingerprintManager None None None 0))
  = new_FingerprintManager None None None 0.
Proof.
  apply (proj2 (proj2 (unblock_undoes_block
                         (new_FingerprintManager None None None 0)
                         "pixel8-chrome130"))).
  simpl. apply not_elem_of_empty.
Defined.

(** *** Usage statistics *)

Lemma totalUsage_increment (u : gmap string nat) k :
  totalUsage (<[k := default 0 (u !! k) + 1]> u) = totalUsage u + 1.
Proof.
  unfold totalUsage.
  assert (∀ z1 z2 y : nat, z1 + (z2 + y) = z2 + (z1 + y))
    as Hcomm by (intros; lia).
  destruct (u !! k) as [c|] eqn:E; simpl.
  - rewrite <- insert_delete_eq.
    rewrite map_fold_insert_L;
      [|intros; apply Hcomm|apply lookup_delete_eq].
    rewrite <- (insert_delete_id u k c E) at 2.
    rewrite map_fold_insert_L;
      [|intros; apply Hcomm|apply lookup_delete_eq].
    lia.
  - rewrite map_fold_insert_L; [lia|intros; apply Hcomm|done].
Qed.

Lemma totalUsage_zero (u : gmap string nat) :
  (∀ k v, u !! k = Some v → v = 0) → totalUsage u = 0.
Proof.
  unfold totalUsage.
  induction u as [|k v u Hk Hfold IH] using map_first_key_ind; intros Hz.
  - apply map_fold_empty.
  - rewrite map_fold_insert_first_key by done.
    rewrite IH.
    + rewrite (Hz k v); [done|apply lookup_insert_eq].
    + intros k' v' Hk'. apply (Hz k'). rewrite lookup_insert_ne; [done|].
      intros ->. congruence.
Qed.

Lemma initial_usage (ps : list FingerprintProfile) (u : gmap string nat) :
  dom (foldl (fun u p => <[id p := 0]> u) u ps)
    = list_to_set (id <$> ps) ∪ dom u ∧
  ∀ k v, foldl (fun u p => <[id p := 0]> u) u ps !! k = Some v →
         v = 0 ∨ u !! k = Some v.
Proof.
  revert u. induction ps as [|p ps IH]; intros u; simpl.
  - split; [set_solver|auto].
  - destruct (IH (<[id p := 0]> u)) as [Hd Hv]. split.
    + rewrite Hd, dom_insert_L. set_solver.
    + intros k v Hk. destruct (Hv k v Hk) as [?|Hl]; [by left|].
      destruct (decide (id p = k)) as [Heq|Hne].
      * subst k. rewrite lookup_insert_eq in Hl. left. congruence.
      * rewrite lookup_insert_ne in Hl by done. by right.
Qed.

Lemma getNextProfile_keeps_catalog fuel now rnd m p m' :
  getNextProfile fuel now rnd m = Returned p m' → profiles m' = profiles m.
Proof.
  revert m. induction fuel as [|fuel IH]; intros m; [done|].
  destruct (decide (getAvailableProfiles m = [])) as [He|Hne].
  - rewrite PoolProps.getNextProfile_unfold_blocked by done.
    intros E. by apply IH in E.
  - intros E.
    destruct (getNextProfile_picks _ _ _ _ _ _ Hne E)
      as (m1 & _ & _ & _ & Hp & _ & ->).
    exact Hp.
Qed.

(** What the statistics keep along one call. *)
Lemma afterCall_stats call m m' :
  afterCall 2 call m = Some m' →
  profiles m' = profiles m ∧
  (dom (usageCount (state m)) = catalogIds m →
   dom (usageCount (state m')) = dom (usageCount (state m))) ∧
  totalUsage (usageCount (state m'))
    = totalUsage (usageCount (state m)) + (if isNext call then 1 else 0).
Proof.
  destruct call as [|now rnd|i|i| |s]; unfold afterCall, isNext.
  - intros [= <-]. unfold getCurrentProfile.
    case_decide; simpl; (split_and!; [done|done|lia]).
  - destruct (decide (profiles m = [])) as [Hnil|Hne].
    { by rewrite (PoolProps.getNextProfile_empty_catalog 2 now rnd m Hnil). }
    destruct (PoolProps.getNextProfile_returns m now rnd 0 Hne)
      as (p & m2 & E & _).
    change (2 + 0) with 2 in E. rewrite E. intros [= <-].
    destruct (getNextProfile_records _ _ _ _ _ _ E) as (Hpin & _ & Hu & _).
    rewrite Hu. split_and!.
    + by eapply getNextProfile_keeps_catalog.
    + intros Hd. rewrite dom_insert_L.
      assert (id p ∈ catalogIds m); [|set_solver].
      apply elem_of_list_to_set, list_elem_of_fmap. by exists p.
    + apply totalUsage_increment.
  - intros [= <-]. simpl. split_and!; [done|done|lia].
  - intros [= <-]. simpl. split_and!; [done|done|lia].
  - intros [= <-]. simpl. split_and!; [done|done|lia].
  - intros [= <-]. simpl. split_and!; [done|done|lia].
Qed.

Lemma afterCall_returns call m :
  profiles m ≠ [] → ∃ m', afterCall 2 call m = Some m'.
Proof.
  intros Hne. destruct call as [|now rnd|i|i| |s]; simpl; try by eexists.
  destruct (PoolProps.getNextProfile_returns m now rnd 0 Hne)
    as (p & m2 & E & _).
  simpl in E. rewrite E. by eexists.
Qed.

Lemma afterCalls_stats calls :
  ∀ m,
    profiles m ≠ [] →
    dom (usageCount (state m)) = catalogIds m →
    ∃ m', afterCalls 2 calls m = Some m' ∧
      profiles m' = profiles m ∧
      dom (usageCount (state m')) = catalogIds m' ∧
      totalUsage (usageCount (state m'))
        = totalUsage (usageCount (state m)) + length (filter isNext calls).
Proof.
  induction calls as [|call calls IH]; intros m Hne Hd.
  { exists m. simpl. split_and!; [done|done|done|lia]. }
  destruct (afterCall_returns call m Hne) as [m1 E].
  destruct (afterCall_stats call m m1 E) as (Hp1 & Hd1 & Ht1).
  assert (catalogIds m1 = catalogIds m) as Hc1
    by (unfold catalogIds; by rewrite Hp1).
  destruct (IH m1) as (m' & Hrun & Hp' & Hd' & Ht').
  - by rewrite Hp1.
  - rewrite Hc1, <- Hd. by apply Hd1.
  - exists m'. cbn [afterCalls]. rewrite E. split_and!.
    + done.
    + by rewrite Hp', Hp1.
    + done.
    + rewrite Ht', Ht1, filter_cons. destruct call; simpl; lia.
Qed.

Lemma totalUsage_delete (u : gmap string nat) k :
  totalUsage (delete k u) + default 0 (u !! k) = totalUsage u.
Proof.
  unfold totalUsage. destruct (u !! k) as [c|] eqn:E; simpl.
  - rewrite <- (insert_delete_id u k c E) at 2.
    rewrite map_fold_insert_L; [lia|intros; lia|apply lookup_delete_eq].
  - rewrite delete_id by done. lia.
Qed.

(** X6.  The statistics count the rotations.  On a manager constructed
    with a catalog that is not empty every sequence of calls returns, and
    afterwards [getStats()] reports the size of the catalog.  Its usage
    table is a plain object: its keys are the ids of the catalog other
    than [__proto__], which such an object does not store, and its counts
    add up to the number of [getNextProfile()] calls of the sequence less
    the uses counted for the id [__proto__]; so to that number itself when
    no profile has that id. *)
Theorem stats_count_the_rotations calls s pp cp now :
  default FINGERPRINT_PROFILES cp ≠ [] →
  ∃ m',
    afterCalls 2 calls (new_FingerprintManager s pp cp now) = Some m' ∧
    totalProfiles (getStats m') = length (default FINGERPRINT_PROFILES cp) ∧
    dom (usageStats (getStats m')) = catalogIds m' ∖ {["__proto__"]} ∧
    totalUsage (usageStats (getStats m'))
      + default 0 (usageCount (state m') !! "__proto__")
      = length (filter isNext calls) ∧
    ("__proto__" ∉ catalogIds m' →
     totalUsage (usageStats (getStats m')) = length (filter isNext calls)).
Proof.
  intros Hne.
  set (m := new_FingerprintManager s pp cp now).
  assert (profiles m = default FINGERPRINT_PROFILES cp) as Hp by done.
  assert (dom (usageCount (state m)) = catalogIds m) as Hd.
  { unfold catalogIds. simpl.
    destruct (initial_usage (default FINGERPRINT_PROFILES cp) ∅) as [-> _].
    set_solver. }
  assert (totalUsage (usageCount (state m)) = 0) as Ht.
  { apply totalUsage_zero. simpl. intros k v Hk.
    destruct (initial_usage (default FINGERPRINT_PROFILES cp) ∅) as [_ Hv].
    destruct (Hv k v Hk) as [?|Hl]; [done|]. by rewrite lookup_empty in Hl. }
  destruct (afterCalls_stats calls m) as (m' & Hrun & Hp' & Hd' & Ht');
    [by rewrite Hp|done|].
  exists m'. unfold getStats, plainObjectOfCounts. simpl.
  pose proof (totalUsage_delete (usageCount (state m')) "__proto__") as Hdel.
  split_and!.
  - done.
  - by rewrite Hp', Hp.
  - by rewrite dom_delete_L, Hd'.
  - lia.
  - intros Hnot. rewrite <- Hd' in Hnot. apply not_elem_of_dom in Hnot.
    rewrite Hnot in Hdel. simpl in Hdel. lia.
Qed.

Lemma stats_count_the_rotations_witness :
  ∃ m', afterCalls 2 [CallNext 1 0; CallBlock "pixel8-chrome130"; CallNext 2 0]
          (new_FingerprintManager None None None 0) = Some m' ∧
        totalUsage (usageStats (getStats m')) = 2.
Proof.
  destruct (stats_count_the_rotations
              [CallNext 1 0; CallBlock "pixel8-chrome130"; CallNext 2 0]
              None None None 0) as (m' & E & _ & _ & _ & Hsum); [done|].
  exists m'. split; [exact E|].
  apply Hsum. vm_compute in E. injection E as <-.
  apply (bool_decide_unpack _). by vm_compute.
Defined.

(** *** The current profile *)

(** X7.  Under the round-robin strategy [getCurrentProfile()] called
    after [getNextProfile()] gives the profile that call returned, and
    changes nothing. *)
Theorem current_is_last_round_robin fuel now rnd m p m' :
  strategy m = round_robin →
  getNextProfile fuel now rnd m = Returned p m' →
  getCurrentProfile m' = (Some p, m').
Proof.
  revert m. induction fuel as [|fuel IH]; intros m Hs; [done|].
  simpl. case_decide as Hlen.
  { apply IH. exact Hs. }
  rewrite Hs.
  destruct (getAvailableProfiles m !! _) as [x|] eqn:Hx; [|done].
  intros [= <- <-]. unfold getCurrentProfile.
  set (m' := set_state _ _).
  assert (getAvailableProfiles m' = getAvailableProfiles m) as -> by done.
  case_decide; [done|]. simpl in Hx. simpl. by rewrite Hx.
Qed.

Lemma current_is_last_round_robin_witness :
  ∃ m', getNextProfile 1 5 0 (new_FingerprintManager None None None 0)
          = Returned GALAXY_S24_CHROME_130 m' ∧
        getCurrentProfile m' = (Some GALAXY_S24_CHROME_130, m').
Proof.
  assert (∃ m', getNextProfile 1 5 0 (new_FingerprintManager None None None 0)
                = Returned GALAXY_S24_CHROME_130 m')
    as [m' E] by (vm_compute; eauto).
  exists m'. split; [exact E|].
  exact (current_is_last_round_robin 1 5 0
           (new_FingerprintManager None None None 0) _ m' eq_refl E).
Defined.

(** *** The least-used strategy *)

Lemma least_used_step fuel now rnd m p m' :
  strategy m = least_used →
  getAvailableProfiles m ≠ [] →
  getNextProfile (S fuel) now rnd m = Returned p m' →
  p ∈ getAvailableProfiles m ∧
  (∀ q, q ∈ getAvailableProfiles m → usageOf m p ≤ usageOf m q) ∧
  (∀ q, usageOf m' q
        = if decide (id q = id p) then usageOf m p + 1 else usageOf m q) ∧
  strategy m' = least_used ∧
  getAvailableProfiles m' = getAvailableProfiles m.
Proof.
  intros Hs Hne E.
  destruct (PoolProps.getNextProfile_available fuel now rnd m Hne)
    as (p' & m1 & E' & Hin & Hsame).
  rewrite E in E'. injection E' as <- <-.
  destruct (getNextProfile_records _ _ _ _ _ _ E) as (_ & _ & Hu & _).
  split; [done|]. split_and!.
  - revert E. simpl. case_decide as Hlen.
    { destruct (getAvailableProfiles m); [done|simpl in Hlen; lia]. }
    rewrite Hs.
    destruct (PoolProps.getLeastUsedProfile_spec m _ Hne)
      as (i & p0 & Hp0 & _ & Hmin & _).
    rewrite Hp0. by intros [= <- _].
  - intros q. unfold usageOf at 1. rewrite Hu. case_decide as Hq.
    + by rewrite Hq, lookup_insert_eq.
    + by rewrite lookup_insert_ne.
  - destruct Hsame as (_ & _ & _ & ->). done.
  - by apply PoolProps.samePool_available.
Qed.

(** X8.  The least-used strategy keeps the usage level.  With the set
    of available profiles left alone, consecutive [getNextProfile()] calls
    under the least-used strategy return available profiles only, and
    usage counts of available profiles that differ by at most one at the
    start differ by at most one after every call. *)
Theorem least_used_keeps_balance fuel inputs m picked m' :
  strategy m = least_used →
  getAvailableProfiles m ≠ [] →
  (∀ p q, p ∈ getAvailableProfiles m → q ∈ getAvailableProfiles m →
          usageOf m p ≤ usageOf m q + 1) →
  getNextProfiles (S fuel) inputs m = Returned picked m' →
  Forall (fun p => p ∈ getAvailableProfiles m) picked ∧
  length picked = length inputs ∧
  (∀ p q, p ∈ getAvailableProfiles m → q ∈ getAvailableProfiles m →
          usageOf m' p ≤ usageOf m' q + 1).
Proof.
  revert m picked.
  induction inputs as [|[now rnd] inputs IH]; intros m picked Hs Hne Hbal.
  { intros [= <- <-]. by split_and!. }
  cbn [getNextProfiles].
  destruct (getNextProfile (S fuel) now rnd m) as [p m1|e m1|] eqn:E;
    [|done..].
  destruct (least_used_step fuel now rnd m p m1 Hs Hne E)
    as (Hin & Hmin & Hu & Hs1 & Hav1).
  destruct (getNextProfiles (S fuel) inputs m1) as [ps m2|e m2|] eqn:E2;
    [|done..].
  intros [= <- <-].
  destruct (IH m1 ps Hs1) as (Hall & Hlen & Hbal2).
  - by rewrite Hav1.
  - rewrite Hav1. intros a b Ha Hb. rewrite !Hu.
    pose proof (Hmin a Ha). pose proof (Hmin b Hb).
    pose proof (Hbal a p Ha Hin). pose proof (Hbal a b Ha Hb).
    repeat case_decide; lia.
  - done.
  - rewrite Hav1 in Hall, Hbal2. split_and!.
    + by constructor.
    + simpl. by rewrite Hlen.
    + done.
Qed.

(** Seven calls on the six profiles of the catalog. *)
Lemma least_used_keeps_balance_witness :
  let m := new_FingerprintManager (Some least_used) None None 0 in
  ∃ picked m',
    getNextProfiles 1
      [(1%Z, 0); (2%Z, 0); (3%Z, 0); (4%Z, 0); (5%Z, 0); (6%Z, 0); (7%Z, 0)] m
      = Returned picked m' ∧
    usageOf m' PIXEL_8_CHROME_130 ≤ usageOf m' IPHONE_14_SAFARI_17 + 1.
Proof.
  intros m.
  assert (∃ picked m',
            getNextProfiles 1
              [(1%Z, 0); (2%Z, 0); (3%Z, 0); (4%Z, 0); (5%Z, 0); (6%Z, 0);
               (7%Z, 0)] m
            = Returned picked m') as (picked & m' & E)
    by (vm_compute; eauto).
  exists picked, m'. split; [exact E|].
  assert (getAvailableProfiles m = FINGERPRINT_PROFILES) as Hav by done.
  destruct (least_used_keeps_balance 0
              [(1%Z, 0); (2%Z, 0); (3%Z, 0); (4%Z, 0); (5%Z, 0); (6%Z, 0);
               (7%Z, 0)] m picked m' eq_refl) as (_ & _ & Hbal).
  - by rewrite Hav.
  - intros p q _ _.
    assert (∀ r, usageOf m r = 0 ∨ usageOf m r = 0) as Hzero.
    { intros r. left. unfold usageOf.
      destruct (usageCount (state m) !! id r) as [v|] eqn:Hv; [|done].
      destruct (initial_usage FINGERPRINT_PROFILES ∅) as [_ Hz].
      destruct (Hz (id r) v Hv) as [->|H0]; [done|].
      by rewrite lookup_empty in H0. }
    destruct (Hzero p) as [->| ->]; lia.
  - exact E.
  - apply Hbal; rewrite Hav; unfold FINGERPRINT_PROFILES.
    + apply list_elem_of_here.
    + do 5 apply list_elem_of_further. apply list_elem_of_here.
Defined.

End PoolMore.

(** * More on the HTTP client *)

Module HttpMore.
Import Fingerprints Http.

Section WithJson.
Context `{JR : JsonRuntime}.

Lemma sleeps_snoc t e :
  sleeps (t ++ [e]) =
  sleeps t ++ match e with Slept ms => [ms] | _ => [] end.
Proof. unfold sleeps. rewrite omap_app. by destruct e. Qed.

Lemma backoff_cons a j :
  backoff a (S j) = (2 ^ a * 1000)%Z :: backoff (a + 1) j.
Proof.
  unfold backoff. rewrite seqZ_cons by lia. simpl. do 3 f_equal; lia.
Qed.

(** One request of an initialised client: the engine is called once and
    nothing is slept. *)
Lemma request_effects env c :
  client c = true →
  profiles (fingerprintManager c) ≠ [] →
  ∃ c1,
    stable c c1 ∧ engineCalls c1 = S (engineCalls c) ∧
    sleeps (trace c1) = sleeps (trace c) ∧
    (request env c =
       match engine env (engineCalls c) (currentProfile c1) with
       | EngineReplied raw => Returned (parseResponse raw) c1
       | EngineThrew e => Threw e (emit (LogRequestFailed e) c1)
       end).
Proof.
  intros Hini Hne. unfold request, bind, gets. rewrite Hini. simpl.
  destruct (rotateFingerprints (config c)) eqn:Hrot.
  - destruct (HttpProps.pool_getNextProfile_returns env c Hne)
      as (p & m' & E & Hp & ->).
    simpl.
    exists (tick_engine
              (emit (LogRequest (id p))
                 (set_currentProfile p (tick_pool (set_manager m' c))))).
    split_and!; simpl.
    + by split_and!.
    + done.
    + by rewrite sleeps_snoc, app_nil_r.
    + by destruct (engine env (engineCalls c) p).
  - simpl.
    exists (tick_engine (emit (LogRequest (id (currentProfile c))) c)).
    split_and!; simpl.
    + by split_and!.
    + done.
    + by rewrite sleeps_snoc, app_nil_r.
    + by destruct (engine env (engineCalls c) (currentProfile c)).
Qed.

(** The [try] block of one attempt: one engine call; a delay of
    [2 ^ attempt] seconds exactly when it ends in [continue]. *)
Lemma attemptBody_effects env a R c :
  client c = true →
  profiles (fingerprintManager c) ≠ [] →
  match attemptBody env a R c with
  | Returned (Some _) c1 =>
      stable c c1 ∧ engineCalls c1 = S (engineCalls c) ∧
      sleeps (trace c1) = sleeps (trace c)
  | Returned None c1 =>
      (a < R)%Z ∧ stable c c1 ∧ engineCalls c1 = S (engineCalls c) ∧
      sleeps (trace c1) = sleeps (trace c) ++ [(2 ^ a * 1000)%Z]
  | Threw _ c1 =>
      stable c c1 ∧ engineCalls c1 = S (engineCalls c) ∧
      sleeps (trace c1) = sleeps (trace c)
  | OutOfFuel => False
  end.
Proof.
  intros Hini Hne.
  destruct (request_effects env c Hini Hne) as (c1 & Hst & Hcalls & Hsl & E).
  unfold attemptBody, bind. rewrite E.
  destruct (engine env (engineCalls c) (currentProfile c1)) as [raw|e].
  - destruct (isCloudflareChallenge (parseResponse raw)); [|done].
    unfold modify at 1.
    assert (profiles (fingerprintManager (emit (LogChallenge a R) c1)) ≠ [])
      as Hne1 by (destruct Hst as (_ & _ & Hp); simpl; by rewrite Hp).
    destruct (HttpProps.blockCurrentProfile_returns env _ Hne1)
      as (p & c2 & -> & _ & _ & Htr & Hcalls2 & _ & Hst2).
    simpl in Htr, Hcalls2.
    assert (stable c c2) as Hst'.
    { eapply HttpProps.stable_trans; [exact Hst|exact Hst2]. }
    assert (sleeps (trace c2) = sleeps (trace c)) as Hsl2.
    { by rewrite Htr, !sleeps_snoc, !app_nil_r. }
    case_decide; simpl.
    + split_and!; [done|done|lia|]. by rewrite sleeps_snoc, Hsl2.
    + split_and!; [done|lia|done].
  - simpl. split_and!; [done|done|]. by rewrite sleeps_snoc, app_nil_r.
Qed.

(** The [catch] block: no engine call; a delay of [2 ^ attempt] seconds
    unless the attempt was the last one. *)
Lemma attemptCatch_effects env a R e c :
  profiles (fingerprintManager c) ≠ [] →
  ∃ c2, attemptCatch env a R e c = Returned e c2 ∧ stable c c2 ∧
    engineCalls c2 = engineCalls c ∧
    rotations (trace c2) =
      rotations (trace c) + (if decide (a < R)%Z then 1 else 0) ∧
    sleeps (trace c2) =
      sleeps (trace c) ++ (if decide (a < R)%Z then [(2 ^ a * 1000)%Z] else []).
Proof.
  intros Hne. unfold attemptCatch, bind. unfold modify at 1.
  case_decide.
  - assert (profiles (fingerprintManager
                        (emit (LogAttemptFailed a R e) c)) ≠ []) as Hne1 by done.
    destruct (HttpProps.rotateFingerprint_returns env _ Hne1)
      as (p & c' & E & _ & _ & Htr & Hcalls & Hpool & Hst).
    simpl in Htr, Hcalls, Hpool.
    rewrite E. eexists. split; [reflexivity|].
    split_and!; [done|done| |]; simpl.
    + rewrite HttpProps.rotations_snoc, Htr, !HttpProps.rotations_snoc.
      simpl. lia.
    + by rewrite sleeps_snoc, Htr, !sleeps_snoc, !app_nil_r.
  - eexists. split; [reflexivity|].
    split_and!; [done|done| |]; simpl.
    + rewrite HttpProps.rotations_snoc. simpl. lia.
    + by rewrite sleeps_snoc, !app_nil_r.
Qed.

Lemma retryLoop_schedule env n :
  ∀ a R lastError c,
    client c = true →
    profiles (fingerprintManager c) ≠ [] →
    n = Z.to_nat (R - a + 1) →
    match retryLoop env n a R lastError c with
    | Returned _ c' =>
        ∃ j, j < n ∧ engineCalls c' = engineCalls c + S j ∧
             sleeps (trace c') = sleeps (trace c) ++ backoff a j
    | Threw _ c' =>
        engineCalls c' = engineCalls c + n ∧
        sleeps (trace c') = sleeps (trace c) ++ backoff a (n - 1)
    | OutOfFuel => False
    end.
Proof.
  induction n as [|n IH]; intros a R lastError c Hini Hne Hn.
  { rewrite HttpProps.retryLoop_exit by lia.
    split; [lia|]. by rewrite app_nil_r. }
  rewrite HttpProps.retryLoop_step by lia.
  pose proof (attemptBody_effects env a R c Hini Hne) as Hbody.
  destruct (attemptBody env a R c) as [[response|] c1|e c1|]; [| | |done].
  - destruct Hbody as (_ & Hcalls & Hsl).
    exists 0. split_and!; [lia|lia|]. by rewrite Hsl, app_nil_r.
  - destruct Hbody as (Hlt & Hst & Hcalls & Hsl).
    specialize (IH (a + 1)%Z R lastError c1).
    destruct (retryLoop env n (a + 1) R lastError c1) as [r c'|e c'|].
    + destruct IH as (j & Hj & Hc' & Hs');
        [by destruct Hst as (-> & _)|by destruct Hst as (_ & _ & ->)|lia|].
      exists (S j). split_and!; [lia|lia|].
      by rewrite Hs', Hsl, backoff_cons, <- app_assoc.
    + destruct IH as (Hc' & Hs');
        [by destruct Hst as (-> & _)|by destruct Hst as (_ & _ & ->)|lia|].
      split; [lia|].
      rewrite Hs', Hsl.
      replace (S n - 1) with (S (n - 1)) by lia.
      by rewrite backoff_cons, <- app_assoc.
    + apply IH;
        [by destruct Hst as (-> & _)|by destruct Hst as (_ & _ & ->)|lia].
  - destruct Hbody as (Hst & Hcalls & Hsl).
    assert (profiles (fingerprintManager c1) ≠ []) as Hne1
      by (by destruct Hst as (_ & _ & ->)).
    destruct (attemptCatch_effects env a R e c1 Hne1)
      as (c2 & Ec & Hst2 & Hcalls2 & _ & Hsl2).
    unfold bind. rewrite Ec.
    assert (stable c c2) as Hst' by (by eapply HttpProps.stable_trans).
    specialize (IH (a + 1)%Z R (Some e) c2).
    destruct (decide (a < R)%Z) as [Hlt|Hlast].
    + destruct (retryLoop env n (a + 1) R (Some e) c2) as [r c'|e' c'|].
      * destruct IH as (j & Hj & Hc' & Hs');
          [by destruct Hst' as (-> & _)|by destruct Hst' as (_ & _ & ->)|lia|].
        exists (S j). split_and!; [lia|lia|].
        by rewrite Hs', Hsl2, Hsl, backoff_cons, <- app_assoc.
      * destruct IH as (Hc' & Hs');
          [by destruct Hst' as (-> & _)|by destruct Hst' as (_ & _ & ->)|lia|].
        split; [lia|].
        rewrite Hs', Hsl2, Hsl.
        replace (S n - 1) with (S (n - 1)) by lia.
        by rewrite backoff_cons, <- app_assoc.
      * apply IH;
          [by destruct Hst' as (-> & _)|by destruct Hst' as (_ & _ & ->)|lia].
    + assert (n = 0) as -> by lia.
      rewrite HttpProps.retryLoop_exit by lia.
      split; [lia|]. simpl. by rewrite Hsl2, Hsl, !app_nil_r.
Qed.

(** X9.  The back-off of [requestWithRetry].  With a bound R >= 1, an
    initialised client makes at most R engine calls, whatever the engine
    answers.  A response is returned after j+1 calls with the delays
    2^1, ..., 2^j seconds slept in between (j < R); an error is raised
    after exactly R calls and the delays 2^1, ..., 2^(R-1) seconds: there
    is no delay after the last attempt. *)
Theorem retry_backs_off_exponentially env arg c :
  client c = true →
  profiles (fingerprintManager c) ≠ [] →
  (1 ≤ default (maxRetries (config c)) arg)%Z →
  let R := Z.to_nat (default (maxRetries (config c)) arg) in
  match requestWithRetry env arg c with
  | Returned _ c' =>
      ∃ j, j < R ∧ engineCalls c' = engineCalls c + S j ∧
           sleeps (trace c') = sleeps (trace c) ++ backoff 1 j
  | Threw _ c' =>
      engineCalls c' = engineCalls c + R ∧
      sleeps (trace c') = sleeps (trace c) ++ backoff 1 (R - 1)
  | OutOfFuel => False
  end.
Proof.
  intros Hini Hne HR R. unfold requestWithRetry.
  apply retryLoop_schedule; [done|done|]. lia.
Qed.

(** A client whose engine was never started fails every attempt, and
    goes through the whole loop. *)
Lemma retryLoop_uninitialised env n :
  ∀ a R lastError c,
    client c = false →
    profiles (fingerprintManager c) ≠ [] →
    (a ≤ R)%Z →
    n = Z.to_nat (R - a + 1) →
    ∃ c', retryLoop env n a R lastError c = Threw notInitialised c' ∧
      engineCalls c' = engineCalls c ∧
      rotations (trace c') = rotations (trace c) + (n - 1) ∧
      sleeps (trace c') = sleeps (trace c) ++ backoff a (n - 1).
Proof.
  induction n as [|n IH]; intros a R lastError c Hini Hne Ha Hn; [lia|].
  rewrite HttpProps.retryLoop_step by lia.
  assert (attemptBody env a R c = Threw notInitialised c) as ->.
  { unfold attemptBody, request, bind, gets. by rewrite Hini. }
  destruct (attemptCatch_effects env a R notInitialised c Hne)
    as (c2 & Ec & Hst2 & Hcalls2 & Hrot2 & Hsl2).
  unfold bind. rewrite Ec.
  destruct (decide (a < R)%Z) as [Hlt|Hlast].
  - destruct (IH (a + 1)%Z R (Some notInitialised) c2)
      as (c' & -> & Hc' & Hr' & Hs').
    + by destruct Hst2 as (-> & _).
    + by destruct Hst2 as (_ & _ & ->).
    + lia.
    + lia.
    + exists c'. split_and!; [done|lia|lia|].
      rewrite Hs', Hsl2.
      replace (S n - 1) with (S (n - 1)) by lia.
      by rewrite backoff_cons, <- app_assoc.
  - assert (n = 0) as -> by lia.
    rewrite HttpProps.retryLoop_exit by lia.
    exists c2. simpl. split_and!; [done|done|lia|].
    by rewrite Hsl2, !app_nil_r.
Qed.

(** X10.  [requestWithRetry] on a client that was never initialised.  No
    request reaches the engine, yet the call goes through all its R >= 1
    attempts: it rotates the fingerprint R-1 times, sleeps the delays
    2^1, ..., 2^(R-1) seconds, and then raises the error that the client
    is not initialised. *)
Theorem uninitialised_client_retries_in_vain env arg c :
  client c = false →
  profiles (fingerprintManager c) ≠ [] →
  (1 ≤ default (maxRetries (config c)) arg)%Z →
  let R := Z.to_nat (default (maxRetries (config c)) arg) in
  ∃ c', requestWithRetry env arg c = Threw notInitialised c' ∧
    engineCalls c' = engineCalls c ∧
    rotations (trace c') = rotations (trace c) + (R - 1) ∧
    sleeps (trace c') = sleeps (trace c) ++ backoff 1 (R - 1).
Proof.
  intros Hini Hne HR R. unfold requestWithRetry.
  apply retryLoop_uninitialised; [done|done|lia|lia].
Qed.

(** X11.  [blockCurrentProfile] never leaves the client on a blocked
    profile.  The profile it moves to is one of the catalog and is not
    blocked afterwards.  While another profile is available the new
    profile differs from the blocked one, which stays blocked; when the
    blocked profile was the last one available, the whole blocked set is
    forgotten instead. *)
Theorem blocked_profile_is_not_reused env c :
  profiles (fingerprintManager c) ≠ [] →
  let blocked := blockProfile (id (currentProfile c)) (fingerprintManager c) in
  ∃ c', blockCurrentProfile env c = Returned tt c' ∧
    currentProfile c' ∈ profiles (fingerprintManager c) ∧
    (id (currentProfile c') ∉ blockedProfiles (state (fingerprintManager c'))) ∧
    (getAvailableProfiles blocked ≠ [] →
       id (currentProfile c') ≠ id (currentProfile c) ∧
       blockedProfiles (state (fingerprintManager c')) =
         {[id (currentProfile c)]} ∪
         blockedProfiles (state (fingerprintManager c))) ∧
    (getAvailableProfiles blocked = [] →
       blockedProfiles (state (fingerprintManager c')) = ∅).
Proof.
  intros Hne blocked.
  destruct (HttpProps.blockCurrentProfile_returns env c Hne)
    as (p & c' & E & Hnext & Hcur & _).
  fold blocked in Hnext.
  exists c'. rewrite Hcur.
  destruct (PoolMore.getNextProfile_records _ _ _ _ _ _ Hnext)
    as (Hin & Hnb & _).
  split_and!; [done|done|done| |].
  - intros Hav.
    destruct (PoolProps.getNextProfile_available 1 (dateNow env (poolCalls c))
                (mathRandom env (poolCalls c)) blocked Hav)
      as (p' & m' & E' & Hp' & _ & Hb & _).
    change (getNextProfile poolFuel) with (getNextProfile 2) in Hnext.
    rewrite Hnext in E'. injection E' as <- <-.
    split; [|exact Hb].
    apply PoolProps.available_elem in Hp' as [_ Hnot].
    intros Heq. apply Hnot. rewrite Heq. simpl. set_solver.
  - intros Hav.
    destruct (PoolProps.getNextProfile_returns blocked
                (dateNow env (poolCalls c)) (mathRandom env (poolCalls c)) 0 Hne)
      as (p' & m' & E' & _ & Hclear).
    change (getNextProfile poolFuel) with (getNextProfile (2 + 0)) in Hnext.
    rewrite Hnext in E'. injection E' as <- <-.
    by apply Hclear.
Qed.

End WithJson.

(** *** The theorems on examples *)

(** Three attempts on an engine that keeps failing. *)
Lemma retry_backs_off_exponentially_witness :
  ∃ e c', requestWithRetry (flakyEngine 5) (Some 3%Z) sampleClient
            = Threw e c' ∧
          engineCalls c' = 3 ∧ sleeps (trace c') = [2000; 4000]%Z.
Proof.
  assert (∃ e c', requestWithRetry (flakyEngine 5) (Some 3%Z) sampleClient
                  = Threw e c') as (e & c' & E) by (vm_compute; eauto).
  assert (client sampleClient = true) as Hini by reflexivity.
  assert (profiles (fingerprintManager sampleClient) ≠ []) as Hne by done.
  assert (1 ≤ default (maxRetries (config sampleClient)) (Some 3%Z))%Z
    as HR by (simpl; lia).
  pose proof (retry_backs_off_exponentially (flakyEngine 5) (Some 3%Z)
                sampleClient Hini Hne HR) as H.
  simpl in H. rewrite E in H. destruct H as [Hcalls Hsl].
  exists e, c'. split; [exact E|]. split; [exact Hcalls|exact Hsl].
Defined.

(** The client as the constructor leaves it, before [initCycleTLS]. *)
Lemma uninitialised_client_retries_in_vain_witness :
  ∃ c0 c', new_HttpClient sampleConfig None None None 0 = Some c0 ∧
    requestWithRetry (flakyEngine 0) None c0 = Threw notInitialised c' ∧
    engineCalls c' = 0 ∧ rotations (trace c') = 2 ∧
    sleeps (trace c') = [2000; 4000]%Z.
Proof.
  assert (∃ c0, new_HttpClient sampleConfig None None None 0 = Some c0)
    as [c0 E0] by (vm_compute; eauto).
  assert (client c0 = false) as Hini
    by (vm_compute in E0; injection E0 as <-; reflexivity).
  assert (profiles (fingerprintManager c0) ≠ []) as Hne
    by (vm_compute in E0; injection E0 as <-; done).
  assert (1 ≤ default (maxRetries (config c0)) None)%Z as HR
    by (vm_compute in E0; injection E0 as <-; simpl; lia).
  destruct (uninitialised_client_retries_in_vain (flakyEngine 0) None c0
              Hini Hne HR) as (c' & E & Hcalls & Hrot & Hsl).
  exists c0, c'. split; [exact E0|]. split; [exact E|].
  vm_compute in E0. injection E0 as <-.
  split; [exact Hcalls|]. split; [exact Hrot|exact Hsl].
Defined.

Lemma blocked_profile_is_not_reused_witness :
  ∃ c', blockCurrentProfile challengingEngine sampleClient = Returned tt c' ∧
    id (currentProfile c') ≠ id (currentProfile sampleClient).
Proof.
  assert (profiles (fingerprintManager sampleClient) ≠ []) as Hne by done.
  destruct (blocked_profile_is_not_reused challengingEngine sampleClient Hne)
    as (c' & E & _ & _ & Hother & _).
  exists c'. split; [exact E|].
  apply Hother. by vm_compute.
Defined.

End HttpMore.

(** * Properties of the cookie helpers *)

Module CookieProps.
Import JsString Cookies.

Lemma hasChar_app c a b : hasChar c (a +:+ b) = hasChar c a || hasChar c b.
Proof.
  induction a as [|x a IH]; simpl; [done|]. by rewrite IH, orb_assoc.
Qed.

Lemma app_empty_r (a : string) : a +:+ EmptyString = a.
Proof.
  induction a as [|x a IH]; [done|].
  change (String x a +:+ EmptyString) with (String x (a +:+ EmptyString)).
  by rewrite IH.
Qed.

Lemma app_assoc_string (a b c : string) : a +:+ b +:+ c = (a +:+ b) +:+ c.
Proof.
  induction a as [|x a IH]; [done|].
  change (String x a +:+ b +:+ c) with (String x (a +:+ b +:+ c)).
  change ((String x a +:+ b) +:+ c) with (String x ((a +:+ b) +:+ c)).
  by rewrite IH.
Qed.

Section WithTrim.
Variable trim : string → string.

(** The part of a line before its first semicolon. *)
Lemma first_segment pair rest :
  hasChar semicolon pair = false →
  rest = EmptyString ∨ (∃ attrs, rest = String semicolon attrs) →
  head (split semicolon (pair +:+ rest)) = Some pair.
Proof.
  intros Hclean [->|[attrs ->]].
  - by rewrite app_empty_r, StringMore.split_clean.
  - by rewrite StringMore.split_app_sep.
Qed.

Lemma parseCookie_pair name value rest :
  hasChar equals name = false →
  hasChar semicolon name = false →
  hasChar semicolon value = false →
  rest = EmptyString ∨ (∃ attrs, rest = String semicolon attrs) →
  parseCookie trim (name +:+ String equals value +:+ rest)
  = Some (trim name, trim value).
Proof.
  intros Hname Hn Hv Hrest. unfold parseCookie.
  rewrite (app_assoc_string name (String equals value) rest).
  rewrite first_segment; [|by rewrite hasChar_app, Hn|done].
  simpl. rewrite StringMore.split_app_sep by done.
  pose proof (StringMore.split_nonempty equals value) as Hne.
  rewrite decide_True
    by (destruct (split equals value); [done|simpl; lia]).
  simpl. rewrite drop_0.
  change "=" with (String equals EmptyString).
  by rewrite StringMore.join_split.
Qed.

Lemma parseCookie_skips line :
  hasChar equals (default EmptyString (head (split semicolon line))) = false →
  parseCookie trim line = None.
Proof.
  intros Hclean. unfold parseCookie.
  by rewrite StringMore.split_clean.
Qed.

Lemma parsed_without_proto (lines : list string) :
  ∀ cookies : gmap string string,
    cookies !! "__proto__" = None →
    foldl (fun cookies cookieStr =>
             match parseCookie trim cookieStr with
             | Some (name, value) => setOwn name value cookies
             | None => cookies
             end) cookies lines !! "__proto__" = None.
Proof.
  induction lines as [|line lines IH]; intros cookies Hc; [done|].
  simpl. apply IH.
  destruct (parseCookie trim line) as [[name value]|]; [|done].
  unfold setOwn. case_decide as Hn; [done|].
  by rewrite lookup_insert_ne.
Qed.

(** X12.  How a [Set-Cookie] line is read.  A line [name=value] or
    [name=value;attributes] sets the cookie [name] to [value], both
    trimmed: the attributes are dropped, and a value may itself contain
    equals signs, it is kept whole.  A line whose part before the first
    semicolon has no equals sign sets nothing.  When several lines set
    one name, the last one wins.  The one name that is never set is
    [__proto__]: a line with that name leaves the cookies as they are. *)
Theorem set_cookie_value_keeps_equals_signs :
  (∀ name value rest,
     hasChar equals name = false →
     hasChar semicolon name = false →
     hasChar semicolon value = false →
     rest = EmptyString ∨ (∃ attrs, rest = String semicolon attrs) →
     trim name ≠ "__proto__" →
     parseSetCookieHeader trim
       {[ "set-cookie" := One (name +:+ String equals value +:+ rest) ]}
     = {[ trim name := trim value ]}) ∧
  (∀ line,
     hasChar equals (default EmptyString (head (split semicolon line))) = false →
     parseSetCookieHeader trim {[ "set-cookie" := One line ]} = ∅) ∧
  (∀ lines line name value,
     parseCookie trim line = Some (name, value) →
     name ≠ "__proto__" →
     parseSetCookieHeader trim {[ "set-cookie" := Many (lines ++ [line]) ]}
       !! name = Some value) ∧
  (∀ lines line value,
     parseCookie trim line = Some ("__proto__", value) →
     parseSetCookieHeader trim {[ "set-cookie" := Many (lines ++ [line]) ]}
     = parseSetCookieHeader trim {[ "set-cookie" := Many lines ]}) ∧
  (∀ headers, parseSetCookieHeader trim headers !! "__proto__" = None).
Proof.
  split_and!.
  - intros name value rest Hname Hn Hv Hrest Hproto.
    unfold parseSetCookieHeader. rewrite lookup_singleton_eq.
    assert (truthyHeader (One (name +:+ String equals value +:+ rest)) = true)
      as Ht by (destruct name; reflexivity).
    rewrite Ht. cbv beta iota. rewrite Ht. cbn [negb foldl].
    rewrite parseCookie_pair by done.
    unfold setOwn. rewrite decide_False by done. apply insert_empty.
  - intros line Hclean. unfold parseSetCookieHeader.
    rewrite lookup_singleton_eq.
    destruct (truthyHeader (One line)) eqn:E.
    + cbv beta iota. rewrite E. cbn [negb foldl]. by rewrite parseCookie_skips.
    + by rewrite lookup_singleton_ne.
  - intros lines line name value Hline Hproto. unfold parseSetCookieHeader.
    rewrite lookup_singleton_eq. simpl.
    rewrite foldl_app. simpl. rewrite Hline.
    unfold setOwn. rewrite decide_False by done. apply lookup_insert_eq.
  - intros lines line value Hline. unfold parseSetCookieHeader.
    rewrite !lookup_singleton_eq. simpl.
    rewrite foldl_app. simpl. by rewrite Hline.
  - intros headers. unfold parseSetCookieHeader.
    destruct (match headers !! "set-cookie" with
              | Some v => if truthyHeader v then Some v
                          else headers !! "Set-Cookie"
              | None => headers !! "Set-Cookie"
              end) as [v|]; [|done].
    destruct (negb (truthyHeader v)); [done|].
    by apply parsed_without_proto.
Qed.

End WithTrim.

(** A session cookie whose value ends in the padding of a base64
    string. *)
Lemma set_cookie_value_keeps_equals_signs_witness :
  parseSetCookieHeader spaceTrim
    {[ "set-cookie" := One "__session=eyJhbGciOiJIUzI1NiJ9==; Path=/; HttpOnly" ]}
  = {[ "__session" := "eyJhbGciOiJIUzI1NiJ9==" ]}.
Proof.
  destruct (set_cookie_value_keeps_equals_signs spaceTrim) as (Hpair & _ & _).
  apply (Hpair "__session" "eyJhbGciOiJIUzI1NiJ9==" "; Path=/; HttpOnly").
  - reflexivity.
  - reflexivity.
  - reflexivity.
  - right. by exists " Path=/; HttpOnly".
  - by vm_compute.
Defined.

End CookieProps.

(** * Properties of the HttpClient singleton *)

Module InstanceProps.
Import Instance.

Section WithConfig.
Context {Config : Type}.

Lemma live_Some (s : Sys Config) obj :
  live s obj = true ↔ ∃ o, objects s !! obj = Some o ∧ started o = true.
Proof.
  unfold live. destruct (objects s !! obj) as [o|]; simpl.
  - split; [intros H; by exists o|by intros (? & [= <-] & ?)].
  - split; [done|by intros (? & ? & ?)].
Qed.

Lemma Inv_at_start : Inv (initial : Sys Config).
Proof. split; try done. Qed.

Lemma getInstance_cases config (s : Sys Config) :
  (∃ obj, instance s = Some obj ∧ live s obj = true ∧
          getInstance config s = (Ready obj, s)) ∨
  ((∀ obj, instance s = Some obj → live s obj = false) ∧
   ((∃ p, initPromise s = Some p ∧ getInstance config s = (Shared p, s)) ∨
    (initPromise s = None ∧
     getInstance config s =
       (Started (length (inits s)),
        {| objects :=
             objects s ++
             [{| started := false; isClosing := false; given := config |}];
           instance := instance s;
           initPromise := Some (length (inits s));
           inits := inits s ++ [InitPending (length (objects s))] |})))).
Proof.
  unfold getInstance.
  destruct (instance s) as [obj|] eqn:Hi.
  - destruct (live s obj) eqn:Hl.
    + left. by exists obj.
    + right. split; [by intros ? [= <-]|].
      destruct (initPromise s) as [p|]; [left; by exists p|by right].
  - right. split; [done|].
    destruct (initPromise s) as [p|]; [left; by exists p|by right].
Qed.

Lemma Inv_getInstance config (s : Sys Config) :
  Inv s → Inv (getInstance config s).2.
Proof.
  intros HI.
  destruct (getInstance_cases config s)
    as [(obj & _ & _ & ->)|[Hnl [(p & _ & ->)|[Hnone ->]]]]; [done|done|].
  simpl.
  assert (∀ obj, live
            {| objects :=
                 objects s ++
                 [{| started := false; isClosing := false; given := config |}];
               instance := instance s;
               initPromise := Some (length (inits s));
               inits := inits s ++ [InitPending (length (objects s))] |} obj
            = live s obj) as Hlive.
  { intros obj. unfold live. simpl.
    destruct (decide (obj < length (objects s))) as [Hlt|Hge].
    - by rewrite lookup_app_l.
    - rewrite lookup_app_r by lia. rewrite (lookup_ge_None_2 (objects s)) by lia.
      by destruct (obj - length (objects s)) as [|[|?]]. }
  assert (∀ obj, live s obj = false) as Hdead.
  { intros obj. destruct (live s obj) eqn:Hl; [|done].
    pose proof (inv_live s HI obj Hl) as Hinst.
    by rewrite (Hnl obj Hinst) in Hl. }
  split; simpl.
  - intros obj. rewrite Hlive, Hdead. done.
  - intros p obj _. by rewrite Hlive.
  - intros p obj Hp.
    destruct (decide (p < length (inits s))) as [Hlt|Hge].
    + rewrite lookup_app_l in Hp by done.
      destruct (inv_pending s HI p obj Hp) as [Hcontra _]. congruence.
    + rewrite lookup_app_r in Hp by lia.
      destruct (p - length (inits s)) as [|n] eqn:E; simpl in Hp; [|by destruct n].
      injection Hp as <-. split; [f_equal; lia|].
      rewrite length_app. simpl. lia.
  - intros p e Hp.
    destruct (decide (p < length (inits s))) as [Hlt|Hge].
    + rewrite lookup_app_l in Hp by done.
      pose proof (inv_rejected s HI p e Hp). congruence.
    + rewrite lookup_app_r in Hp by lia.
      destruct (p - length (inits s)) as [|[|?]]; simpl in Hp; done.
  - intros obj o Ho.
    destruct (decide (obj < length (objects s))) as [Hlt|Hge].
    + rewrite lookup_app_l in Ho by done. by apply (inv_closing s HI obj).
    + rewrite lookup_app_r in Ho by lia.
      destruct (obj - length (objects s)) as [|[|?]]; simpl in Ho; try done.
      by injection Ho as <-.
Qed.

Lemma Inv_initResolves p (s s' : Sys Config) :
  Inv s → initResolves p s = Some s' → Inv s'.
Proof.
  intros HI. unfold initResolves.
  destruct (inits s !! p) as [[obj| |]|] eqn:Hp; try done.
  intros [= <-].
  destruct (inv_pending s HI p obj Hp) as [Hinit Hobj].
  assert (∀ obj', live s obj' = false) as Hdead
    by (intros obj'; by apply (inv_init s HI p)).
  split; simpl.
  - intros obj' Hl. apply live_Some in Hl as (o & Ho & Hst). simpl in Ho.
    destruct (decide (obj' = obj)) as [->|Hne]; [done|].
    rewrite list_lookup_alter_ne in Ho by done.
    assert (live s obj' = true) as Hl by (apply live_Some; by exists o).
    by rewrite Hdead in Hl.
  - done.
  - intros p' obj' Hp'.
    destruct (decide (p' = p)) as [->|Hne].
    + rewrite list_lookup_insert_eq in Hp'; [done|].
      by eapply lookup_lt_Some.
    + rewrite list_lookup_insert_ne in Hp' by done.
      destruct (inv_pending s HI p' obj' Hp') as [Hcontra _]. congruence.
  - intros p' e Hp'.
    destruct (decide (p' = p)) as [->|Hne].
    + rewrite list_lookup_insert_eq in Hp'; [done|].
      by eapply lookup_lt_Some.
    + rewrite list_lookup_insert_ne in Hp' by done.
      pose proof (inv_rejected s HI p' e Hp'). congruence.
  - intros obj' o Ho Hcl.
    destruct (decide (obj' = obj)) as [->|Hne].
    + rewrite list_lookup_alter_eq in Ho.
      destruct (objects s !! obj) as [o0|] eqn:Ho0; simpl in Ho; [|done].
      by injection Ho as <-.
    + rewrite list_lookup_alter_ne in Ho by done.
      by apply (inv_closing s HI obj' o).
Qed.

Lemma Inv_initRejects p e (s s' : Sys Config) :
  Inv s → initRejects p e s = Some s' → Inv s'.
Proof.
  intros HI. unfold initRejects.
  destruct (inits s !! p) as [[obj| |]|] eqn:Hp; try done.
  intros [= <-].
  destruct (inv_pending s HI p obj Hp) as [Hinit Hobj].
  split; simpl.
  - apply (inv_live s HI).
  - apply (inv_init s HI).
  - intros p' obj' Hp'.
    destruct (decide (p' = p)) as [->|Hne].
    + rewrite list_lookup_insert_eq in Hp'; [done|].
      by eapply lookup_lt_Some.
    + rewrite list_lookup_insert_ne in Hp' by done.
      by apply (inv_pending s HI).
  - intros p' e' Hp'.
    destruct (decide (p' = p)) as [->|Hne]; [done|].
    rewrite list_lookup_insert_ne in Hp' by done.
    by apply (inv_rejected s HI p' e').
  - apply (inv_closing s HI).
Qed.

(** An update of one object that keeps whether its engine runs. *)
Lemma Inv_update obj o o' (s : Sys Config) :
  Inv s →
  objects s !! obj = Some o →
  started o' = started o →
  (isClosing o' = true → started o' = true) →
  Inv {| objects := <[obj := o']> (objects s); instance := instance s;
         initPromise := initPromise s; inits := inits s |}.
Proof.
  intros HI Ho Hst Hcl.
  assert (∀ obj', live {| objects := <[obj := o']> (objects s);
                          instance := instance s;
                          initPromise := initPromise s; inits := inits s |} obj'
                  = live s obj') as Hlive.
  { intros obj'. unfold live. simpl.
    destruct (decide (obj' = obj)) as [->|Hne].
    - rewrite list_lookup_insert_eq by (by eapply lookup_lt_Some).
      rewrite Ho. simpl. done.
    - by rewrite list_lookup_insert_ne. }
  split; simpl.
  - intros obj'. rewrite Hlive. apply (inv_live s HI).
  - intros p obj'. rewrite Hlive. apply (inv_init s HI).
  - intros p obj' Hp. rewrite length_insert. by apply (inv_pending s HI).
  - apply (inv_rejected s HI).
  - intros obj' o0 Ho0.
    destruct (decide (obj' = obj)) as [->|Hne].
    + rewrite list_lookup_insert_eq in Ho0 by (by eapply lookup_lt_Some).
      by injection Ho0 as <-.
    + rewrite list_lookup_insert_ne in Ho0 by done.
      by apply (inv_closing s HI obj').
Qed.

Lemma Inv_close obj (s s' : Sys Config) : Inv s → close obj s = Some s' → Inv s'.
Proof.
  intros HI. unfold close.
  destruct (objects s !! obj) as [o|] eqn:Ho; [|done].
  destruct (isClosing o || negb (started o)) eqn:E.
  - by intros [= <-].
  - intros [= <-]. apply orb_false_iff in E as [_ Hst].
    apply negb_false_iff in Hst.
    by eapply Inv_update.
Qed.

Lemma Inv_exitRejects obj (s s' : Sys Config) :
  Inv s → exitRejects obj s = Some s' → Inv s'.
Proof.
  intros HI. unfold exitRejects.
  destruct (objects s !! obj) as [o|] eqn:Ho; [|done].
  destruct (isClosing o) eqn:E; [|done].
  intros [= <-]. by eapply Inv_update.
Qed.

Lemma Inv_exitResolves obj (s s' : Sys Config) :
  Inv s → exitResolves obj s = Some s' → Inv s'.
Proof.
  intros HI. unfold exitResolves.
  destruct (objects s !! obj) as [o|] eqn:Ho; [|done].
  destruct (isClosing o) eqn:E; [|done].
  intros [= <-].
  pose proof (inv_closing s HI obj o Ho E) as Hst.
  assert (live s obj = true) as Hl by (apply live_Some; by exists o).
  pose proof (inv_live s HI obj Hl) as Hinst.
  assert (∀ obj', live {| objects :=
                            <[obj := {| started := false; isClosing := false;
                                        given := given o |}]> (objects s);
                          instance := None; initPromise := initPromise s;
                          inits := inits s |} obj' = false) as Hdead.
  { intros obj'. unfold live. simpl.
    destruct (decide (obj' = obj)) as [->|Hne].
    - by rewrite list_lookup_insert_eq by (by eapply lookup_lt_Some).
    - rewrite list_lookup_insert_ne by done.
      destruct (objects s !! obj') as [o'|] eqn:Ho'; [simpl|done].
      destruct (started o') eqn:Hst'; [|done].
      assert (live s obj' = true) as Hl' by (apply live_Some; by exists o').
      pose proof (inv_live s HI obj' Hl'). congruence. }
  split; simpl.
  - intros obj'. by rewrite Hdead.
  - intros p obj' _. apply Hdead.
  - intros p obj' Hp. rewrite length_insert. by apply (inv_pending s HI).
  - apply (inv_rejected s HI).
  - intros obj' o0 Ho0.
    destruct (decide (obj' = obj)) as [->|Hne].
    + rewrite list_lookup_insert_eq in Ho0 by (by eapply lookup_lt_Some).
      by injection Ho0 as <-.
    + rewrite list_lookup_insert_ne in Ho0 by done.
      by apply (inv_closing s HI obj').
Qed.

Lemma Inv_after_turn t (s s' : Sys Config) : Inv s → turn t s = Some s' → Inv s'.
Proof.
  intros HI. destruct t as [config|p|p e|obj|obj|obj]; simpl.
  - intros [= <-]. by apply Inv_getInstance.
  - by apply Inv_initResolves.
  - by apply Inv_initRejects.
  - by apply Inv_close.
  - by apply Inv_exitResolves.
  - by apply Inv_exitRejects.
Qed.

Lemma Inv_after_turns ts (s s' : Sys Config) : Inv s → turns ts s = Some s' → Inv s'.
Proof.
  revert s. induction ts as [|t ts IH]; intros s HI; simpl.
  - by intros [= <-].
  - destruct (turn t s) as [s1|] eqn:E; [|done].
    apply IH. by eapply Inv_after_turn.
Qed.

Lemma turns_app ts1 ts2 (s : Sys Config) :
  turns (ts1 ++ ts2) s = turns ts1 s ≫= turns ts2.
Proof.
  revert s. induction ts1 as [|t ts1 IH]; intros s; simpl; [done|].
  destruct (turn t s); simpl; [apply IH|done].
Qed.

(** *** How often the engine is started *)

Lemma idle_false_init (s : Sys Config) p : initPromise s = Some p → idle s = false.
Proof. intros H. unfold idle. by rewrite H. Qed.

Lemma idle_false_live (s : Sys Config) obj :
  instance s = Some obj → live s obj = true → idle s = false.
Proof.
  intros Hi Hl. unfold idle. rewrite Hi, Hl. by rewrite andb_false_r.
Qed.

(** The objects made, counting one more while nothing is going on, grow
    only with a close that runs to its end. *)
Lemma started_turn t (s s' : Sys Config) :
  Inv s → turn t s = Some s' →
  length (objects s') + (if idle s' then 1 else 0)
  ≤ length (objects s) + (if idle s then 1 else 0)
    + (if isExitResolves t then 1 else 0).
Proof.
  intros HI. destruct t as [config|p|p e|obj|obj|obj]; simpl.
  - intros [= <-].
    destruct (getInstance_cases config s)
      as [(obj & _ & _ & ->)|[Hnl [(p & _ & ->)|[Hnone ->]]]];
      simpl; [lia|lia|].
    assert (idle s = true) as ->.
    { unfold idle. rewrite Hnone. simpl.
      destruct (instance s) as [obj|]; [|done]. by rewrite (Hnl obj). }
    rewrite length_app. simpl. lia.
  - unfold initResolves.
    destruct (inits s !! p) as [[obj| |]|] eqn:Hp; try done.
    intros [= <-]. simpl.
    destruct (inv_pending s HI p obj Hp) as [Hinit Hobj].
    rewrite (idle_false_init s p Hinit).
    rewrite length_alter.
    rewrite (idle_false_live _ obj); [lia|done|].
    apply live_Some. simpl.
    destruct (lookup_lt_is_Some_2 (objects s) obj Hobj) as [o Ho].
    eexists. rewrite list_lookup_alter_eq, Ho. simpl. done.
  - unfold initRejects.
    destruct (inits s !! p) as [[obj| |]|] eqn:Hp; try done.
    intros [= <-]. simpl.
    destruct (inv_pending s HI p obj Hp) as [Hinit Hobj].
    rewrite (idle_false_init s p Hinit).
    rewrite (idle_false_init _ p); [lia|done].
  - unfold close.
    destruct (objects s !! obj) as [o|] eqn:Ho; [|done].
    destruct (isClosing o || negb (started o)) eqn:E.
    + intros [= <-]. lia.
    + intros [= <-]. simpl. rewrite length_insert.
      apply orb_false_iff in E as [_ Hst]. apply negb_false_iff in Hst.
      assert (live s obj = true) as Hl by (apply live_Some; by exists o).
      pose proof (inv_live s HI obj Hl) as Hinst.
      rewrite (idle_false_live s obj Hinst Hl).
      rewrite (idle_false_live _ obj); [lia|done|].
      apply live_Some. simpl. eexists.
      rewrite list_lookup_insert_eq by (by eapply lookup_lt_Some). done.
  - unfold exitResolves.
    destruct (objects s !! obj) as [o|] eqn:Ho; [|done].
    destruct (isClosing o); [|done].
    intros [= <-]. simpl. rewrite length_insert.
    destruct (idle _), (idle s); lia.
  - unfold exitRejects.
    destruct (objects s !! obj) as [o|] eqn:Ho; [|done].
    destruct (isClosing o) eqn:E; [|done].
    intros [= <-]. simpl. rewrite length_insert.
    pose proof (inv_closing s HI obj o Ho E) as Hst.
    assert (live s obj = true) as Hl by (apply live_Some; by exists o).
    pose proof (inv_live s HI obj Hl) as Hinst.
    rewrite (idle_false_live s obj Hinst Hl).
    rewrite (idle_false_live _ obj); [lia|done|].
    apply live_Some. simpl. eexists.
    rewrite list_lookup_insert_eq by (by eapply lookup_lt_Some). done.
Qed.

Lemma started_turns ts (s s' : Sys Config) :
  Inv s → turns ts s = Some s' →
  length (objects s') + (if idle s' then 1 else 0)
  ≤ length (objects s) + (if idle s then 1 else 0)
    + length (filter isExitResolves ts).
Proof.
  revert s. induction ts as [|t ts IH]; intros s HI; simpl.
  - intros [= <-]. lia.
  - destruct (turn t s) as [s1|] eqn:E; [|done].
    intros Hrest.
    pose proof (started_turn t s s1 HI E) as H1.
    pose proof (IH s1 (Inv_after_turn t s s1 HI E) Hrest) as H2.
    rewrite filter_cons. destruct (isExitResolves t); simpl in *; lia.
Qed.

(** X13.  The engine is started once.  In every run of calls of
    [getInstance] and [close] and of their completions, the number of
    client objects made (each starts the TLS engine once) is at most one
    more than the number of closes that ran to their end.  While an
    initialisation is under way every call follows its promise, and while
    the engine runs every call gets the one instance, whatever
    configuration it passes. *)
Theorem engine_started_once_per_close ts (s : Sys Config) :
  turns ts initial = Some s →
  length (objects s) ≤ 1 + length (filter isExitResolves ts) ∧
  (∀ p obj config,
     inits s !! p = Some (InitPending obj) →
     getInstance config s = (Shared p, s)) ∧
  (∀ obj config,
     live s obj = true → getInstance config s = (Ready obj, s)).
Proof.
  intros Hrun.
  pose proof (Inv_after_turns ts initial s Inv_at_start Hrun) as HI.
  split_and!.
  - pose proof (started_turns ts initial s Inv_at_start Hrun) as H.
    simpl in H. destruct (idle s); lia.
  - intros p obj config Hp.
    destruct (inv_pending s HI p obj Hp) as [Hinit _].
    destruct (getInstance_cases config s)
      as [(obj' & _ & Hl & _)|[_ [(p' & Hp' & ->)|[Hnone _]]]].
    + by rewrite (inv_init s HI p obj' Hinit) in Hl.
    + congruence.
    + congruence.
  - intros obj config Hl.
    pose proof (inv_live s HI obj Hl) as Hinst.
    unfold getInstance. by rewrite Hinst, Hl.
Qed.

(** *** A failed start *)

Lemma rejected_turn t (s s' : Sys Config) p e :
  inits s !! p = Some (InitRejected e) →
  turn t s = Some s' →
  inits s' !! p = Some (InitRejected e).
Proof.
  intros Hp. destruct t as [config|p'|p' e'|obj|obj|obj]; simpl.
  - intros [= <-].
    destruct (getInstance_cases config s)
      as [(obj & _ & _ & ->)|[Hnl [(p' & _ & ->)|[Hnone ->]]]];
      simpl; [done|done|].
    rewrite lookup_app_l; [done|]. by eapply lookup_lt_Some.
  - unfold initResolves.
    destruct (inits s !! p') as [[obj| |]|] eqn:Hp'; try done.
    intros [= <-]. simpl.
    rewrite list_lookup_insert_ne; [done|]. intros ->. congruence.
  - unfold initRejects.
    destruct (inits s !! p') as [[obj| |]|] eqn:Hp'; try done.
    intros [= <-]. simpl.
    rewrite list_lookup_insert_ne; [done|]. intros ->. congruence.
  - unfold close.
    destruct (objects s !! obj) as [o|]; [|done].
    destruct (isClosing o || negb (started o)); by intros [= <-].
  - unfold exitResolves.
    destruct (objects s !! obj) as [o|]; [|done].
    destruct (isClosing o); [|done]. by intros [= <-].
  - unfold exitRejects.
    destruct (objects s !! obj) as [o|]; [|done].
    destruct (isClosing o); [|done]. by intros [= <-].
Qed.

Lemma rejected_turns ts (s s' : Sys Config) p e :
  inits s !! p = Some (InitRejected e) →
  turns ts s = Some s' →
  inits s' !! p = Some (InitRejected e).
Proof.
  revert s. induction ts as [|t ts IH]; intros s Hp; simpl.
  - by intros [= <-].
  - destruct (turn t s) as [s1|] eqn:E; [|done].
    apply IH. by eapply rejected_turn.
Qed.

(** X14.  A failed start is never retried.  Once [initCycleTLS()] has
    rejected in the block of an init promise, every later call of
    [getInstance], after whatever other calls and completions, makes no
    new client: it returns that same rejected promise. *)
Theorem failed_start_is_sticky ts1 ts2 (s1 s2 : Sys Config) p e config :
  turns ts1 initial = Some s1 →
  inits s1 !! p = Some (InitRejected e) →
  turns ts2 s1 = Some s2 →
  getInstance config s2 = (Shared p, s2) ∧
  inits s2 !! p = Some (InitRejected e).
Proof.
  intros Hrun1 Hrej Hrun2.
  pose proof (Inv_after_turns ts1 initial s1 Inv_at_start Hrun1) as HI1.
  pose proof (Inv_after_turns ts2 s1 s2 HI1 Hrun2) as HI2.
  pose proof (rejected_turns ts2 s1 s2 p e Hrej Hrun2) as Hrej2.
  split; [|done].
  pose proof (inv_rejected s2 HI2 p e Hrej2) as Hinit.
  destruct (getInstance_cases config s2)
    as [(obj' & _ & Hl & _)|[_ [(p' & Hp' & ->)|[Hnone _]]]].
  - by rewrite (inv_init s2 HI2 p obj' Hinit) in Hl.
  - congruence.
  - congruence.
Qed.

(** X15.  A close in progress.  While [close()] awaits the exit of the
    engine, [getInstance] still hands out the instance that is being
    closed; when the exit resolves that object is left without an engine
    and the class without an instance. *)
Theorem closing_instance_is_handed_out ts (s : Sys Config) obj o config :
  turns ts initial = Some s →
  objects s !! obj = Some o →
  isClosing o = true →
  getInstance config s = (Ready obj, s) ∧
  ∃ s', exitResolves obj s = Some s' ∧
        live s' obj = false ∧ instance s' = None.
Proof.
  intros Hrun Ho Hcl.
  pose proof (Inv_after_turns ts initial s Inv_at_start Hrun) as HI.
  pose proof (inv_closing s HI obj o Ho Hcl) as Hst.
  assert (live s obj = true) as Hl by (apply live_Some; by exists o).
  pose proof (inv_live s HI obj Hl) as Hinst.
  split.
  - unfold getInstance. by rewrite Hinst, Hl.
  - unfold exitResolves. rewrite Ho, Hcl. eexists. split; [done|].
    split; [|done]. unfold live. simpl.
    by rewrite list_lookup_insert_eq by (by eapply lookup_lt_Some).
Qed.

End WithConfig.

(** *** The theorems on runs *)

(** Two calls while the engine starts, a third after it has started, and
    a fourth after a close: two objects are made. *)
Lemma engine_started_once_per_close_witness :
  ∃ s : Sys nat,
    turns [TGet (Some 1); TGet (Some 2); TInitResolves 0; TGet (Some 3);
           TClose 0; TExitResolves 0; TGet (Some 4)] initial = Some s ∧
    length (objects s) ≤ 2.
Proof.
  eexists. split; [by vm_compute|].
  exact (proj1 (engine_started_once_per_close
                  [TGet (Some 1); TGet (Some 2); TInitResolves 0;
                   TGet (Some 3); TClose 0; TExitResolves 0; TGet (Some 4)]
                  _ eq_refl)).
Defined.

Lemma failed_start_is_sticky_witness :
  ∃ s1 s2 : Sys nat,
    turns [TGet (Some 1); TInitRejects 0 (Error "spawn ENOENT")] initial
      = Some s1 ∧
    turns [TGet None; TClose 0] s1 = Some s2 ∧
    getInstance (Some 2) s2 = (Shared 0, s2).
Proof.
  eexists _, _. split; [by vm_compute|]. split; [by vm_compute|].
  exact (proj1 (failed_start_is_sticky
                  [TGet (Some 1); TInitRejects 0 (Error "spawn ENOENT")]
                  [TGet None; TClose 0] _ _ 0 (Error "spawn ENOENT") (Some 2)
                  eq_refl eq_refl eq_refl)).
Defined.

Lemma closing_instance_is_handed_out_witness :
  ∃ s : Sys nat,
    turns [TGet (Some 1); TInitResolves 0; TClose 0] initial = Some s ∧
    getInstance (Some 2) s = (Ready 0, s).
Proof.
  eexists. split; [by vm_compute|].
  exact (proj1 (closing_instance_is_handed_out
                  [TGet (Some 1); TInitResolves 0; TClose 0] _ 0
                  {| started := true; isClosing := true; given := Some 1 |}
                  (Some 2) eq_refl eq_refl eq_refl)).
Defined.

End InstanceProps.

(** * More on the session service *)

Module AuthMore.
Import Auth.

Section WithJwt.
Context `{JW : JwtRuntime}.

(** The state after a token has been stored. *)
Lemma recordExpiry_keeps token st :
  sid (recordExpiry token st) = sid st ∧
  currentToken (recordExpiry token st) = currentToken st ∧
  deviceId (recordExpiry token st) = deviceId st ∧
  cookies (recordExpiry token st) = cookies st.
Proof.
  unfold recordExpiry.
  destruct (jwtDecode token) as [| |[exp|]]; try done.
  by case_decide.
Qed.

(** X16.  What a refresh does, by outcome.  A refresh that returns has
    either answered from the valid token without any request, or sent
    exactly one request, stored the token the provider issued and passed
    it once to the callback, if one is registered, which returned.  A
    refresh that raises an error has either failed before any token was
    stored, and then the session state is as it was (the token in use and
    its expiry stay), the callback was not called and at most one request
    was sent; or it raises the error the callback threw, and then the new
    token is stored, with its expiry when that decodes, and the callback
    was called with it. *)
Theorem refresh_outcomes force now provider a :
  match refreshToken force now provider a with
  | Returned r a' =>
      (force = false ∧ isTokenValid None now a = true ∧
       a' = a ∧ r = currentToken (state a)) ∨
      (∃ sessionId t,
         sid (state a) = Some sessionId ∧
         provider (tokenUrl a sessionId) = Replied (Some t) ∧
         r = Some t ∧ t ≠ EmptyString ∧
         currentToken (state a') = Some t ∧
         sid (state a') = Some sessionId ∧
         requested a' = requested a ++ [tokenUrl a sessionId] ∧
         notified a' =
           notified a ++
           match onTokenRefresh a with Some _ => [t] | None => [] end ∧
         (∀ callback, onTokenRefresh a = Some callback →
                      callback (notified a) t = None))
  | Threw e a' =>
      (state a' = state a ∧ notified a' = notified a ∧
       (requested a' = requested a ∨
        ∃ url, requested a' = requested a ++ [url])) ∨
      (∃ sessionId t callback,
         sid (state a) = Some sessionId ∧
         provider (tokenUrl a sessionId) = Replied (Some t) ∧
         onTokenRefresh a = Some callback ∧
         callback (notified a) t = Some e ∧
         state a' = recordExpiry t (set_currentToken t (state a)) ∧
         currentToken (state a') = Some t ∧
         requested a' = requested a ++ [tokenUrl a sessionId] ∧
         notified a' = notified a ++ [t])
  | OutOfFuel => False
  end.
Proof.
  unfold refreshToken.
  destruct (negb force && isTokenValid None now a) eqn:Hvalid.
  { left. apply andb_true_iff in Hvalid as [Hf Hv].
    apply negb_true_iff in Hf. by split_and!. }
  destruct (sid (state a)) as [sessionId|] eqn:Hsid;
    [|left; by split_and!; [..|left]].
  destruct (JsString.truthy sessionId) eqn:Hts; simpl;
    [|left; by split_and!; [..|left]].
  destruct (provider (tokenUrl a sessionId)) as [[t|]|e] eqn:Hprov;
    [|left; split_and!; [done|done|right; by eexists]..].
  destruct (JsString.truthy t) eqn:Ht; simpl;
    [|left; split_and!; [done|done|right; by eexists]].
  destruct (recordExpiry_keeps t (set_currentToken t (state a)))
    as (Hs & Hc & _).
  assert (t ≠ EmptyString) as Hne by (by destruct t).
  destruct (onTokenRefresh a) as [callback|] eqn:Hcb.
  - destruct (callback (notified a) t) as [e|] eqn:Hcall; simpl.
    + right. exists sessionId, t, callback. by split_and!.
    + right. exists sessionId, t. rewrite Hs, Hc.
      split_and!; try done. by intros ? [= <-].
  - right. exists sessionId, t. simpl. rewrite Hs, Hc, app_nil_r.
    by split_and!.
Qed.

(** X17.  The token is refreshed once per validity window.  After a
    refresh that stored a token whose expiry [exp] (in seconds) decodes,
    a refresh that is not forced answers with that token, without any
    request, at every time before [exp * 1000 - 60000] ms; from that time
    on it asks the provider again. *)
Theorem refresh_once_per_validity_window
    force now provider a t a' exp now' provider' :
  refreshToken force now provider a = Returned (Some t) a' →
  requested a' ≠ requested a →
  jwtDecode t = DecodedPayload (Some exp) →
  exp ≠ 0%Z →
  tokenInfo (state a') = Some {| jwt := t; expiresAt := exp * 1000 |} ∧
  ((now' < exp * 1000 - 60000)%Z →
     refreshToken false now' provider' a' = Returned (Some t) a') ∧
  ((exp * 1000 - 60000 ≤ now')%Z →
     ∃ sessionId,
       sid (state a') = Some sessionId ∧
       match refreshToken false now' provider' a' with
       | Returned _ a'' | Threw _ a'' =>
           requested a'' = requested a' ++ [tokenUrl a' sessionId]
       | OutOfFuel => False
       end).
Proof.
  intros Href Hreq Hdec Hexp.
  assert (tokenInfo (state a') = Some {| jwt := t; expiresAt := exp * 1000 |} ∧
          currentToken (state a') = Some t ∧
          ∃ sessionId, sid (state a') = Some sessionId ∧
                       JsString.truthy sessionId = true)
    as (Hinfo & Htok & sessionId & Hsid & Hts).
  { revert Href. unfold refreshToken.
    destruct (negb force && isTokenValid None now a).
    { intros [= _ <-]. done. }
    destruct (sid (state a)) as [sessionId|] eqn:Hsid; [|done].
    destruct (JsString.truthy sessionId) eqn:Hts; simpl; [|done].
    destruct (provider (tokenUrl a sessionId)) as [[t'|]|e]; [|done..].
    destruct (JsString.truthy t'); simpl; [|done].
    assert (∀ a0,
              state a0 = recordExpiry t' (set_currentToken t' (state a)) →
              Returned (Some t') a0 = Returned (Some t) a' →
              tokenInfo (state a')
                = Some {| jwt := t; expiresAt := exp * 1000 |} ∧
              currentToken (state a') = Some t ∧
              ∃ sessionId0, sid (state a') = Some sessionId0 ∧
                            JsString.truthy sessionId0 = true) as Hstored.
    { intros a0 Hst [= -> <-]. rewrite Hst.
      unfold recordExpiry. rewrite Hdec. rewrite decide_False by done.
      simpl. split_and!; [done|done|by exists sessionId]. }
    destruct (onTokenRefresh a) as [callback|].
    - destruct (callback (notified a) t'); [done|]. by apply Hstored.
    - by apply Hstored. }
  split_and!; [done| |].
  - intros Hbefore. unfold refreshToken, isTokenValid. rewrite Hinfo. simpl.
    rewrite bool_decide_eq_true_2 by done. simpl. by rewrite Htok.
  - intros Hafter. exists sessionId. split; [done|].
    unfold refreshToken, isTokenValid. rewrite Hinfo. simpl.
    rewrite bool_decide_eq_false_2 by lia. simpl.
    rewrite Hsid, Hts. simpl.
    destruct (provider' (tokenUrl a' sessionId)) as [[t'|]|e]; [|done..].
    destruct (JsString.truthy t'); simpl; [|done].
    destruct (onTokenRefresh a') as [callback|]; [|done].
    by destruct (callback (notified a') t').
Qed.

(** X18.  [init] on a new service.  The session id is fetched first and
    the token is asked for that session: when [init] returns, the service
    holds the session id and the token the provider issued for it, after
    exactly two requests, and the callback, if there is one, was called
    once and returned.  When [init] fails it is for one of four reasons.
    The HTTP client could not be had: nothing was done.  Fetching the
    session id failed: no token was asked for.  The token request for
    the fetched session failed.  In these three cases no token is held
    and the callback was not called.  Or the callback threw: then the
    token is held and the callback was called with it.  The check of
    [refreshToken] for a missing session id never fires. *)
Theorem init_fetches_session_then_token
    parsed uuid callback httpClient clerk now provider :
  let a := new_AuthService parsed uuid callback in
  match init httpClient clerk now provider a with
  | Returned _ a' =>
      httpClient = None ∧
      ∃ sessionId t,
        clerk (clientUrl a) = ClientReplied (Some sessionId) ∧
        provider (tokenUrl a sessionId) = Replied (Some t) ∧
        sid (state a') = Some sessionId ∧
        currentToken (state a') = Some t ∧
        requested a' = [clientUrl a; tokenUrl a sessionId] ∧
        notified a' = match callback with Some _ => [t] | None => [] end ∧
        (∀ cb, callback = Some cb → cb [] t = None)
  | Threw e a' =>
      (httpClient = Some e ∧ a' = a) ∨
      (httpClient = None ∧
       currentToken (state a') = None ∧ notified a' = [] ∧
       ((requested a' = [clientUrl a] ∧
         (clerk (clientUrl a) = ClientFailed e ∨ e = noSessionId)) ∨
        (∃ sessionId,
           clerk (clientUrl a) = ClientReplied (Some sessionId) ∧
           sid (state a') = Some sessionId ∧
           requested a' = [clientUrl a; tokenUrl a sessionId] ∧
           (provider (tokenUrl a sessionId) = RequestFailed e ∨
            e = Error "Failed to refresh token")))) ∨
      (httpClient = None ∧
       ∃ sessionId t cb,
         clerk (clientUrl a) = ClientReplied (Some sessionId) ∧
         provider (tokenUrl a sessionId) = Replied (Some t) ∧
         callback = Some cb ∧ cb [] t = Some e ∧
         sid (state a') = Some sessionId ∧
         currentToken (state a') = Some t ∧
         requested a' = [clientUrl a; tokenUrl a sessionId] ∧
         notified a' = [t])
  | OutOfFuel => False
  end.
Proof.
  intros a. unfold init.
  destruct httpClient as [e0|]; [by left|].
  unfold fetchSessionId.
  destruct (clerk (clientUrl a)) as [[i|]|e] eqn:Hclerk.
  - destruct (JsString.truthy i) eqn:Hi; simpl.
    + unfold refreshToken. simpl. rewrite Hi. simpl.
      change (tokenUrl _ i) with (tokenUrl a i).
      destruct (provider (tokenUrl a i)) as [[t|]|e] eqn:Hprov.
      * destruct (JsString.truthy t) eqn:Ht; simpl.
        -- match goal with
           | |- context [recordExpiry t ?st] =>
               destruct (recordExpiry_keeps t st) as (Hs & Hc & _)
           end.
           destruct callback as [cb|].
           ++ destruct (cb [] t) as [e|] eqn:Hcall; simpl.
              ** right. right. split; [done|]. exists i, t, cb.
                 rewrite Hs, Hc. by split_and!.
              ** split; [done|]. exists i, t. rewrite Hs, Hc.
                 split_and!; try done. by intros ? [= <-].
           ++ split; [done|]. exists i, t. simpl. rewrite Hs, Hc.
              by split_and!.
        -- right. left. split_and!; [done|done|done|].
           right. exists i. split_and!; auto.
      * right. left. split_and!; [done|done|done|].
        right. exists i. split_and!; auto.
      * right. left. split_and!; [done|done|done|].
        right. exists i. split_and!; auto.
    + right. left. split_and!; [done|done|done|]. left. auto.
  - right. left. split_and!; [done|done|done|]. left. auto.
  - right. left. split_and!; [done|done|done|]. left. auto.
Qed.

End WithJwt.

(** *** The theorems on examples *)

Lemma refresh_once_per_validity_window_witness :
  let JW := sampleJwt in
  ∃ a', refreshToken false 0 sampleProvider sampleService
          = Returned (Some sampleToken) a' ∧
        refreshToken false 1939999 (fun _ => Replied None) a'
          = Returned (Some sampleToken) a'.
Proof.
  intros JW.
  assert (∃ a', refreshToken false 0 sampleProvider sampleService
                = Returned (Some sampleToken) a') as [a' E]
    by (vm_compute; eauto).
  exists a'. split; [exact E|].
  assert (requested a' ≠ requested sampleService) as Hreq.
  { vm_compute in E. injection E as <-. discriminate. }
  destruct (refresh_once_per_validity_window false 0 sampleProvider
              sampleService sampleToken a' 2000 1939999
              (fun _ => Replied None) E Hreq eq_refl)
    as (_ & Hcached & _); [lia|].
  apply Hcached. lia.
Defined.

End AuthMore.

(** * More on the instance cache *)

Module FacadeProps.
Import JsString Cache Facade.

(** *** The cookie of an instance *)

(** X19.  The instance uses the cookie of its cache key.  When the
    factory gets past its cookie check, the key it caches the instance
    under is made of the cookie it resolved, and [init] of the instance it
    builds resolves that same cookie again: the cookie check of the facade
    never fires on an instance made by the factory. *)
Theorem instance_uses_cookie_of_its_key env_cookie arg k :
  keyOfCall env_cookie arg = Some k →
  ∃ c, Cache.resolveCookie env_cookie (normalize arg) = Some c ∧
       k = cacheKeyOf c (normalize arg) ∧
       Facade.resolveCookie env_cookie (instanceConfig c (normalize arg))
       = Some c.
Proof.
  unfold keyOfCall.
  destruct (Cache.resolveCookie env_cookie (normalize arg)) as [c|] eqn:Hres;
    [|done].
  destruct (truthy c) eqn:Hc; [|done].
  intros [= <-]. exists c. split; [done|]. split; [done|].
  unfold Facade.resolveCookie. simpl. rewrite Hc. simpl.
  destruct (includes c "__client") eqn:Hinc; [by rewrite Hc|].
  unfold Cache.resolveCookie in Hres.
  destruct (cookie (normalize arg)) as [c0|].
  - destruct (truthy c0 && includes c0 "__client") eqn:E.
    + injection Hres as ->. apply andb_true_iff in E as [_ E]. congruence.
    + rewrite Hres. by rewrite Hc.
  - rewrite Hres. by rewrite Hc.
Qed.

Lemma instance_uses_cookie_of_its_key_witness :
  Facade.resolveCookie (Some "__client=env")
    (instanceConfig "__client=env" (normalize (ArgCookie "session-only")))
  = Some "__client=env".
Proof.
  destruct (instance_uses_cookie_of_its_key (Some "__client=env")
              (ArgCookie "session-only") "__client=env:no-proxy" eq_refl)
    as (c & Hc & _ & Hinit).
  vm_compute in Hc. injection Hc as <-. exact Hinit.
Defined.

(** *** Cache keys *)

Lemma key_split (a b x y : string) :
  hasChar colon a = false → hasChar colon b = false →
  a +:+ String colon x = b +:+ String colon y → a = b ∧ x = y.
Proof.
  revert b. induction a as [|c a IH]; intros b Ha Hb.
  - destruct b as [|d b]; [by intros [= ->]|].
    intros [= <- _]. exfalso. cbn [hasChar] in Hb.
    apply orb_false_iff in Hb as [Hb _]. by apply bool_decide_eq_false in Hb.
  - destruct b as [|d b].
    + intros [= -> _]. exfalso. cbn [hasChar] in Ha.
      apply orb_false_iff in Ha as [Ha _]. by apply bool_decide_eq_false in Ha.
    + intros [= -> Heq]. cbn [hasChar] in Ha, Hb.
      apply orb_false_iff in Ha as [_ Ha]. apply orb_false_iff in Hb as [_ Hb].
      destruct (IH b Ha Hb Heq) as [-> ->]. done.
Qed.

(** X20.  When cache keys tell calls apart.  For cookies without a
    colon, two calls have the same cache key exactly when they resolve to
    the same cookie and the same proxy (no proxy, an empty proxy URL and
    the proxy URL [no-proxy] counting as the same).  Without that
    restriction the keys of different cookies can coincide. *)
Theorem cache_key_tells_cookies_apart :
  (∀ c1 c2 config1 config2,
     hasChar colon c1 = false → hasChar colon c2 = false →
     (cacheKeyOf c1 config1 = cacheKeyOf c2 config2 ↔
      c1 = c2 ∧ proxyLabel config1 = proxyLabel config2)) ∧
  (∃ c1 c2 config1 config2,
     c1 ≠ c2 ∧ cacheKeyOf c1 config1 = cacheKeyOf c2 config2).
Proof.
  split.
  - intros c1 c2 config1 config2 H1 H2.
    unfold cacheKeyOf. fold (proxyLabel config1). fold (proxyLabel config2).
    change (":" +:+ ?x) with (String colon x).
    split.
    + by apply key_split.
    + by intros [-> ->].
  - exists "a:b", "a",
      {| cookie := None; proxy_url := None |},
      {| cookie := None; proxy_url := Some "b:no-proxy" |}.
    split; [done|]. by vm_compute.
Qed.

Lemma cache_key_tells_cookies_apart_witness :
  cacheKeyOf "__client=abc" {| cookie := None; proxy_url := Some EmptyString |}
  = cacheKeyOf "__client=abc" {| cookie := None; proxy_url := Some "no-proxy" |}.
Proof.
  apply (proj1 cache_key_tells_cookies_apart); [reflexivity|reflexivity|].
  split; reflexivity.
Defined.

(** *** Runs with [clearSunoApiCache] *)

Lemma served_turn t s s' : served s → turn t s = Some s' → served s'.
Proof.
  intros Hs. destruct t as [env arg|p r|p k]; simpl.
  - unfold sunoApi.
    destruct (keyOfCall env arg) as [k|]; [|by intros [= <-]].
    destruct (cache s !! k) as [q|] eqn:Hk; intros [= <-]; [done|].
    intros k' p'. simpl. rewrite lookup_insert. case_decide as Hkk.
    + intros [= <-]. subst k'. left. apply elem_of_app. right.
      by apply list_elem_of_singleton.
    + intros Hc. destruct (Hs _ _ Hc) as [Hw|Hf].
      * left. apply elem_of_app. by left.
      * right. rewrite lookup_app_l; [done|]. by eapply lookup_lt_Some.
  - unfold settle.
    destruct (promises s !! p) as [[| |e]|] eqn:Hp; try done.
    intros [= <-]. intros k' p' Hc. simpl in *.
    destruct (Hs _ _ Hc) as [Hw|Hf]; [by left|right].
    rewrite list_lookup_insert_ne; [done|]. intros ->. congruence.
  - unfold resume. case_decide as Hin; [|done].
    destruct (promises s !! p) as [[| |e]|] eqn:Hp; simpl; try done.
    + intros [= <-]. intros k' p' Hc. simpl in *.
      destruct (Hs _ _ Hc) as [Hw|Hf]; [|by right].
      destruct (decide ((p', k') = (p, k))) as [[= -> ->]|Hne]; [by right|].
      left. by apply list_elem_of_filter.
    + intros [= <-]. intros k' p' Hc. simpl in *.
      apply lookup_delete_Some in Hc as [Hne Hc].
      destruct (Hs _ _ Hc) as [Hw|Hf]; [|by right].
      left. apply list_elem_of_filter. split; [|done]. congruence.
Qed.

Lemma served_ops os s s' : served s → ops os s = Some s' → served s'.
Proof.
  revert s. induction os as [|o os IH]; intros s Hs; simpl.
  - by intros [= <-].
  - destruct o as [t|]; simpl.
    + destruct (turn t s) as [s1|] eqn:E; [|done].
      apply IH. by eapply served_turn.
    + apply IH. intros k p Hc. simpl in Hc. by rewrite lookup_empty in Hc.
Qed.

(** X21.  Failures are not served, with [clearSunoApiCache] in the
    run.  In every run of calls, completions and clears, a call that finds
    its key in the cache is handed a promise that is fulfilled or still
    awaited by the call that created it: never one whose rejection has
    been delivered. *)
Theorem failures_not_served_across_clears os s env_cookie arg p s' :
  ops os initial = Some s →
  sunoApi env_cookie arg s = Returned (Shared p) s' →
  (promises s !! p = Some Fulfilled ∨
   ∃ k, keyOfCall env_cookie arg = Some k ∧ (p, k) ∈ awaiting s) ∧
  ¬ propagated p s.
Proof.
  intros Hrun Hcall.
  assert (served s) as Hs.
  { eapply served_ops; [|exact Hrun].
    intros k q Hc. simpl in Hc. by rewrite lookup_empty in Hc. }
  unfold sunoApi in Hcall.
  destruct (keyOfCall env_cookie arg) as [k|]; [|done].
  destruct (cache s !! k) as [q|] eqn:Hk; [|done].
  injection Hcall as <- <-.
  destruct (Hs k q Hk) as [Hw|Hf].
  - split; [right; by exists k|]. intros [_ Hnot]. by apply (Hnot k).
  - split; [by left|]. intros [[e He] _]. congruence.
Qed.

Lemma failures_not_served_across_clears_witness :
  let arg := ArgCookie "__client=abc" in
  ∃ s, ops [OpTurn (TCall None arg); OpClear; OpTurn (TCall None arg);
            OpTurn (TSettle 1 None)] initial = Some s ∧
       sunoApi None arg s = Returned (Shared 1) s ∧
       ¬ propagated 1 s.
Proof.
  intros arg.
  assert (∃ s, ops [OpTurn (TCall None arg); OpClear; OpTurn (TCall None arg);
                    OpTurn (TSettle 1 None)] initial = Some s ∧
               sunoApi None arg s = Returned (Shared 1) s)
    as (s & Hrun & Hcall) by (eexists; split; by vm_compute).
  exists s. split; [exact Hrun|]. split; [exact Hcall|].
  exact (proj2 (failures_not_served_across_clears _ s None arg 1 s Hrun Hcall)).
Defined.

(** X22.  A stale failure evicts a newer instance.  The call that
    created a rejected init promise deletes, on resuming, whatever the
    cache holds under its key.  After a [clearSunoApiCache] that can be
    the entry of a newer init promise, even a fulfilled one: the working
    instance is forgotten and the next call with that key initialises
    again. *)
Theorem stale_failure_evicts_newer_instance s p q k e :
  (p, k) ∈ awaiting s →
  promises s !! p = Some (Rejected e) →
  cache s !! k = Some q →
  q ≠ p →
  ∃ s', resume p k s = Some (Propagated e, s') ∧
        cache s' !! k = None ∧
        promises s' !! q = promises s !! q ∧
        ∀ env_cookie arg,
          keyOfCall env_cookie arg = Some k →
          ∃ s'', sunoApi env_cookie arg s'
                 = Returned (Started (length (promises s))) s''.
Proof.
  intros Hin Hp Hq Hne. unfold resume. rewrite decide_True by done.
  rewrite Hp. eexists. split; [done|]. simpl.
  split; [apply lookup_delete_eq|]. split; [done|].
  intros env_cookie arg Hk. eexists.
  unfold sunoApi. rewrite Hk. simpl. by rewrite lookup_delete_eq.
Qed.

(** A call, a clear while its init is under way, a second call whose
    init succeeds, then the failure of the first init. *)
Lemma stale_failure_evicts_newer_instance_witness :
  let arg := ArgCookie "__client=abc" in
  let k := "__client=abc:no-proxy" in
  ∃ s s',
    ops [OpTurn (TCall None arg); OpClear; OpTurn (TCall None arg);
         OpTurn (TSettle 1 None); OpTurn (TResume 1 k);
         OpTurn (TSettle 0 (Some (Error "Failed to refresh token")))]
      initial = Some s ∧
    cache s !! k = Some 1 ∧ promises s !! 1 = Some Fulfilled ∧
    resume 0 k s = Some (Propagated (Error "Failed to refresh token"), s') ∧
    cache s' !! k = None.
Proof.
  intros arg k.
  assert (∃ s,
    ops [OpTurn (TCall None arg); OpClear; OpTurn (TCall None arg);
         OpTurn (TSettle 1 None); OpTurn (TResume 1 k);
         OpTurn (TSettle 0 (Some (Error "Failed to refresh token")))]
      initial = Some s ∧
    cache s !! k = Some 1 ∧ promises s !! 1 = Some Fulfilled ∧
    (0, k) ∈ awaiting s ∧
    promises s !! 0 = Some (Rejected (Error "Failed to refresh token")))
    as (s & Hrun & Hc & Hf & Hw & Hr).
  { eexists. split; [by vm_compute|]. split; [by vm_compute|].
    split; [by vm_compute|]. split; [|by vm_compute].
    apply list_elem_of_singleton. by vm_compute. }
  destruct (stale_failure_evicts_newer_instance s 0 1 k _ Hw Hr Hc)
    as (s' & Hres & Hgone & _); [done|].
  exists s, s'. by split_and!.
Defined.

End FacadeProps.

(** * Properties of the generation service *)

Module GenerationProps.
Import JsString Generation.

Section WithTrim.
Variable trim : string → string.

Lemma kept_lines_clean s :
  Forall (fun piece => hasChar nl piece = false)
    (filter (fun line => trim line ≠ EmptyString) (split nl s)).
Proof.
  apply Forall_forall. intros line Hin.
  apply list_elem_of_filter in Hin as [_ Hin].
  by apply (proj1 (Forall_forall _ _) (StringMore.split_pieces_clean nl s)).
Qed.

Lemma filter_twice {A} (P : A → Prop) `{∀ x, Decision (P x)} (l : list A) :
  filter P (filter P l) = filter P l.
Proof.
  induction l as [|a l IH]; [done|].
  rewrite filter_cons. case_decide as Ha; [|done].
  rewrite filter_cons, decide_True by done. by rewrite IH.
Qed.

(** X23.  [parseLyrics] drops the blank lines and nothing else.  The
    lines of its result are the lines of the prompt that are not blank, in
    their order; a prompt of blank lines only gives the empty string; and
    parsing twice is parsing once. *)
Theorem parseLyrics_drops_blank_lines :
  trim EmptyString = EmptyString →
  ∀ prompt,
    let kept :=
      filter (fun line => trim line ≠ EmptyString) (split nl prompt) in
    (kept ≠ [] → split nl (parseLyrics trim prompt) = kept) ∧
    (kept = [] → parseLyrics trim prompt = EmptyString) ∧
    parseLyrics trim (parseLyrics trim prompt) = parseLyrics trim prompt.
Proof.
  intros Htrim prompt kept.
  assert (kept ≠ [] → split nl (parseLyrics trim prompt) = kept) as Hlines.
  { intros Hne. unfold parseLyrics. fold kept.
    apply StringMore.split_join; [done|apply kept_lines_clean]. }
  split_and!.
  - done.
  - intros He. unfold parseLyrics. fold kept. by rewrite He.
  - destruct (decide (kept = [])) as [He|Hne].
    + assert (parseLyrics trim prompt = EmptyString) as ->
        by (unfold parseLyrics; fold kept; by rewrite He).
      unfold parseLyrics. simpl. rewrite filter_cons, decide_False; [done|].
      intros Hcontra. by apply Hcontra.
    + unfold parseLyrics at 1. rewrite (Hlines Hne).
      unfold kept. rewrite filter_twice. done.
Qed.

End WithTrim.

Lemma parseLyrics_drops_blank_lines_witness :
  split nl (parseLyrics Cookies.spaceTrim
              ("[Verse]" +:+ String nl (String nl ("  " +:+ String nl "la la"))))
  = ["[Verse]"; "la la"].
Proof.
  apply (proj1 (parseLyrics_drops_blank_lines Cookies.spaceTrim eq_refl
                  ("[Verse]" +:+ String nl (String nl ("  " +:+ String nl "la la"))))).
  by vm_compute.
Defined.

Section WaitForAudio.
Context {AudioInfo : Type} (status : AudioInfo → string).

(** The loop from its iteration [i] on, when the polls up to [n] are
    known. *)
Lemma waitLoop_runs (env : WaitEnv) (polls : nat → list AudioInfo) n :
  (∀ i, i < n → get env i = inr (polls i)) →
  (∀ i, i < n → keepAlive env i = None) →
  (∀ i, i < n → (dateNow env (S i) - dateNow env 0 < 100000)%Z) →
  (∀ i, i < n →
     allCompleted status (polls i) || allError status (polls i) = false) →
  ∀ k i fuel last,
    n = i + k →
    waitLoop status env (k + fuel) i (dateNow env 0) last =
    waitLoop status env fuel n (dateNow env 0)
      (match k with 0 => last | S _ => polls (n - 1) end).
Proof.
  intros Hget Hkeep Htime Hnot.
  induction k as [|k IH]; intros i fuel last Hn.
  { by replace i with n by lia. }
  change (S k + fuel) with (S (k + fuel)). cbn [waitLoop].
  rewrite decide_True by (apply Htime; lia).
  rewrite Hget by lia. rewrite Hnot by lia. rewrite Hkeep by lia.
  rewrite (IH (S i) fuel (polls i)) by lia.
  destruct k; [|done].
  by replace (n - 1) with i by lia.
Qed.

Lemma waitForAudio_timeout
    (env : WaitEnv) (polls : nat → list AudioInfo) n fuel :
  (∀ i, i < n → get env i = inr (polls i)) →
  (∀ i, i < n → keepAlive env i = None) →
  (∀ i, i < n → (dateNow env (S i) - dateNow env 0 < 100000)%Z) →
  (∀ i, i < n →
     allCompleted status (polls i) || allError status (polls i) = false) →
  (100000 ≤ dateNow env (S n) - dateNow env 0)%Z →
  waitForAudio status env (n + S fuel)
  = Returned (match n with 0 => [] | S m => polls m end) tt.
Proof.
  intros Hget Hkeep Htime Hnot Hout.
  pose proof (waitLoop_runs env polls n Hget Hkeep Htime Hnot n 0 (S fuel) []
                eq_refl) as Hrun.
  unfold waitForAudio. rewrite Hrun. cbn [waitLoop].
  rewrite decide_False by lia.
  destruct n as [|m]; [done|]. by replace (S m - 1) with m by lia.
Qed.

(** X24.  What [waitForAudio] answers.  While the deadline of 100 s
    after the start has not passed, the polls go on until one is final
    (all clips streaming or complete, or all clips in error), and that one
    is returned.  When the deadline passes first, the call does not fail:
    it returns the last poll, or the empty list when it never polled. *)
Theorem waitForAudio_first_final_or_last_poll
    (env : WaitEnv) (polls : nat → list AudioInfo) n fuel :
  (∀ i, i < n → get env i = inr (polls i)) →
  (∀ i, i < n → keepAlive env i = None) →
  (∀ i, i < n → (dateNow env (S i) - dateNow env 0 < 100000)%Z) →
  (∀ i, i < n →
     allCompleted status (polls i) || allError status (polls i) = false) →
  ((dateNow env (S n) - dateNow env 0 < 100000)%Z →
   get env n = inr (polls n) →
   allCompleted status (polls n) || allError status (polls n) = true →
   waitForAudio status env (n + S fuel) = Returned (polls n) tt) ∧
  ((100000 ≤ dateNow env (S n) - dateNow env 0)%Z →
   waitForAudio status env (n + S fuel)
   = Returned (match n with 0 => [] | S m => polls m end) tt).
Proof.
  intros Hget Hkeep Htime Hnot.
  pose proof (waitLoop_runs env polls n Hget Hkeep Htime Hnot n 0 (S fuel) []
                eq_refl) as Hrun.
  split.
  - intros Hin Hn Hfinal. unfold waitForAudio. rewrite Hrun. cbn [waitLoop].
    by rewrite decide_True, Hn, Hfinal by done.
  - intros Hout. by apply waitForAudio_timeout.
Qed.

(** A result with a clip in error and a clip that is not is not final. *)
Lemma mixed_not_final (r : list AudioInfo) a b :
  a ∈ r → b ∈ r → status a = "error" → status b ≠ "error" →
  allCompleted status r || allError status r = false.
Proof.
  intros Ha Hb Hsa Hsb. apply orb_false_iff. split.
  - apply not_true_iff_false. intros Hall.
    unfold allCompleted in Hall. rewrite forallb_forall in Hall.
    specialize (Hall a (proj1 (list_elem_of_In _ _) Ha)).
    rewrite Hsa in Hall. done.
  - apply not_true_iff_false. intros Hall.
    unfold allError in Hall. rewrite forallb_forall in Hall.
    specialize (Hall b (proj1 (list_elem_of_In _ _) Hb)).
    by apply bool_decide_eq_true in Hall.
Qed.

(** X25.  A generation that failed in part is waited for until the
    deadline.  When every poll has one clip in error and one that is not,
    no poll is final, whatever the state of the other clips: the call
    returns only once the deadline has passed, with the last poll. *)
Theorem partly_failed_is_waited_for
    (env : WaitEnv) (polls : nat → list AudioInfo) n fuel :
  (∀ i, i < n → get env i = inr (polls i)) →
  (∀ i, i < n → keepAlive env i = None) →
  (∀ i, i < n → (dateNow env (S i) - dateNow env 0 < 100000)%Z) →
  (∀ i, i < n → ∃ a b, a ∈ polls i ∧ b ∈ polls i ∧
                       status a = "error" ∧ status b = "complete") →
  (100000 ≤ dateNow env (S n) - dateNow env 0)%Z →
  waitForAudio status env (n + S fuel)
  = Returned (match n with 0 => [] | S m => polls m end) tt.
Proof.
  intros Hget Hkeep Htime Hmixed Hout.
  apply waitForAudio_timeout; try done.
  intros i Hi. destruct (Hmixed i Hi) as (a & b & Ha & Hb & Hsa & Hsb).
  apply (mixed_not_final _ a b); try done. by rewrite Hsb.
Qed.

End WaitForAudio.

Section GenerateLyrics.
Context {LyricsResponse : Type} (lyricsStatus : LyricsResponse → string).

Lemma lyricsLoop_runs (poll : nat → JsError + option LyricsResponse) n :
  (∀ i, i < n → ∃ body, poll i = inr body ∧
                        lyricsStatus <$> body ≠ Some "complete") →
  ∀ k i fuel body,
    n = i + k → 1 ≤ i →
    poll (i - 1) = inr body →
    ∃ body', poll (n - 1) = inr body' ∧
      lyricsLoop lyricsStatus poll (k + fuel) i body
      = lyricsLoop lyricsStatus poll fuel n body'.
Proof.
  intros Hpoll. induction k as [|k IH]; intros i fuel body Hn Hi Hbody.
  { replace n with i by lia. by exists body. }
  destruct (Hpoll (i - 1)) as (b & Hb & Hnot); [lia|].
  rewrite Hbody in Hb. injection Hb as <-.
  destruct (Hpoll i) as (b' & Hb' & Hnot'); [lia|].
  change (S k + fuel) with (S (k + fuel)). cbn [lyricsLoop].
  rewrite decide_True by done. rewrite Hb'.
  apply IH; [lia|lia|]. by replace (S i - 1) with i by lia.
Qed.

(** X26.  [generateLyrics] has no deadline.  It asks for the lyrics
    until a response has the status [complete], and returns the body of
    that response, the first one; as long as no response is complete it
    goes on asking, whatever their number. *)
Theorem generateLyrics_polls_until_complete
    (poll : nat → JsError + option LyricsResponse) n :
  (∀ i, i < n → ∃ body, poll i = inr body ∧
                        lyricsStatus <$> body ≠ Some "complete") →
  (∀ r fuel,
     poll n = inr (Some r) → lyricsStatus r = "complete" →
     generateLyrics lyricsStatus None None poll (n + fuel)
     = Returned (Some r) (S n)) ∧
  (∀ fuel, fuel < n →
     generateLyrics lyricsStatus None None poll fuel = OutOfFuel).
Proof.
  intros Hpoll. split.
  - intros r fuel Hn Hr. unfold generateLyrics.
    destruct n as [|n].
    + rewrite Hn. destruct fuel; simpl; by rewrite decide_False, ?Hr
        by (simpl; rewrite Hr; by intros H; apply H).
    + destruct (Hpoll 0) as (b0 & Hb0 & _); [lia|]. rewrite Hb0.
      destruct (lyricsLoop_runs poll (S n) Hpoll n 1 (S fuel) b0)
        as (b & Hb & Hrun); [lia|lia|done|].
      replace (S n + fuel) with (n + S fuel) by lia. rewrite Hrun.
      replace (S n - 1) with n in Hb by lia.
      destruct (Hpoll n) as (b' & Hb' & Hnot); [lia|].
      rewrite Hb in Hb'. injection Hb' as <-.
      cbn [lyricsLoop]. rewrite decide_True by done. rewrite Hn.
      destruct fuel; cbn [lyricsLoop];
        by rewrite decide_False by (simpl; rewrite Hr; by intros H; apply H).
  - intros fuel Hfuel. unfold generateLyrics.
    destruct (Hpoll 0) as (b0 & Hb0 & Hnot0); [lia|]. rewrite Hb0.
    destruct (lyricsLoop_runs poll (S fuel)
                (fun i Hi => Hpoll i ltac:(lia)) fuel 1 0 b0)
      as (b & Hb & Hrun); [lia|lia|done|].
    rewrite Nat.add_0_r in Hrun. rewrite Hrun.
    replace (S fuel - 1) with fuel in Hb by lia.
    destruct (Hpoll fuel) as (b' & Hb' & Hnot); [lia|].
    rewrite Hb in Hb'. injection Hb' as <-.
    cbn [lyricsLoop]. by rewrite decide_True.
Qed.

End GenerateLyrics.

(** *** The theorems on examples *)

(** Two responses that are not complete, then a complete one. *)
Lemma generateLyrics_polls_until_complete_witness :
  let poll (i : nat) : JsError + option string :=
    inr (Some (if decide (i < 2) then "running" else "complete")) in
  generateLyrics (fun r : string => r) None None poll 5
  = Returned (Some "complete") 3.
Proof.
  intros poll.
  destruct (generateLyrics_polls_until_complete (fun r : string => r) poll 2)
    as [Hdone _].
  - intros i Hi. eexists. split; [done|]. simpl. by rewrite decide_True.
  - apply (Hdone "complete" 3); done.
Defined.

(** Two polls of a clip that is queued, then a poll that finds it
    complete, ten seconds apart. *)
Lemma waitForAudio_first_final_or_last_poll_witness :
  let env : WaitEnv :=
    {| dateNow := fun i => (Z.of_nat i * 10000)%Z;
       get := fun i => inr (if decide (i < 2) then ["queued"] else ["complete"]);
       keepAlive := fun _ => None |} in
  waitForAudio (fun audio : string => audio) env 3
  = Returned ["complete"] tt.
Proof.
  intros env.
  destruct (waitForAudio_first_final_or_last_poll
              (fun audio : string => audio) env
              (fun i => if decide (i < 2) then ["queued"] else ["complete"])
              2 0) as [Hfinal _].
  - done.
  - done.
  - intros i Hi. simpl. lia.
  - intros i Hi. by rewrite decide_True.
  - apply Hfinal; [simpl; lia|done|done].
Defined.

(** One clip failed and one completed: polled every forty seconds until
    the deadline. *)
Lemma partly_failed_is_waited_for_witness :
  let env : WaitEnv :=
    {| dateNow := fun i => (Z.of_nat i * 40000)%Z;
       get := fun _ => inr ["error"; "complete"];
       keepAlive := fun _ => None |} in
  waitForAudio (fun audio : string => audio) env 3
  = Returned ["error"; "complete"] tt.
Proof.
  intros env.
  apply (partly_failed_is_waited_for (fun audio : string => audio) env
           (fun _ => ["error"; "complete"]) 2 0).
  - done.
  - done.
  - intros i Hi. simpl. lia.
  - intros i Hi. exists "error", "complete".
    split_and!; [|  |done|done].
    + apply list_elem_of_here.
    + apply list_elem_of_further, list_elem_of_here.
  - simpl. lia.
Defined.

End GenerationProps.

(** * Properties of the CAPTCHA service *)

Module CaptchaProps.
Import JsString Captcha.

(** *** The token of the intercepted request *)

Lemma splitFrom_clean sep s :
  includes s sep = false → splitFrom sep 0 s = [s].
Proof.
  induction s as [|c s IH]; [done|].
  cbn [includes]. intros H. apply orb_false_iff in H as [Hst Hinc].
  cbn [splitFrom]. rewrite Hst, (IH Hinc). done.
Qed.

Lemma splitFrom_skip sep pre t :
  splitFrom sep (String.length pre) (pre +:+ t) = splitFrom sep 0 t.
Proof.
  induction pre as [|b pre IH]; [done|].
  change (String b pre +:+ t) with (String b (pre +:+ t)).
  cbn [String.length splitFrom]. exact IH.
Qed.

Lemma startsWith_app p s : startsWith p (p +:+ s) = true.
Proof.
  induction p as [|a p IH]; [done|].
  change (String a p +:+ s) with (String a (p +:+ s)).
  cbn [startsWith]. by rewrite bool_decide_eq_true_2, IH.
Qed.

Lemma splitFrom_prefix sep t :
  sep ≠ EmptyString →
  splitFrom sep 0 (sep +:+ t) = EmptyString :: splitFrom sep 0 t.
Proof.
  intros Hne. destruct sep as [|a sep]; [done|].
  change (String a sep +:+ t) with (String a (sep +:+ t)).
  cbn [splitFrom].
  change (String a (sep +:+ t)) with (String a sep +:+ t).
  rewrite startsWith_app. f_equal.
  cbn [String.length]. rewrite Nat.sub_1_r. cbn [Nat.pred].
  apply splitFrom_skip.
Qed.

Lemma bearerOf_prefixed t :
  includes t "Bearer " = false →
  bearerOf (Some ("Bearer " +:+ t)) = Some t.
Proof.
  intros Hclean. unfold bearerOf, splitOn.
  rewrite splitFrom_prefix by done.
  by rewrite splitFrom_clean.
Qed.

Section WithJwt.
Context `{JW : Auth.JwtRuntime}.

(** X27.  Which token the CAPTCHA flow adopts.  From the header
    [Bearer t] of the intercepted request the service adopts [t] as its
    current token.  A header without that prefix is adopted whole.  A
    missing header, an empty one, or the bare prefix leave the service as
    it is. *)
Theorem captcha_flow_adopts_bearer_token a :
  (∀ t, t ≠ EmptyString → includes t "Bearer " = false →
        adoptToken (Some ("Bearer " +:+ t)) a = Auth.setToken t a) ∧
  (∀ h, h ≠ EmptyString → includes h "Bearer " = false →
        adoptToken (Some h) a = Auth.setToken h a) ∧
  adoptToken None a = a ∧
  adoptToken (Some EmptyString) a = a ∧
  adoptToken (Some "Bearer ") a = a.
Proof.
  split_and!.
  - intros t Hne Hclean. unfold adoptToken.
    rewrite bearerOf_prefixed by done. by destruct t.
  - intros h Hne Hclean. unfold adoptToken, bearerOf, splitOn.
    rewrite splitFrom_clean by done. simpl. by destruct h.
  - done.
  - done.
  - done.
Qed.

End WithJwt.

Lemma captcha_flow_adopts_bearer_token_witness :
  let JW := Auth.sampleJwt in
  Auth.currentToken
    (Auth.state (adoptToken (Some ("Bearer " +:+ Auth.sampleToken))
                   Auth.sampleService))
  = Some Auth.sampleToken ∧
  Auth.currentToken
    (Auth.state (adoptToken (Some "Basic dXNlcjpwYXNz") Auth.sampleService))
  = Some "Basic dXNlcjpwYXNz".
Proof.
  intros JW.
  destruct (captcha_flow_adopts_bearer_token Auth.sampleService)
    as (Hbearer & Hwhole & _).
  rewrite (Hbearer Auth.sampleToken) by done.
  rewrite (Hwhole "Basic dXNlcjpwYXNz") by done.
  split; reflexivity.
Defined.

(** *** Drag solutions *)

Section Drag.
Context {Num : Type} (add : Num → Num → Num).

Lemma mod_step n : S (S n) `mod` 2 = n `mod` 2.
Proof.
  replace (S (S n)) with (n + 1 * 2) by lia. apply Nat.Div0.mod_add.
Qed.

Lemma dragLoop_pairs (box : @Point Num) :
  ∀ fuel rest pre done,
    length rest ≤ 2 * fuel →
    length rest `mod` 2 = 0 →
    ∃ effects,
      dragLoop add fuel (length pre) box (pre ++ rest) done
        = Returned tt (done ++ effects) ∧
      dragsOf effects
        = Some ((fun d => (offset add box d.1, offset add box d.2, 30))
                  <$> pairsOf rest).
Proof.
  induction fuel as [|fuel IH]; intros rest pre done Hlen Heven.
  - destruct rest; [|simpl in Hlen; lia].
    exists []. rewrite !app_nil_r. simpl.
    by rewrite decide_False by lia.
  - destruct rest as [|d1 [|d2 rest]].
    + exists []. rewrite !app_nil_r. cbn [dragLoop].
      by rewrite decide_False by lia.
    + by cbn in Heven.
    + cbn [dragLoop].
      rewrite decide_True by (rewrite length_app; simpl; lia).
      rewrite (lookup_app_r pre) by lia. rewrite Nat.sub_diag. simpl.
      rewrite (lookup_app_r pre) by lia.
      replace (length pre + 1 - length pre) with 1 by lia. simpl.
      destruct (IH rest (pre ++ [d1; d2])
                  (done ++ [MouseMove (offset add box d1) None;
                            MouseDown; Sleep;
                            MouseMove (offset add box d2) (Some 30);
                            MouseUp]))
        as (effects & Hloop & Hdrags).
      * simpl in Hlen. lia.
      * cbn [length] in Heven. by rewrite mod_step in Heven.
      * rewrite length_app in Hloop. simpl in Hloop.
        rewrite <- app_assoc in Hloop. simpl in Hloop.
        rewrite Hloop. eexists. split.
        -- by rewrite <- app_assoc.
        -- simpl. by rewrite Hdrags.
Qed.

(** X28.  What a drag solution does.  A solution with an even number
    of points is carried out as one drag per pair of consecutive points,
    in order, each from the first point to the second in 30 steps, both
    points offset by the corner of the challenge box; every press is
    followed by its release.
    A solution with an odd number of points is reported as bad and no
    mouse action is taken.  Without a bounding box nothing is done and an
    error is raised. *)
Theorem drag_solution_pairs_points captchaId (data : list (@Point Num)) :
  (∀ box,
     length data `mod` 2 = 0 →
     ∃ effects,
       applyDragSolution add (Some box) captchaId data = Returned tt effects ∧
       dragsOf effects
         = Some ((fun d => (offset add box d.1, offset add box d.2, 30))
                   <$> pairsOf data) ∧
       2 * length (pairsOf data) = length data) ∧
  (∀ box,
     length data `mod` 2 ≠ 0 →
     applyDragSolution add (Some box) captchaId data
     = Returned tt [BadReport captchaId]) ∧
  applyDragSolution add None captchaId data
  = Threw (Error ".challenge-container boundingBox is null!") [].
Proof.
  split_and!.
  - intros box Heven. unfold applyDragSolution.
    rewrite decide_False by lia.
    destruct (dragLoop_pairs box (length data) data [] []) as (effects & Hloop & Hd);
      [lia|done|].
    simpl in Hloop. exists effects. split_and!; [done|done|].
    clear Hloop Hd effects.
    assert (∀ n (l : list (@Point Num)), length l ≤ n → length l `mod` 2 = 0 →
              2 * length (pairsOf l) = length l) as Hpairs.
    { induction n as [|n IHn]; intros l Hl He.
      - by destruct l; [|simpl in Hl; lia].
      - destruct l as [|d1 [|d2 l]]; [done|by simpl in He|].
        cbn [length] in He. rewrite mod_step in He.
        simpl. rewrite <- (IHn l); [lia|simpl in Hl; lia|done]. }
    by apply (Hpairs (length data)).
  - intros box Hodd. unfold applyDragSolution. by rewrite decide_True.
  - done.
Qed.

End Drag.

Lemma drag_solution_pairs_points_witness :
  let p (a b : Z) : Point := {| x := a; y := b |} in
  ∃ effects,
    applyDragSolution Z.add (Some (p 100 200)%Z) "c1"
      [p 1 2; p 3 4; p 5 6; p 7 8]%Z = Returned tt effects ∧
    dragsOf effects
      = Some [(p 101 202, p 103 204, 30%nat);
              (p 105 206, p 107 208, 30%nat)]%Z.
Proof.
  intros p.
  destruct (drag_solution_pairs_points Z.add "c1"
              [p 1 2; p 3 4; p 5 6; p 7 8]%Z) as (Heven & _ & _).
  destruct (Heven (p 100 200)%Z) as (effects & Hrun & Hdrags & _);
    [reflexivity|].
  exists effects. split; [exact Hrun|exact Hdrags].
Defined.

End CaptchaProps.
